(** * verifyctl, package [directory]: the SCIM group client ([group.go])

    A shallow embedding of [pkg/module/directory/group.go] and the
    properties of its lookup, read, write and patch-translation paths.

    Conventions of the embedding.
    - Go strings are byte strings: [string].
    - A Go [error] is represented by its message ([err.Error()]).
    - A call returns [Ok v] (value, nil error), [Err e] (zero value, error
      [e]) or [Panic] (a run-time panic: nil dereference, failed unchecked
      type assertion, index out of range).
    - The network, the map objects reachable from caller-supplied
      [interface{}] payloads and the caller's own argument object are
      threaded as explicit state; the state survives a failing call, as the
      caller observes it in Go.
    - The transport ([xhttp.Clientx]), the user resolver
      ([UserClient.getUserId]), the shared classifier
      ([module.HandleCommonErrors]) and the [encoding/json] and [net/url]
      library routines are parameters.  Logging is not modelled. *)

From Stdlib Require Import Ascii DecimalString.
From stdpp Require Import gmap strings list fin_maps.

Set Warnings "-register-all".
#[local] Open Scope string_scope.
#[local] Open Scope list_scope.

(** ** Strings and formatting *)

Definition error := string.

(** The byte 0x22. *)
Definition dquote : string := String (Ascii.ascii_of_nat 34) EmptyString.

(** [fmt.Sprintf("%d", n)] *)
Definition itoa (n : Z) : string := NilZero.string_of_int (Z.to_int n).

(** [strings.Join] *)
Fixpoint join (sep : string) (xs : list string) : string :=
  match xs with
  | [] => EmptyString
  | [x] => x
  | x :: rest => x +:+ sep +:+ join sep rest
  end.

(** ** Outcomes and the state monad of a call *)

Inductive outcome (A : Type) : Type :=
  | Ok (a : A)
  | Err (e : error)
  | Panic.
Arguments Ok {A} a.
Arguments Err {A} e.
Arguments Panic {A}.

Definition M (St A : Type) : Type := St -> outcome A * St.

Definition ret {St A} (a : A) : M St A := fun s => (Ok a, s).
Definition fail {St A} (e : error) : M St A := fun s => (Err e, s).
Definition panic {St A} : M St A := fun s => (Panic, s).

Definition bind {St A B} (m : M St A) (k : A -> M St B) : M St B :=
  fun s =>
    match m s with
    | (Ok a, s') => k a s'
    | (Err e, s') => (Err e, s')
    | (Panic, s') => (Panic, s')
    end.

Notation "'let*' x ':=' m 'in' k" := (bind m (fun x => k))
  (at level 10, x name, m at level 100, k at level 200).
Notation "'let*' ( x , y ) ':=' m 'in' k" :=
  (bind m (fun xy => let x := fst xy in let y := snd xy in k))
  (at level 10, x name, y name, m at level 100, k at level 200).

(** [v, err := f(); if err != nil { return fmt.Errorf(..., err.Error()) }] *)
Definition wrap_err {St A} (f : error -> error) (m : M St A) : M St A :=
  fun s =>
    match m s with
    | (Err e, s') => (Err (f e), s')
    | r => r
    end.

Definition get {St} : M St St := fun s => (Ok s, s).
Definition modify {St} (f : St -> St) : M St unit := fun s => (Ok tt, f s).

(** A computation on the second component of a pair state. *)
Definition lift {X St A} (m : M St A) : M (X * St) A :=
  fun xs =>
    match m xs.2 with
    | (r, s') => (r, (xs.1, s'))
    end.

(** [for i := range xs { body }] over a slice of length [n], starting at
    index [i]; the body reads the element from the current state. *)
Fixpoint range_loop {St} (n i : nat) (body : nat -> M St unit) : M St unit :=
  match n with
  | O => ret tt
  | S n' => let* _ := body i in range_loop n' (S i) body
  end.

(** [for j, v := range values { body }] over a slice whose elements are
    not written during the loop. *)
Fixpoint range_values {St A} (values : list A) (j : nat)
    (body : nat -> A -> M St unit) : M St unit :=
  match values with
  | [] => ret tt
  | v :: rest => let* _ := body j v in range_values rest (S j) body
  end.

(** ** Data model *)

Module AuthConfig.
Record t := mk { Tenant : string; Token : string }.
End AuthConfig.

Module Member.
Record t := mk {
  Type_ : string;
  Value : string;
  Display : string;
  Ref : string }.
Definition with_Value (v : string) (m : t) : t :=
  mk (Type_ m) v (Display m) (Ref m).
End Member.

Module Owner.
Record t := mk { Value : string; Ref : string; DisplayName : string }.
End Owner.

Module IBMGROUPExtension.
Record t := mk { Description : string; Owners : list Owner.t }.
End IBMGROUPExtension.

Module GroupNotification.
Record t := mk {
  NotifyType : string;
  NotifyPassword : bool;
  NotifyManager : bool }.
End GroupNotification.

Module GroupMeta.
Record t := mk { Created : string; LastModified : string }.
End GroupMeta.

Module Group.
Record t := mk {
  Schemas : list string;
  Id : string;
  ExternalId : string;
  DisplayName : string;
  Visible : bool;
  Members : list Member.t;
  IBMGROUP : IBMGROUPExtension.t;
  Notification : GroupNotification.t;
  Meta : GroupMeta.t }.
Definition with_Members (ms : list Member.t) (g : t) : t :=
  mk (Schemas g) (Id g) (ExternalId g) (DisplayName g) (Visible g) ms
     (IBMGROUP g) (Notification g) (Meta g).
End Group.

Module GroupListResponse.
Record t := mk {
  TotalResults : Z;
  Schemas : list string;
  Groups : list Group.t }.
End GroupListResponse.

(** A map object is addressed by a location: two [interface{}] values may
    hold the same [map[string]interface{}]. *)
Definition loc := positive.

(** The dynamic values of a caller-supplied [interface{}].  Slices are
    given by their elements (no code here writes a slice element of a
    payload); maps are references into the store of map objects; [VOther]
    stands for a value of any other dynamic type. *)
Inductive value : Type :=
  | VNil
  | VBool (b : bool)
  | VNumber (lit : string)
  | VString (s : string)
  | VSlice (elems : list value)
  | VMap (m : loc)
  | VOther (goType : string).

Module GroupSCIMOpEntry.
Record t := mk { Op : string; Path : string; Value : value }.
Definition with_Path (p : string) (o : t) : t := mk (Op o) p (Value o).
End GroupSCIMOpEntry.

Module GroupSCIMPatchRequest.
Record t := mk {
  Schemas : list string;
  Operations : list GroupSCIMOpEntry.t }.
End GroupSCIMPatchRequest.

(** What [json.Unmarshal] into an [interface{}] builds: a fresh tree. *)
Inductive json : Type :=
  | JNull
  | JBool (b : bool)
  | JNumber (lit : string)
  | JString (s : string)
  | JArray (elems : list json)
  | JObject (fields : gmap string json).

(** ** net/url *)

Definition Values := gmap string (list string).

Module URL.
Record t := mk {
  Base : string;
  ForceQuery : bool;
  RawQuery : string;
  Fragment : string }.
Definition with_RawQuery (q : string) (u : t) : t :=
  mk (Base u) (ForceQuery u) q (Fragment u).
(** [u.String()]: scheme, host and path; then ['?'] and the raw query,
    when there is one or a bare ['?'] was parsed; then ['#'] and the
    fragment, when there is one. *)
Definition String_ (u : t) : string :=
  Base u
  +:+ (if ForceQuery u || negb (bool_decide (RawQuery u = EmptyString))
       then "?" +:+ RawQuery u else EmptyString)
  +:+ (if bool_decide (Fragment u = EmptyString) then EmptyString
       else "#" +:+ Fragment u).
End URL.

(** [strings.Cut(s, sep)] for a separator of one byte: the text before
    the first [sep], the text after it, and whether [sep] occurs. *)
Fixpoint strings_Cut (sep : ascii) (s : string) : string * string * bool :=
  match s with
  | EmptyString => (EmptyString, EmptyString, false)
  | String c rest =>
      if Ascii.eqb c sep then (EmptyString, rest, true)
      else let r := strings_Cut sep rest in (String c r.1.1, r.1.2, r.2)
  end.

(** [url.Parse]: the fragment is what follows the first ['#'], the raw
    query what follows the first ['?'] before it; a text that ends in its
    only ['?'] forces an empty query.  The source drops the error of
    [url.Parse]: the text is taken to parse, and scheme, host and path
    are kept as written. *)
Definition url_Parse (rawurl : string) : URL.t :=
  let f := strings_Cut "#" rawurl in
  let q := strings_Cut "?" f.1.1 in
  URL.mk q.1.1 (q.2 && bool_decide (q.1.2 = EmptyString)) q.1.2 f.1.2.

(** Insertion of a key into a key-sorted list of query entries. *)
Fixpoint insert_by_key (e : string * list string)
    (sorted : list (string * list string)) : list (string * list string) :=
  match sorted with
  | [] => [e]
  | e' :: rest =>
      if String.leb e.1 e'.1 then e :: e' :: rest
      else e' :: insert_by_key e rest
  end.

Definition sort_by_key (es : list (string * list string))
    : list (string * list string) :=
  foldr insert_by_key [] es.

(** ** The transport and the state of the world *)

Definition Header := gmap string (list string).

Module Response.
Record t := mk { StatusCode : Z; Body : string }.
End Response.

(** One interaction with the outside: a request handed to the transport,
    or a username handed to the resolver. *)
Inductive call : Type :=
  | CallGet (u : URL.t) (headers : Header)
  | CallPost (u : URL.t) (headers : Header) (body : string)
  | CallPatch (u : URL.t) (headers : Header) (body : string)
  | CallDelete (u : URL.t) (headers : Header)
  | CallGetUserId (username : string).

Definition is_http (c : call) : bool :=
  match c with
  | CallGetUserId _ => false
  | _ => true
  end.

Definition is_write (c : call) : bool :=
  match c with
  | CallPost _ _ _ | CallPatch _ _ _ => true
  | _ => false
  end.

Module world.
Record t := mk {
  net : list call;
  heap : gmap loc (gmap string value) }.
Definition log (c : call) (w : t) : t := mk (net w ++ [c]) (heap w).
Definition store (a : loc) (k : string) (v : value) (w : t) : t :=
  mk (net w) (<[a := <[k := v]> (default ∅ (heap w !! a))]> (heap w)).
(** The content of the map object at [a]; a nil map reads as empty. *)
Definition load (a : loc) (w : t) : gmap string value :=
  default ∅ (heap w !! a).
End world.

(** The [xhttp.Clientx] interface.  A method returns a response pointer,
    possibly nil, and an error; the answer may depend on everything
    exchanged so far. *)
Module Clientx.
Record t := mk {
  Get : list call -> URL.t -> Header -> option Response.t * option error;
  Post : list call -> URL.t -> Header -> string
         -> option Response.t * option error;
  Patch : list call -> URL.t -> Header -> string
          -> option Response.t * option error;
  Delete : list call -> URL.t -> Header -> option Response.t * option error }.
End Clientx.

Definition apiGroups : string := "v2.0/Groups".

(** ** [extractUsernameFromPath]

    The pattern is [value eq Q?([^Q]+)Q?], written here with [Q] for the
    double quote byte 0x22. *)

(** The rest of [s] after the literal [lit], when [s] starts with it. *)
Fixpoint strip_prefix (lit s : string) : option string :=
  match lit, s with
  | EmptyString, _ => Some s
  | String a lit', String b s' =>
      if Ascii.eqb a b then strip_prefix lit' s' else None
  | String _ _, EmptyString => None
  end.

Definition is_quote (c : ascii) : bool := Ascii.eqb c (Ascii.ascii_of_nat 34).

(** The longest prefix of bytes other than the quote (the class [[^Q]]
    matches every other byte, the newline included). *)
Fixpoint non_quotes (s : string) : string :=
  match s with
  | EmptyString => EmptyString
  | String c rest =>
      if is_quote c then EmptyString else String c (non_quotes rest)
  end.

(** [([^Q]+)Q?] at the start of [s].  The repetition is greedy and the
    optional closing quote that follows always matches, so the capture is
    the longest run; it needs one byte at least. *)
Definition capture (s : string) : option string :=
  match non_quotes s with
  | EmptyString => None
  | g => Some g
  end.

(** The pattern anchored at the start of [s].  The optional opening quote
    is greedy: the branch that consumes a quote is tried first, the empty
    branch when that one fails. *)
Definition match_here (s : string) : option string :=
  match strip_prefix "value eq " s with
  | None => None
  | Some rest =>
      let quoted :=
        match rest with
        | String c rest' => if is_quote c then capture rest' else None
        | EmptyString => None
        end in
      match quoted with
      | Some g => Some g
      | None => capture rest
      end
  end.

(** [re.FindStringSubmatch]: the leftmost match.  Go returns nil, or the
    whole match followed by capture group 1; only the group is read. *)
Fixpoint FindStringSubmatch (s : string) : option string :=
  match match_here s with
  | Some g => Some g
  | None =>
      match s with
      | EmptyString => None
      | String _ rest => FindStringSubmatch rest
      end
  end.

Definition extractUsernameFromPath (path : string) : string :=
  match FindStringSubmatch path with
  | Some g => g
  | None => EmptyString
  end.

(** ** The client *)

Definition deref {St A} (p : option A) : M St A :=
  match p with
  | Some a => ret a
  | None => panic
  end.

(** The result of a library routine, which touches no state. *)
Definition lib {St A} (r : outcome A) : M St A := fun s => (r, s).

(** Everything outside [group.go] that the client talks to or calls. *)
Class Env := {
  (** [auth *config.AuthConfig] and the receiver's [c.client]. *)
  auth : AuthConfig.t;
  client : Clientx.t;
  (** [NewUserClient().getUserId(ctx, auth, username)], of [user.go]: the
      answer of the resolver, given everything exchanged so far. *)
  getUserId : list call -> string -> outcome string;
  (** [module.HandleCommonErrors(ctx, response, defaultError)]: nil, or the
      error of a recognised response. *)
  HandleCommonErrors : Response.t -> string -> option error;
  (** [json.Unmarshal] into a [map[string]interface{}]: the decoded fields
      (a nil map reads as a map with no field), or the decoder's error. *)
  json_Unmarshal_map : string -> outcome (gmap string json);
  (** [json.Unmarshal] into the typed structures; the source drops the
      decoder's message. *)
  json_Unmarshal_Group : string -> option Group.t;
  json_Unmarshal_GroupListResponse : string -> option GroupListResponse.t;
  (** [json.Marshal]; a patch request is serialized through the map
      objects its payloads refer to. *)
  json_Marshal_Group : Group.t -> outcome string;
  json_Marshal_PatchRequest :
    gmap loc (gmap string value) -> GroupSCIMPatchRequest.t -> outcome string;
  url_QueryEscape : string -> string;
  url_ParseQuery : string -> Values }.

Section Directory.

Context `{Env}.

(** [u.Query()]: the raw query parsed; the empty one has no entry. *)
Definition URL_Query (u : URL.t) : Values :=
  if decide (URL.RawQuery u = EmptyString) then ∅
  else url_ParseQuery (URL.RawQuery u).

(** [q.Encode()]: [key=value] pairs, escaped, joined by [&], in the
    order of the keys. *)
Definition Values_Encode (q : Values) : string :=
  join "&"
    (flat_map
       (fun e =>
          map (fun x => url_QueryEscape e.1 +:+ "=" +:+ url_QueryEscape x) e.2)
       (sort_by_key (map_to_list q))).

Definition client_Get (u : URL.t) (headers : Header)
    : M world.t (option Response.t * option error) :=
  fun w => (Ok (Clientx.Get client (world.net w) u headers),
            world.log (CallGet u headers) w).

Definition client_Post (u : URL.t) (headers : Header) (b : string)
    : M world.t (option Response.t * option error) :=
  fun w => (Ok (Clientx.Post client (world.net w) u headers b),
            world.log (CallPost u headers b) w).

Definition client_Patch (u : URL.t) (headers : Header) (b : string)
    : M world.t (option Response.t * option error) :=
  fun w => (Ok (Clientx.Patch client (world.net w) u headers b),
            world.log (CallPatch u headers b) w).

Definition client_Delete (u : URL.t) (headers : Header)
    : M world.t (option Response.t * option error) :=
  fun w => (Ok (Clientx.Delete client (world.net w) u headers),
            world.log (CallDelete u headers) w).

Definition client_getUserId (username : string) : M world.t string :=
  fun w => (getUserId (world.net w) username,
            world.log (CallGetUserId username) w).

Definition groupsURL : string :=
  "https://" +:+ AuthConfig.Tenant auth +:+ "/" +:+ apiGroups.

Definition groupURL (id : string) : string :=
  "https://" +:+ AuthConfig.Tenant auth +:+ "/" +:+ apiGroups +:+ "/" +:+ id.

Definition bearer : list string := ["Bearer " +:+ AuthConfig.Token auth].

(** *** [getGroupId] *)

Definition getGroupId_filter (name : string) : string :=
  "displayName eq " +:+ dquote +:+ name +:+ dquote.

Definition getGroupId_URL (name : string) : URL.t :=
  let u := url_Parse groupsURL in
  let q := URL_Query u in
  let q := <["filter" := [getGroupId_filter name]]> q in
  URL.with_RawQuery (Values_Encode q) u.

Definition getGroupId_headers : Header :=
  {[ "Accept" := ["application/scim+json"]; "Authorization" := bearer ]}.

(** The one request of the lookup. *)
Definition lookupCall (name : string) : call :=
  CallGet (getGroupId_URL name) getGroupId_headers.

(** The part of [getGroupId] after the response: the [Resources] of the
    decoded body. *)
Definition getGroupId_decode (name : string) (body : string)
    : M world.t string :=
  let* data :=
    wrap_err (fun e => "failed to parse response: " +:+ e)
             (lib (json_Unmarshal_map body)) in
  match data !! "Resources" with
  | Some (JArray (firstResource :: _)) =>
      match firstResource with
      | JObject fields =>
          match fields !! "id" with
          | Some (JString id) => ret id
          | _ => fail "ID not found or invalid type"
          end
      | _ => fail "invalid resource format"
      end
  | _ => fail ("no group found with group name " +:+ name)
  end.

Definition getGroupId (name : string) : M world.t string :=
  let headers := getGroupId_headers in
  let u := getGroupId_URL name in
  (* response, _ := c.client.Get(ctx, u, headers) *)
  let* (response, _err) := client_Get u headers in
  let* response := deref response in
  let* _ :=
    if decide (Response.StatusCode response ≠ 200%Z) then
      match HandleCommonErrors response "unable to get Group" with
      | Some err =>
          fail ("unable to get the Group with groupName " +:+ name
                +:+ "; err=" +:+ err)
      | None => ret tt
      end
    else ret tt in
  getGroupId_decode name (Response.Body response).

(** *** [GetGroup] *)

Definition GetGroup_headers : Header :=
  {[ "Accept" := ["application/scim+json"]; "Authorization" := bearer ]}.

Definition GetGroup (groupName : string) : M world.t (Group.t * string) :=
  let* id := getGroupId groupName in
  let u := url_Parse (groupURL id) in
  let headers := GetGroup_headers in
  let* (response, err) := client_Get u headers in
  match err with
  | Some e => fail e
  | None =>
      let* response := deref response in
      if decide (Response.StatusCode response ≠ 200%Z) then
        match HandleCommonErrors response "unable to get Group" with
        | Some e => fail e
        | None => fail "unable to get the Group"
        end
      else
        match json_Unmarshal_Group (Response.Body response) with
        | None => fail "unable to get the Group"
        | Some g => ret (g, URL.String_ u)
        end
  end.

(** *** [GetGroups] *)

Definition GetGroups_URL (sort count : string) : URL.t :=
  let u := url_Parse groupsURL in
  let q := URL_Query u in
  let q := if bool_decide (0 < String.length sort)%nat
           then <["sortBy" := [sort]]> q else q in
  let q := if bool_decide (0 < String.length count)%nat
           then <["count" := [count]]> q else q in
  if bool_decide (0 < size q)%nat
  then URL.with_RawQuery (Values_Encode q) u else u.

Definition GetGroups_headers : Header :=
  {[ "Accept" := ["application/scim+json"]; "Authorization" := bearer ]}.

Definition GetGroups (sort count : string)
    : M world.t (GroupListResponse.t * string) :=
  let u := GetGroups_URL sort count in
  let headers := GetGroups_headers in
  let* (response, err) := client_Get u headers in
  match err with
  | Some e => fail e
  | None =>
      let* response := deref response in
      if decide (Response.StatusCode response ≠ 200%Z) then
        match HandleCommonErrors response "unable to get Groups" with
        | Some e => fail e
        | None => fail "unable to get the Groups"
        end
      else
        match json_Unmarshal_GroupListResponse (Response.Body response) with
        | None => fail "unable to get the Groups"
        | Some r => ret (r, URL.String_ u)
        end
  end.

(** *** [CreateGroup]

    The state is the caller's group (behind [group *Group]) and the
    world. *)

Definition resolveError (username : string) (e : error) : error :=
  "unable to get user ID for username " +:+ username +:+ "; err=" +:+ e.

(** The body of [for i, m := range group.Members]. *)
Definition CreateGroup_member (i : nat) : M (Group.t * world.t) unit :=
  let* s := get in
  let* m := deref (Group.Members s.1 !! i) in
  let username := Member.Value m in
  let* userID := wrap_err (resolveError username)
                          (lift (client_getUserId username)) in
  (* group.Members[i].Value = userID *)
  modify (fun s =>
    (Group.with_Members
       (alter (Member.with_Value userID) i (Group.Members s.1)) s.1, s.2)).

Definition CreateGroup_headers : Header :=
  {[ "Accept" := ["application/scim+json"];
     "Content-Type" := ["application/scim+json"];
     "groupshouldnotneedtoresetpassword" := ["false"];
     "Authorization" := bearer ]}.

Definition CreateGroup : M (Group.t * world.t) string :=
  let u := url_Parse groupsURL in
  let headers := CreateGroup_headers in
  let* s0 := get in
  let* _ := range_loop (length (Group.Members s0.1)) 0 CreateGroup_member in
  let* s := get in
  let* b := lib (json_Marshal_Group s.1) in
  let* (response, err) := lift (client_Post u headers b) in
  match err with
  | Some e => fail e
  | None =>
      let* response := deref response in
      if decide (Response.StatusCode response ≠ 201%Z) then
        fail ("Failed to create group; code="
              +:+ itoa (Response.StatusCode response)
              +:+ ", body=" +:+ Response.Body response)
      else
        let* m :=
          wrap_err (fun _ => "Failed to parse response")
                   (lib (json_Unmarshal_map (Response.Body response))) in
        (* id := m["id"].(string) *)
        match m !! "id" with
        | Some (JString id) => ret (groupURL id)
        | _ => panic
        end
  end.

(** *** [DeleteGroup] *)

Definition DeleteGroup_headers : Header :=
  {[ "Content-Type" := ["application/json"]; "Authorization" := bearer ]}.

Definition DeleteGroup (groupName : string) : M world.t unit :=
  let* id := wrap_err (fun e => "unable to get the group ID; err=" +:+ e)
                      (getGroupId groupName) in
  let u := url_Parse (groupURL id) in
  let headers := DeleteGroup_headers in
  let* (response, err) := client_Delete u headers in
  match err with
  | Some e => fail ("unable to delete the Group; err=" +:+ e)
  | None =>
      let* response := deref response in
      if decide (Response.StatusCode response ≠ 204%Z) then
        match HandleCommonErrors response "unable to delete Group" with
        | Some e => fail ("unable to delete the Group; err=" +:+ e)
        | None => fail "unable to delete the Group"
        end
      else ret tt
  end.

(** *** [UpdateGroup]

    The state is the caller's slice of operations and the world. *)

(** The body of [for j, v := range values]: [v] is the element, read
    from the slice; the map it may hold is read and written in the
    store. *)
Definition UpdateGroup_member (j : nat) (v : value)
    : M (list GroupSCIMOpEntry.t * world.t) unit :=
  match v with
  | VMap member =>
      let* s := get in
      match world.load member s.2 !! "value" with
      | Some (VString username) =>
          let* userID := wrap_err (resolveError username)
                                  (lift (client_getUserId username)) in
          (* operations[i].Value.([]interface{})[j]
               .(map[string]interface{})["value"] = userID *)
          modify (fun s =>
            (s.1, world.store member "value" (VString userID) s.2))
      | _ => ret tt
      end
  | _ => ret tt
  end.

Definition removePath (userID : string) : string :=
  "members[value eq " +:+ dquote +:+ userID +:+ dquote +:+ "]".

(** The body of [for i, op := range operations]. *)
Definition UpdateGroup_op (i : nat)
    : M (list GroupSCIMOpEntry.t * world.t) unit :=
  let* s := get in
  let* op := deref (s.1 !! i) in
  if decide (GroupSCIMOpEntry.Op op = "add"
             ∧ GroupSCIMOpEntry.Path op = "members") then
    match GroupSCIMOpEntry.Value op with
    | VSlice values => range_values values 0 UpdateGroup_member
    | _ => ret tt
    end
  else if decide (GroupSCIMOpEntry.Op op = "remove") then
    let username := extractUsernameFromPath (GroupSCIMOpEntry.Path op) in
    if decide (username ≠ EmptyString) then
      let* userID := wrap_err (resolveError username)
                              (lift (client_getUserId username)) in
      (* operations[i].Path = fmt.Sprintf(...) *)
      modify (fun s =>
        (alter (GroupSCIMOpEntry.with_Path (removePath userID)) i s.1, s.2))
    else ret tt
  else ret tt.

Definition UpdateGroup_headers : Header :=
  {[ "Accept" := ["application/scim+json"];
     "Content-Type" := ["application/scim+json"];
     "Authorization" := bearer ]}.

Definition patchSchemas : list string :=
  ["urn:ietf:params:scim:api:messages:2.0:PatchOp"].

Definition UpdateGroup (groupName : string)
    : M (list GroupSCIMOpEntry.t * world.t) unit :=
  let* groupID := wrap_err (fun e => "unable to get the group ID; err=" +:+ e)
                           (lift (getGroupId groupName)) in
  let* s0 := get in
  let* _ := range_loop (length s0.1) 0 UpdateGroup_op in
  let u := url_Parse (groupURL groupID) in
  let headers := UpdateGroup_headers in
  let* s := get in
  let patchRequest := GroupSCIMPatchRequest.mk patchSchemas s.1 in
  let* b :=
    wrap_err (fun e => "unable to marshal the patch request; err=" +:+ e)
             (lib (json_Marshal_PatchRequest (world.heap s.2) patchRequest)) in
  let* (response, err) := lift (client_Patch u headers b) in
  match err with
  | Some e => fail ("unable to update group; err=" +:+ e)
  | None =>
      let* response := deref response in
      if decide (Response.StatusCode response ≠ 204%Z) then
        fail ("failed to update group ; code="
              +:+ itoa (Response.StatusCode response)
              +:+ ", body=" +:+ Response.Body response)
      else ret tt
  end.

End Directory.

(** ** Notions used in the statements *)

(** Whether the byte [c] occurs in [s]. *)
Definition has_byte (c : ascii) : string -> bool :=
  fix go (s : string) : bool :=
    match s with
    | EmptyString => false
    | String c' rest => Ascii.eqb c' c || go rest
    end.

(** Whether [lit] occurs in [s]. *)
Fixpoint occurs (lit s : string) : bool :=
  match strip_prefix lit s with
  | Some _ => true
  | None =>
      match s with
      | EmptyString => false
      | String _ rest => occurs lit rest
      end
  end.

Definition last_byte : string -> option ascii :=
  fix go (s : string) : option ascii :=
    match s with
    | EmptyString => None
    | String c EmptyString => Some c
    | String _ rest => go rest
    end.

(** The result is an error that ends with the message [e]: [e] itself or
    [e] behind a prefix added by the caller. *)
Definition surfaces {A} (e : error) (r : outcome A) : Prop :=
  ∃ pre, r = Err (pre +:+ e).

(** The map elements of [values] that hold a string under the key
    [value], each with that string, as the store of [w] has them. *)
Fixpoint member_usernames (w : world.t) (values : list value)
    : list (loc * string) :=
  match values with
  | [] => []
  | VMap a :: rest =>
      match world.load a w !! "value" with
      | Some (VString u) => (a, u) :: member_usernames w rest
      | _ => member_usernames w rest
      end
  | _ :: rest => member_usernames w rest
  end.

(** The world once the members [mus] were resolved to [ids], in turn. *)
Fixpoint resolve_into (w : world.t) (mus : list (loc * string))
    (ids : list string) : world.t :=
  match mus, ids with
  | (a, u) :: mus', id :: ids' =>
      resolve_into
        (world.store a "value" (VString id) (world.log (CallGetUserId u) w))
        mus' ids'
  | _, _ => w
  end.

(** The same when a map object may occur more than once among the
    members [mus]: the usernames handed to the resolver, answered [ids]
    in turn.  A map is asked at its first occurrence for the string it
    held, at a later one for the ID written at its previous occurrence;
    [cur] holds the ID last written to each map so far. *)
Fixpoint asked_usernames (cur : gmap loc string) (mus : list (loc * string))
    (ids : list string) : list string :=
  match mus, ids with
  | (a, u) :: mus', id :: ids' =>
      default u (cur !! a) :: asked_usernames (<[a := id]> cur) mus' ids'
  | _, _ => []
  end.

(** The ID last written to each map, once all were answered. *)
Fixpoint written_ids (cur : gmap loc string) (mus : list (loc * string))
    (ids : list string) : gmap loc string :=
  match mus, ids with
  | (a, _) :: mus', id :: ids' => written_ids (<[a := id]> cur) mus' ids'
  | _, _ => cur
  end.

(** The content of the map at [a] in [w], with the ID of [cur] written
    over its entry [value] when there is one. *)
Definition rewritten (w : world.t) (cur : gmap loc string) (a : loc)
    : gmap string value :=
  match cur !! a with
  | Some id => <["value" := VString id]> (world.load a w)
  | None => world.load a w
  end.

Section Outcomes.

Context `{Env}.

(** What [CreateGroup] returns for the response to its POST, and
    [UpdateGroup] for the response to its PATCH. *)
Definition CreateGroup_decode (r : Response.t) : outcome string :=
  if decide (Response.StatusCode r ≠ 201%Z) then
    Err ("Failed to create group; code=" +:+ itoa (Response.StatusCode r)
         +:+ ", body=" +:+ Response.Body r)
  else
    match json_Unmarshal_map (Response.Body r) with
    | Ok m =>
        match m !! "id" with
        | Some (JString id) => Ok (groupURL id)
        | _ => Panic
        end
    | Err _ => Err "Failed to parse response"
    | Panic => Panic
    end.

Definition UpdateGroup_decode (r : Response.t) : outcome unit :=
  if decide (Response.StatusCode r ≠ 204%Z) then
    Err ("failed to update group ; code=" +:+ itoa (Response.StatusCode r)
         +:+ ", body=" +:+ Response.Body r)
  else Ok tt.

(** The resolver calls for the usernames [us], in order. *)
Definition calls (us : list string) : list call := CallGetUserId <$> us.

(** Each username of [us], handed to the resolver in turn after the
    history [t0], is answered with an ID. *)
Definition answers_ok (t0 : list call) (us : list string) : Prop :=
  ∀ j u, us !! j = Some u ->
    ∃ id, getUserId (t0 ++ calls (take j us)) u = Ok id.

(** How a run that resolved the usernames [us] after [t0] can end: with a
    value when all were answered; with the error of the last one, the
    ones before it answered; with a panic. *)
Definition run_shape {A} (t0 : list call) (us : list string)
    (r : outcome A) : Prop :=
  match r with
  | Ok _ => answers_ok t0 us
  | Err e =>
      ∃ us0 u x,
        us = us0 ++ [u] ∧ answers_ok t0 us0
        ∧ getUserId (t0 ++ calls us0) u = Err x ∧ e = resolveError u x
  | Panic =>
      answers_ok t0 us
      ∨ ∃ us0 u,
          us = us0 ++ [u] ∧ answers_ok t0 us0
          ∧ getUserId (t0 ++ calls us0) u = Panic
  end.

(** A computation whose only interactions are resolver calls and whose
    result has the shape above. *)
Definition disciplined {X A} (m : M (X * world.t) A) : Prop :=
  ∀ s, ∃ us,
    world.net (m s).2.2 = world.net s.2 ++ calls us
    ∧ run_shape (world.net s.2) us (m s).1.

(** What the loop of [UpdateGroup] makes of an operation: a remove
    operation with a username in its path gets the canonical path for an
    ID that the resolver answered; any other operation stays as it is (an
    add operation keeps its payload, whose maps are written in the
    store). *)
Definition patched (op op' : GroupSCIMOpEntry.t) : Prop :=
  if decide (GroupSCIMOpEntry.Op op = "remove"
             ∧ extractUsernameFromPath (GroupSCIMOpEntry.Path op) ≠ EmptyString)
  then ∃ t id,
         getUserId t (extractUsernameFromPath (GroupSCIMOpEntry.Path op)) = Ok id
         ∧ op' = GroupSCIMOpEntry.mk "remove" (removePath id)
                   (GroupSCIMOpEntry.Value op)
  else op' = op.

End Outcomes.

(** Modelled from the spec: [module.HandleCommonErrors], of [pkg/module],
    is not under src/.  The shared classifier recognises known error
    responses by their status: an unauthorized one gives [Unauthorized],
    a not-found one [NotFound]; any other response gives no error. *)
Definition HandleCommonErrors_spec (r : Response.t) (defaultError : string)
    : option error :=
  if decide (Response.StatusCode r = 401%Z) then Some "Unauthorized"
  else if decide (Response.StatusCode r = 404%Z) then Some "NotFound"
  else None.

(** ** Test doubles

    Concrete environments on which the statements below are run. *)
Module Double.

Definition quoted (s : string) : string := dquote +:+ s +:+ dquote.

(** A transport that answers its n-th request with the n-th entry of a
    script, whatever the request. *)
Definition scripted (script : list (option Response.t * option error))
    : Clientx.t :=
  let answer (t : list call) :=
    nth (length (filter is_http t)) script (None, Some "no answer scripted") in
  Clientx.mk (fun t _ _ => answer t) (fun t _ _ _ => answer t)
             (fun t _ _ _ => answer t) (fun t _ _ => answer t).

(** A resolver over a fixed user directory. *)
Definition resolver (users : list (string * string))
    : list call -> string -> outcome string :=
  fun _ username =>
    match list_find (fun e => bool_decide (e.1 = username)) users with
    | Some (_, e) => Ok e.2
    | None => Err "user not found"
    end.

(** Bodies, and a decoder that knows them. *)
Definition body_one_group : string :=
  "{" +:+ quoted "Resources" +:+ ":[{" +:+ quoted "id" +:+ ":"
  +:+ quoted "g-1" +:+ "}]}".
Definition body_two_groups : string :=
  "{" +:+ quoted "Resources" +:+ ":[{" +:+ quoted "id" +:+ ":"
  +:+ quoted "g-1" +:+ "},{" +:+ quoted "id" +:+ ":" +:+ quoted "g-2"
  +:+ "}]}".
Definition body_no_group : string :=
  "{" +:+ quoted "Resources" +:+ ":[]}".
Definition body_created : string :=
  "{" +:+ quoted "id" +:+ ":" +:+ quoted "g-9" +:+ "}".
Definition body_empty_object : string := "{}".
Definition body_numeric_id : string := "{" +:+ quoted "id" +:+ ":7}".

Definition decoder (body : string) : outcome (gmap string json) :=
  if decide (body = body_one_group) then
    Ok {[ "Resources" := JArray [JObject {[ "id" := JString "g-1" ]}] ]}
  else if decide (body = body_two_groups) then
    Ok {[ "Resources" := JArray [JObject {[ "id" := JString "g-1" ]};
                                 JObject {[ "id" := JString "g-2" ]}] ]}
  else if decide (body = body_no_group) then
    Ok {[ "Resources" := JArray [] ]}
  else if decide (body = body_created) then
    Ok {[ "id" := JString "g-9" ]}
  else if decide (body = body_empty_object) then Ok ∅
  else if decide (body = body_numeric_id) then
    Ok {[ "id" := JNumber "7" ]}
  else Err "invalid character".

(** Serializers that only tell their inputs apart by the member values
    and the operation paths. *)
Definition marshal_group (g : Group.t) : outcome string :=
  Ok (join "," (Member.Value <$> Group.Members g)).
Definition marshal_patch (h : gmap loc (gmap string value))
    (p : GroupSCIMPatchRequest.t) : outcome string :=
  Ok (join "," (GroupSCIMOpEntry.Path <$> GroupSCIMPatchRequest.Operations p)).

Definition env (script : list (option Response.t * option error))
    (users : list (string * string)) : Env :=
  {| auth := AuthConfig.mk "tenant" "token";
     client := scripted script;
     getUserId := resolver users;
     HandleCommonErrors := HandleCommonErrors_spec;
     json_Unmarshal_map := decoder;
     json_Unmarshal_Group := fun _ => None;
     json_Unmarshal_GroupListResponse := fun _ => None;
     json_Marshal_Group := marshal_group;
     json_Marshal_PatchRequest := marshal_patch;
     url_QueryEscape := fun s => s;
     url_ParseQuery := fun _ => ∅ |}.

Definition w0 : world.t := world.mk [] ∅.

Definition answer (code : Z) (body : string)
    : option Response.t * option error :=
  (Some (Response.mk code body), None).

(** Scenarios. *)
Definition env_unclassified_500 : Env :=
  env [answer 500 body_one_group; answer 500 body_one_group] [].
Definition env_no_group : Env := env [answer 200 body_no_group] [].
Definition env_two_groups : Env := env [answer 200 body_two_groups] [].

(** The transport fails: no response, or a response next to the error. *)
Definition env_timeout : Env := env [(None, Some "dial tcp: i/o timeout")] [].
Definition env_error_with_response : Env :=
  env [(Some (Response.mk 200 body_one_group), Some "unexpected EOF")] [].

Definition users : list (string * string) :=
  [("alice", "u-1"); ("bob", "u-2")].

Definition member (username : string) : Member.t :=
  Member.mk "user" username EmptyString EmptyString.

Definition group (usernames : list string) : Group.t :=
  Group.mk ["urn:ietf:params:scim:schemas:core:2.0:Group"] EmptyString
           EmptyString "Engineers" true (member <$> usernames)
           (IBMGROUPExtension.mk EmptyString [])
           (GroupNotification.mk "EMAIL" false false)
           (GroupMeta.mk EmptyString EmptyString).

(** The POST is answered 201 with and without a string [id]. *)
Definition env_created : Env := env [answer 201 body_created] users.
Definition env_created_no_id : Env := env [answer 201 body_empty_object] users.
Definition env_created_numeric_id : Env :=
  env [answer 201 body_numeric_id] users.

(** The lookup finds the group; the write is answered 404. *)
Definition env_patch_404 : Env :=
  env [answer 200 body_one_group; answer 404 "gone"] users.
Definition env_post_404 : Env := env [answer 404 "gone"] users.

(** The lookup finds the group and the PATCH is answered 204; the
    resolver knows [alice] and [bob] only. *)
Definition env_patch : Env :=
  env [answer 200 body_one_group; answer 204 EmptyString] users.

Definition remove (path : string) : GroupSCIMOpEntry.t :=
  GroupSCIMOpEntry.mk "remove" path VNil.

Definition remove_bob_then_eve : list GroupSCIMOpEntry.t :=
  [remove "value eq bob"; remove "value eq eve"].

(** An add operation on [members], and a store with two member maps. *)
Definition add_members (v : value) : GroupSCIMOpEntry.t :=
  GroupSCIMOpEntry.mk "add" "members" v.

Definition alice_map : gmap string value := {[ "value" := VString "alice" ]}.
Definition display_map : gmap string value := {[ "display" := VString "Bob" ]}.

Definition w_members : world.t :=
  world.mk [] {[ 1%positive := alice_map; 2%positive := display_map ]}.

(** The IDs are usernames of other users here. *)
Definition env_patch_chained : Env :=
  env [answer 200 body_one_group; answer 204 EmptyString]
      [("alice", "u-1"); ("u-1", "x-9")].

End Double.
(** ** Notions for the statements about whole runs *)

(** The text after [value eq ] from which the capture is read: the
    optional opening quote is dropped. *)
Definition after_quote (rest : string) : string :=
  match rest with
  | String c rest' => if is_quote c then rest' else rest
  | EmptyString => EmptyString
  end.

(** [m] takes every state to one that [R] relates to it, however it
    ends: with a value, an error or a panic. *)
Definition keeps {St A} (R : St -> St -> Prop) (m : M St A) : Prop :=
  ∀ s, R s (m s).2.

(** The interactions added from [w] to [w'] all satisfy [P]. *)
Definition emits (P : call -> Prop) (w w' : world.t) : Prop :=
  ∃ t, world.net w' = world.net w ++ t ∧ Forall P t.

(** The same, for a state that holds the world beside a caller's
    object. *)
Definition emits_in {X} (P : call -> Prop) (s s' : X * world.t) : Prop :=
  emits P s.2 s'.2.

(** The headers of a request. *)
Definition call_headers (c : call) : option Header :=
  match c with
  | CallGet _ h | CallDelete _ h => Some h
  | CallPost _ h _ | CallPatch _ h _ => Some h
  | CallGetUserId _ => None
  end.

(** What a run of [CreateGroup] may change in a member: its [Value]. *)
Definition same_member (m m' : Member.t) : Prop :=
  m' = Member.with_Value (Member.Value m') m.

(** What a run of [UpdateGroup] may change in an operation: the path of
    a remove operation from which a username is extracted, to a
    canonical path. *)
Definition same_op (op op' : GroupSCIMOpEntry.t) : Prop :=
  GroupSCIMOpEntry.Op op' = GroupSCIMOpEntry.Op op
  ∧ GroupSCIMOpEntry.Value op' = GroupSCIMOpEntry.Value op
  ∧ (GroupSCIMOpEntry.Path op' = GroupSCIMOpEntry.Path op
     ∨ (GroupSCIMOpEntry.Op op = "remove"
        ∧ extractUsernameFromPath (GroupSCIMOpEntry.Path op) ≠ EmptyString
        ∧ ∃ id, GroupSCIMOpEntry.Path op' = removePath id)).

(** What a run of [UpdateGroup] may change in the map objects: the entry
    [value] of a map that holds a string there, to another string. *)
Definition same_maps (w w' : world.t) : Prop :=
  (∀ a k, k ≠ "value" -> world.load a w' !! k = world.load a w !! k)
  ∧ (∀ a, (∀ u, world.load a w !! "value" ≠ Some (VString u)) ->
          world.load a w' = world.load a w)
  ∧ (∀ a u, world.load a w !! "value" = Some (VString u) ->
            ∃ u', world.load a w' !! "value" = Some (VString u')).

(** The caller's object and the world before and after a run. *)
Definition CreateGroup_frame (s s' : Group.t * world.t) : Prop :=
  s'.1 = Group.with_Members (Group.Members s'.1) s.1
  ∧ Forall2 same_member (Group.Members s.1) (Group.Members s'.1)
  ∧ world.heap s'.2 = world.heap s.2.

Definition UpdateGroup_frame (s s' : list GroupSCIMOpEntry.t * world.t)
    : Prop :=
  Forall2 same_op s.1 s'.1 ∧ same_maps s.2 s'.2.

Section RunNotions.

Context `{Env}.

(** A request carries the bearer token of the caller's configuration;
    a resolver call is no request. *)
Definition authorized (c : call) : Prop :=
  match call_headers c with
  | Some h => h !! "Authorization" = Some ["Bearer " +:+ AuthConfig.Token auth]
  | None => True
  end.

(** An operation in which the loop of [UpdateGroup] finds no username:
    an add on [members] whose payload holds no map with a string
    [value], a remove whose path gives no username, or any other
    operation. *)
Definition names_no_user (w : world.t) (op : GroupSCIMOpEntry.t) : Prop :=
  if decide (GroupSCIMOpEntry.Op op = "add"
             ∧ GroupSCIMOpEntry.Path op = "members") then
    match GroupSCIMOpEntry.Value op with
    | VSlice values => member_usernames w values = []
    | _ => True
    end
  else if decide (GroupSCIMOpEntry.Op op = "remove") then
    extractUsernameFromPath (GroupSCIMOpEntry.Path op) = EmptyString
  else True.

(** The username that the loop reads from a remove operation, and the
    operation as rewritten for an ID. *)
Definition removal_username (op : GroupSCIMOpEntry.t) : string :=
  extractUsernameFromPath (GroupSCIMOpEntry.Path op).

Definition removal_for (id : string) (op : GroupSCIMOpEntry.t)
    : GroupSCIMOpEntry.t :=
  GroupSCIMOpEntry.mk "remove" (removePath id) (GroupSCIMOpEntry.Value op).

End RunNotions.

(** ** Further test doubles *)
Module Cases.

(** The lookup finds the group; the request after it fails in the
    transport, a response coming with the error. *)
Definition env_reset : Env :=
  Double.env [Double.answer 200 Double.body_one_group;
              (Some (Response.mk 204 EmptyString), Some "connection reset")]
             Double.users.

(** The only request fails in the transport. *)
Definition env_reset_at_once : Env :=
  Double.env [(Some (Response.mk 201 Double.body_created),
               Some "connection reset")] Double.users.

(** The lookup is answered 404, with a body that would decode. *)
Definition env_lookup_404 : Env :=
  Double.env [Double.answer 404 Double.body_one_group;
              Double.answer 204 EmptyString] Double.users.

(** The lookup finds the group and the request after it is answered 204. *)
Definition env_found_204 : Env :=
  Double.env [Double.answer 200 Double.body_one_group;
              Double.answer 204 EmptyString] Double.users.

(** Operations that name no user: a replace, a remove without a
    comparator, and an add whose [op] is not in lower case (its payload
    holds the map of [alice]). *)
Definition ops_no_user : list GroupSCIMOpEntry.t :=
  [GroupSCIMOpEntry.mk "replace" "displayName" (VString "Engineering");
   Double.remove "members";
   GroupSCIMOpEntry.mk "Add" "members" (VSlice [VMap 1%positive])].

(** Two removals of the same user and one of another. *)
Definition ops_removals : list GroupSCIMOpEntry.t :=
  [Double.remove "value eq bob";
   Double.remove ("members[value eq " +:+ dquote +:+ "alice" +:+ dquote +:+ "]");
   Double.remove "value eq bob"].

End Cases.

(** * Properties *)

Ltac run :=
  unfold bind, ret, fail, panic, lift, lib, wrap_err, get, modify, deref,
         client_Get, client_Post, client_Patch, client_Delete, client_getUserId;
  simpl.

Section Lookup.

Context `{Env}.

Lemma getGroupId_decode_world name body w :
  (getGroupId_decode name body w).2 = w.
Proof.
  unfold getGroupId_decode. run.
  destruct (json_Unmarshal_map body) as [data|e|]; simpl; try done.
  destruct (data !! "Resources") as [[| | | |[|first rest]|]|]; simpl; try done.
  destruct first as [| | | | |fields]; simpl; try done.
  destruct (fields !! "id") as [[]|]; done.
Qed.

(** What [getGroupId] does with a response, whatever error came with it. *)
Lemma getGroupId_run name w r e :
  Clientx.Get client (world.net w) (getGroupId_URL name) getGroupId_headers
    = (Some r, e) ->
  getGroupId name w =
    if decide (Response.StatusCode r ≠ 200%Z) then
      match HandleCommonErrors r "unable to get Group" with
      | Some err =>
          (Err ("unable to get the Group with groupName " +:+ name
                +:+ "; err=" +:+ err),
           world.log (lookupCall name) w)
      | None =>
          getGroupId_decode name (Response.Body r) (world.log (lookupCall name) w)
      end
    else getGroupId_decode name (Response.Body r) (world.log (lookupCall name) w).
Proof.
  intros Hget. unfold getGroupId. run. rewrite Hget. simpl.
  destruct (decide _); [|done].
  destruct (HandleCommonErrors r _); done.
Qed.

Lemma getGroupId_nil name w e :
  Clientx.Get client (world.net w) (getGroupId_URL name) getGroupId_headers
    = (None, e) ->
  getGroupId name w = (Panic, world.log (lookupCall name) w).
Proof. intros Hget. unfold getGroupId. run. by rewrite Hget. Qed.

Lemma getGroupId_world name w :
  (getGroupId name w).2 = world.log (lookupCall name) w.
Proof.
  destruct (Clientx.Get client (world.net w) (getGroupId_URL name)
              getGroupId_headers) as [[r|] e] eqn:Hget.
  - rewrite (getGroupId_run _ _ _ _ Hget).
    destruct (decide _); [destruct (HandleCommonErrors r _)|]; simpl;
      try done; apply getGroupId_decode_world.
  - by rewrite (getGroupId_nil _ _ _ Hget).
Qed.

(** A failing lookup ends each of its callers, with nothing further
    sent. *)
Lemma GetGroup_lookup_fails name w e w1 :
  getGroupId name w = (Err e, w1) -> GetGroup name w = (Err e, w1).
Proof. intros Hl. unfold GetGroup. run. by rewrite Hl. Qed.

Lemma DeleteGroup_lookup_fails name w e w1 :
  getGroupId name w = (Err e, w1) ->
  DeleteGroup name w = (Err ("unable to get the group ID; err=" +:+ e), w1).
Proof. intros Hl. unfold DeleteGroup. run. by rewrite Hl. Qed.

Lemma UpdateGroup_lookup_fails name ops w e w1 :
  getGroupId name w = (Err e, w1) ->
  UpdateGroup name (ops, w)
  = (Err ("unable to get the group ID; err=" +:+ e), (ops, w1)).
Proof. intros Hl. unfold UpdateGroup. run. by rewrite Hl. Qed.

Lemma GetGroup_run name w id w1 resp err :
  getGroupId name w = (Ok id, w1) ->
  Clientx.Get client (world.net w1) (url_Parse (groupURL id)) GetGroup_headers
    = (resp, err) ->
  GetGroup name w =
    (match err, resp with
     | Some e, _ => Err e
     | None, None => Panic
     | None, Some r =>
         if decide (Response.StatusCode r ≠ 200%Z) then
           Err (default "unable to get the Group"
                        (HandleCommonErrors r "unable to get Group"))
         else match json_Unmarshal_Group (Response.Body r) with
              | None => Err "unable to get the Group"
              | Some g => Ok (g, URL.String_ (url_Parse (groupURL id)))
              end
     end,
     world.log (CallGet (url_Parse (groupURL id)) GetGroup_headers) w1).
Proof.
  intros Hl Hget. unfold GetGroup. run. rewrite Hl. simpl. rewrite Hget. simpl.
  destruct err; [done|]. destruct resp as [r|]; [|done]. simpl.
  destruct (decide _); [destruct (HandleCommonErrors r _); done|].
  destruct (json_Unmarshal_Group _); done.
Qed.

Lemma GetGroups_run sort count w resp err :
  Clientx.Get client (world.net w) (GetGroups_URL sort count) GetGroups_headers
    = (resp, err) ->
  GetGroups sort count w =
    (match err, resp with
     | Some e, _ => Err e
     | None, None => Panic
     | None, Some r =>
         if decide (Response.StatusCode r ≠ 200%Z) then
           Err (default "unable to get the Groups"
                        (HandleCommonErrors r "unable to get Groups"))
         else match json_Unmarshal_GroupListResponse (Response.Body r) with
              | None => Err "unable to get the Groups"
              | Some l => Ok (l, URL.String_ (GetGroups_URL sort count))
              end
     end,
     world.log (CallGet (GetGroups_URL sort count) GetGroups_headers) w).
Proof.
  intros Hget. unfold GetGroups. run. rewrite Hget. simpl.
  destruct err; [done|]. destruct resp as [r|]; [|done]. simpl.
  destruct (decide _); [destruct (HandleCommonErrors r _); done|].
  destruct (json_Unmarshal_GroupListResponse _); done.
Qed.

Lemma DeleteGroup_run name w id w1 resp err :
  getGroupId name w = (Ok id, w1) ->
  Clientx.Delete client (world.net w1) (url_Parse (groupURL id))
    DeleteGroup_headers = (resp, err) ->
  DeleteGroup name w =
    (match err, resp with
     | Some e, _ => Err ("unable to delete the Group; err=" +:+ e)
     | None, None => Panic
     | None, Some r =>
         if decide (Response.StatusCode r ≠ 204%Z) then
           match HandleCommonErrors r "unable to delete Group" with
           | Some e => Err ("unable to delete the Group; err=" +:+ e)
           | None => Err "unable to delete the Group"
           end
         else Ok tt
     end,
     world.log (CallDelete (url_Parse (groupURL id)) DeleteGroup_headers) w1).
Proof.
  intros Hl Hdel. unfold DeleteGroup. run. rewrite Hl. simpl. rewrite Hdel. simpl.
  destruct err; [done|]. destruct resp as [r|]; [|done]. simpl.
  destruct (decide _); [destruct (HandleCommonErrors r _); done|done].
Qed.

End Lookup.

Section LookupClaims.

Context `{Env}.

(** C10.  In [getGroupId], a status other than 200 that the classifier
    does not recognise is not an error: the body is parsed as the
    [Resources] envelope all the same.  In that situation [GetGroup],
    [GetGroups] and [DeleteGroup] (there with 204 as the success code)
    return their generic error. *)
Theorem C10_lookup_falls_through (r : Response.t) :
  Response.StatusCode r ≠ 200%Z ->
  (∀ defaultError, HandleCommonErrors r defaultError = None) ->
  (∀ name w e,
     Clientx.Get client (world.net w) (getGroupId_URL name) getGroupId_headers
       = (Some r, e) ->
     getGroupId name w
     = getGroupId_decode name (Response.Body r) (world.log (lookupCall name) w))
  ∧ (∀ name w id w1,
       getGroupId name w = (Ok id, w1) ->
       Clientx.Get client (world.net w1) (url_Parse (groupURL id))
         GetGroup_headers = (Some r, None) ->
       (GetGroup name w).1 = Err "unable to get the Group")
  ∧ (∀ sort count w,
       Clientx.Get client (world.net w) (GetGroups_URL sort count)
         GetGroups_headers = (Some r, None) ->
       (GetGroups sort count w).1 = Err "unable to get the Groups")
  ∧ (∀ name w id w1,
       Response.StatusCode r ≠ 204%Z ->
       getGroupId name w = (Ok id, w1) ->
       Clientx.Delete client (world.net w1) (url_Parse (groupURL id))
         DeleteGroup_headers = (Some r, None) ->
       (DeleteGroup name w).1 = Err "unable to delete the Group").
Proof.
  intros Hstatus Hcls. repeat split.
  - intros name w e Hget. rewrite (getGroupId_run _ _ _ _ Hget).
    rewrite decide_True by done. by rewrite Hcls.
  - intros name w id w1 Hl Hget. rewrite (GetGroup_run _ _ _ _ _ _ Hl Hget).
    simpl. rewrite decide_True by done. by rewrite Hcls.
  - intros sort count w Hget. rewrite (GetGroups_run _ _ _ _ _ Hget).
    simpl. rewrite decide_True by done. by rewrite Hcls.
  - intros name w id w1 H204 Hl Hdel.
    rewrite (DeleteGroup_run _ _ _ _ _ _ Hl Hdel).
    simpl. rewrite decide_True by done. by rewrite Hcls.
Qed.

(** C6.  Given the response of the lookup, decoded: when [Resources] is
    absent, not an array or empty, the lookup fails with its not-found
    error, and so do [GetGroup], [DeleteGroup] and [UpdateGroup], the
    lookup request being the only call made; a body that does not
    decode fails likewise with the parse error; when the array has a
    first element, the result is read from that element alone: its
    string [id], or an error when it has none. *)
Theorem C6_lookup_resources (name : string) (w : world.t) (r : Response.t)
    (e : option error) :
  Clientx.Get client (world.net w) (getGroupId_URL name) getGroupId_headers
    = (Some r, e) ->
  Response.StatusCode r = 200%Z
    ∨ HandleCommonErrors r "unable to get Group" = None ->
  let w1 := world.log (lookupCall name) w in
  let wrapped e := "unable to get the group ID; err=" +:+ e in
  (∀ data,
     json_Unmarshal_map (Response.Body r) = Ok data ->
     (∀ first rest, data !! "Resources" ≠ Some (JArray (first :: rest))) ->
     let notFound := "no group found with group name " +:+ name in
     getGroupId name w = (Err notFound, w1)
     ∧ GetGroup name w = (Err notFound, w1)
     ∧ DeleteGroup name w = (Err (wrapped notFound), w1)
     ∧ ∀ ops, UpdateGroup name (ops, w) = (Err (wrapped notFound), (ops, w1)))
  ∧ (∀ x,
       json_Unmarshal_map (Response.Body r) = Err x ->
       let malformed := "failed to parse response: " +:+ x in
       getGroupId name w = (Err malformed, w1)
       ∧ GetGroup name w = (Err malformed, w1)
       ∧ DeleteGroup name w = (Err (wrapped malformed), w1)
       ∧ ∀ ops, UpdateGroup name (ops, w) = (Err (wrapped malformed), (ops, w1)))
  ∧ (∀ data first rest,
       json_Unmarshal_map (Response.Body r) = Ok data ->
       data !! "Resources" = Some (JArray (first :: rest)) ->
       getGroupId name w =
         (match first with
          | JObject fields =>
              match fields !! "id" with
              | Some (JString id) => Ok id
              | _ => Err "ID not found or invalid type"
              end
          | _ => Err "invalid resource format"
          end, w1)).
Proof.
  intros Hget Hstatus w1 wrapped.
  assert (Hrun : getGroupId name w = getGroupId_decode name (Response.Body r) w1).
  { rewrite (getGroupId_run _ _ _ _ Hget).
    destruct (decide _) as [Hne|]; [|done].
    destruct Hstatus as [H200|Hcls]; [done|]. by rewrite Hcls. }
  assert (Hcallers : ∀ msg, getGroupId name w = (Err msg, w1) ->
    getGroupId name w = (Err msg, w1)
    ∧ GetGroup name w = (Err msg, w1)
    ∧ DeleteGroup name w = (Err (wrapped msg), w1)
    ∧ ∀ ops, UpdateGroup name (ops, w) = (Err (wrapped msg), (ops, w1))).
  { intros msg Hl. split; [done|]. split; [by apply GetGroup_lookup_fails|].
    split; [by apply DeleteGroup_lookup_fails|].
    intros ops. by apply UpdateGroup_lookup_fails. }
  split; [|split].
  - intros data Hdata Hnone notFound. apply Hcallers.
    rewrite Hrun. unfold getGroupId_decode. run. rewrite Hdata. simpl.
    destruct (data !! "Resources") as [[| | | |[|first rest]|]|] eqn:Hres;
      try done.
    by destruct (Hnone first rest).
  - intros x Hdata malformed. apply Hcallers.
    rewrite Hrun. unfold getGroupId_decode. run. by rewrite Hdata.
  - intros data first rest Hdata Hres.
    rewrite Hrun. unfold getGroupId_decode. run. rewrite Hdata. simpl.
    rewrite Hres. destruct first as [| | | | |fields]; try done.
    destruct (fields !! "id") as [[]|]; done.
Qed.

End LookupClaims.

Lemma C10_lookup_falls_through_witness :
  (getGroupId (H := Double.env_unclassified_500) "Engineers" Double.w0).1
    = Ok "g-1"
  ∧ (GetGroup (H := Double.env_unclassified_500) "Engineers" Double.w0).1
    = Err "unable to get the Group"
  ∧ (GetGroups (H := Double.env_unclassified_500) "" "" Double.w0).1
    = Err "unable to get the Groups"
  ∧ (DeleteGroup (H := Double.env_unclassified_500) "Engineers" Double.w0).1
    = Err "unable to delete the Group".
Proof.
  set (E := Double.env_unclassified_500).
  destruct (C10_lookup_falls_through (H := E)
              (Response.mk 500 Double.body_one_group))
    as (Hlookup & Hget & Hlist & Hdelete).
  - vm_compute. discriminate.
  - intros defaultError. reflexivity.
  - assert (Hl : getGroupId (H := E) "Engineers" Double.w0
                 = (Ok "g-1", world.log (lookupCall (H := E) "Engineers") Double.w0)).
    { rewrite (Hlookup "Engineers" Double.w0 None eq_refl). vm_compute. reflexivity. }
    split; [by rewrite Hl|].
    split; [apply (Hget _ _ _ _ Hl); reflexivity|].
    split; [apply Hlist; reflexivity|].
    apply (Hdelete _ _ _ _ ltac:(vm_compute; discriminate) Hl). reflexivity.
Defined.

Lemma C6_lookup_resources_witness :
  getGroupId (H := Double.env_no_group) "Engineers" Double.w0
    = (Err "no group found with group name Engineers",
       world.log (lookupCall (H := Double.env_no_group) "Engineers") Double.w0)
  ∧ UpdateGroup (H := Double.env_no_group) "Engineers" ([], Double.w0)
    = (Err ("unable to get the group ID; err="
            +:+ "no group found with group name Engineers"),
       ([], world.log (lookupCall (H := Double.env_no_group) "Engineers")
                      Double.w0))
  ∧ (getGroupId (H := Double.env_two_groups) "Engineers" Double.w0).1
    = Ok "g-1".
Proof.
  set (E0 := Double.env_no_group). set (E2 := Double.env_two_groups).
  destruct (C6_lookup_resources (H := E0) "Engineers" Double.w0
              (Response.mk 200 Double.body_no_group) None eq_refl
              (or_introl eq_refl)) as (Habsent & _ & _).
  destruct (C6_lookup_resources (H := E2) "Engineers" Double.w0
              (Response.mk 200 Double.body_two_groups) None eq_refl
              (or_introl eq_refl)) as (_ & _ & Hfirst).
  destruct (Habsent {[ "Resources" := JArray [] ]}) as (Hl & _ & _ & Hu).
  - vm_compute. reflexivity.
  - intros first rest. vm_compute. discriminate.
  - split; [exact Hl|]. split; [exact (Hu [])|].
    rewrite (Hfirst
      {[ "Resources" := JArray [JObject {[ "id" := JString "g-1" ]};
                                JObject {[ "id" := JString "g-2" ]}] ]}
      (JObject {[ "id" := JString "g-1" ]})
      [JObject {[ "id" := JString "g-2" ]}]).
    + vm_compute. reflexivity.
    + vm_compute. reflexivity.
    + vm_compute. reflexivity.
Defined.

Section ListClaims.

Context `{Env}.

Lemma has_byte_app c s t : has_byte c (s +:+ t) = has_byte c s || has_byte c t.
Proof.
  induction s as [|a s IH]; simpl; [done|].
  fold (has_byte c) in *. rewrite IH. by rewrite orb_assoc.
Qed.

Lemma strings_Cut_none sep s :
  has_byte sep s = false -> strings_Cut sep s = (s, EmptyString, false).
Proof.
  induction s as [|a s IH]; simpl; [done|].
  fold (has_byte sep). intros [Ha Hs]%orb_false_iff.
  rewrite Ha, (IH Hs). done.
Qed.

Lemma url_Parse_groupsURL :
  has_byte "?" (AuthConfig.Tenant auth) = false ->
  has_byte "#" (AuthConfig.Tenant auth) = false ->
  url_Parse groupsURL = URL.mk groupsURL false EmptyString EmptyString.
Proof.
  intros Hq Hf. unfold url_Parse.
  rewrite (strings_Cut_none "#")
    by (unfold groupsURL; rewrite !has_byte_app, Hf; reflexivity).
  simpl.
  rewrite (strings_Cut_none "?")
    by (unfold groupsURL; rewrite !has_byte_app, Hq; reflexivity).
  done.
Qed.

(** C9.  For a tenant host name (no ['?'] and no ['#'] in it), the URL
    that [GetGroups] requests is the collection URL followed by exactly
    the parameters whose argument is not empty, [count] before [sortBy]
    as [Encode] orders them; with both arguments empty it is the
    collection URL with no query at all.  This URL is the one handed to
    the transport. *)
Theorem C9_GetGroups_query (sort count : string) (w : world.t) :
  has_byte "?" (AuthConfig.Tenant auth) = false ->
  has_byte "#" (AuthConfig.Tenant auth) = false ->
  let params :=
    ((if decide (count = EmptyString) then []
      else [url_QueryEscape "count" +:+ "=" +:+ url_QueryEscape count])
     ++ (if decide (sort = EmptyString) then []
         else [url_QueryEscape "sortBy" +:+ "=" +:+ url_QueryEscape sort]))%list in
  GetGroups_URL sort count
    = URL.mk groupsURL false (join "&" params) EmptyString
  ∧ URL.String_ (GetGroups_URL sort count)
    = (if decide (sort = EmptyString ∧ count = EmptyString) then groupsURL
       else groupsURL +:+ "?" +:+ join "&" params)
  ∧ world.net (GetGroups sort count w).2
    = (world.net w ++ [CallGet (GetGroups_URL sort count) GetGroups_headers])%list.
Proof.
  intros Hq Hf params.
  assert (Hu : GetGroups_URL sort count
               = URL.mk groupsURL false (join "&" params) EmptyString).
  { unfold GetGroups_URL. rewrite (url_Parse_groupsURL Hq Hf).
    unfold URL_Query, params. simpl.
    destruct sort as [|a s], count as [|b c]; vm_compute; reflexivity. }
  split; [exact Hu|]. split.
  - rewrite Hu. unfold URL.String_, params. simpl.
    assert (Hend : ∀ x : string, x +:+ EmptyString = x).
    { intros x. induction x as [|c x IH]; [done|].
      change (String c x +:+ EmptyString) with (String c (x +:+ EmptyString)).
      by rewrite IH. }
    assert (Hne : ∀ k v rest : string,
              (k +:+ "=" +:+ v) +:+ rest ≠ EmptyString).
    { intros k v rest. destruct k; discriminate. }
    destruct sort as [|a s], count as [|b c]; simpl.
    + by rewrite !Hend.
    + rewrite bool_decide_eq_false_2
        by (rewrite <- (Hend (_ +:+ _)); apply Hne).
      simpl. by rewrite Hend.
    + rewrite bool_decide_eq_false_2
        by (rewrite <- (Hend (_ +:+ _)); apply Hne).
      simpl. by rewrite Hend.
    + rewrite bool_decide_eq_false_2 by apply Hne.
      simpl. by rewrite Hend.
  - destruct (Clientx.Get client (world.net w) (GetGroups_URL sort count)
                GetGroups_headers) as [resp err] eqn:Hget.
    by rewrite (GetGroups_run _ _ _ _ _ Hget).
Qed.

End ListClaims.

Lemma C9_GetGroups_query_witness :
  URL.String_ (GetGroups_URL (H := Double.env_no_group) "displayName" "10")
    = "https://tenant/v2.0/Groups?count=10&sortBy=displayName"
  ∧ URL.String_ (GetGroups_URL (H := Double.env_no_group) "displayName" "")
    = "https://tenant/v2.0/Groups?sortBy=displayName"
  ∧ URL.String_ (GetGroups_URL (H := Double.env_no_group) "" "10")
    = "https://tenant/v2.0/Groups?count=10"
  ∧ URL.String_ (GetGroups_URL (H := Double.env_no_group) "" "")
    = "https://tenant/v2.0/Groups".
Proof.
  pose proof (C9_GetGroups_query (H := Double.env_no_group)) as Hq.
  split; [|split; [|split]].
  - destruct (Hq "displayName" "10" Double.w0 eq_refl eq_refl) as (_ & -> & _).
    vm_compute. reflexivity.
  - destruct (Hq "displayName" "" Double.w0 eq_refl eq_refl) as (_ & -> & _).
    vm_compute. reflexivity.
  - destruct (Hq "" "10" Double.w0 eq_refl eq_refl) as (_ & -> & _).
    vm_compute. reflexivity.
  - destruct (Hq "" "" Double.w0 eq_refl eq_refl) as (_ & -> & _).
    vm_compute. reflexivity.
Defined.

Section WriteRuns.

Context `{Env}.

(** [CreateGroup] once its loop over the members has ended. *)
Lemma CreateGroup_loop_fails g w r s1 :
  range_loop (length (Group.Members g)) 0 CreateGroup_member (g, w) = (r, s1) ->
  (∀ x, r ≠ Ok x) ->
  CreateGroup (g, w)
  = (match r with Ok _ => Panic | Err e => Err e | Panic => Panic end, s1).
Proof.
  intros Hloop Hr. unfold CreateGroup. run. rewrite Hloop.
  destruct r as [[]|e|]; try done. by destruct (Hr tt).
Qed.

Lemma CreateGroup_run g w g1 w1 b resp err :
  range_loop (length (Group.Members g)) 0 CreateGroup_member (g, w)
    = (Ok tt, (g1, w1)) ->
  json_Marshal_Group g1 = Ok b ->
  Clientx.Post client (world.net w1) (url_Parse groupsURL) CreateGroup_headers b
    = (resp, err) ->
  CreateGroup (g, w) =
    (match err, resp with
     | Some e, _ => Err e
     | None, None => Panic
     | None, Some r => CreateGroup_decode r
     end,
     (g1, world.log (CallPost (url_Parse groupsURL) CreateGroup_headers b) w1)).
Proof.
  intros Hloop Hb Hpost. unfold CreateGroup. run. rewrite Hloop. simpl.
  rewrite Hb. simpl. rewrite Hpost. simpl.
  destruct err; [done|]. destruct resp as [r|]; [|done]. simpl.
  unfold CreateGroup_decode. destruct (decide _); [done|].
  destruct (json_Unmarshal_map _) as [m|e|]; try done.
  destruct (m !! "id") as [[]|]; done.
Qed.

Lemma CreateGroup_marshal_fails g w g1 w1 r :
  range_loop (length (Group.Members g)) 0 CreateGroup_member (g, w)
    = (Ok tt, (g1, w1)) ->
  json_Marshal_Group g1 = r ->
  (∀ b, r ≠ Ok b) ->
  CreateGroup (g, w)
  = (match r with Ok _ => Panic | Err e => Err e | Panic => Panic end, (g1, w1)).
Proof.
  intros Hloop Hb Hr. unfold CreateGroup. run. rewrite Hloop. simpl.
  rewrite Hb. destruct r as [b|e|]; try done. by destruct (Hr b).
Qed.

(** [UpdateGroup] once the lookup has answered and the loop has ended. *)
Lemma UpdateGroup_loop_fails name ops w id w1 r s2 :
  getGroupId name w = (Ok id, w1) ->
  range_loop (length ops) 0 UpdateGroup_op (ops, w1) = (r, s2) ->
  (∀ x, r ≠ Ok x) ->
  UpdateGroup name (ops, w)
  = (match r with Ok _ => Panic | Err e => Err e | Panic => Panic end, s2).
Proof.
  intros Hl Hloop Hr. unfold UpdateGroup. run. rewrite Hl. simpl.
  rewrite Hloop. destruct r as [[]|e|]; try done. by destruct (Hr tt).
Qed.

Lemma UpdateGroup_run name ops w id w1 ops2 w2 b resp err :
  getGroupId name w = (Ok id, w1) ->
  range_loop (length ops) 0 UpdateGroup_op (ops, w1) = (Ok tt, (ops2, w2)) ->
  json_Marshal_PatchRequest (world.heap w2)
    (GroupSCIMPatchRequest.mk patchSchemas ops2) = Ok b ->
  Clientx.Patch client (world.net w2) (url_Parse (groupURL id))
    UpdateGroup_headers b = (resp, err) ->
  UpdateGroup name (ops, w) =
    (match err, resp with
     | Some e, _ => Err ("unable to update group; err=" +:+ e)
     | None, None => Panic
     | None, Some r => UpdateGroup_decode r
     end,
     (ops2, world.log (CallPatch (url_Parse (groupURL id)) UpdateGroup_headers b) w2)).
Proof.
  intros Hl Hloop Hb Hpatch. unfold UpdateGroup. run. rewrite Hl. simpl.
  rewrite Hloop. simpl. rewrite Hb. simpl. rewrite Hpatch. simpl.
  destruct err; [done|]. destruct resp as [r|]; [|done]. simpl.
  unfold UpdateGroup_decode. destruct (decide _); done.
Qed.

Lemma UpdateGroup_marshal_fails name ops w id w1 ops2 w2 r :
  getGroupId name w = (Ok id, w1) ->
  range_loop (length ops) 0 UpdateGroup_op (ops, w1) = (Ok tt, (ops2, w2)) ->
  json_Marshal_PatchRequest (world.heap w2)
    (GroupSCIMPatchRequest.mk patchSchemas ops2) = r ->
  (∀ b, r ≠ Ok b) ->
  UpdateGroup name (ops, w)
  = (match r with
     | Ok _ => Panic
     | Err e => Err ("unable to marshal the patch request; err=" +:+ e)
     | Panic => Panic
     end, (ops2, w2)).
Proof.
  intros Hl Hloop Hb Hr. unfold UpdateGroup. run. rewrite Hl. simpl.
  rewrite Hloop. simpl. rewrite Hb.
  destruct r as [b|e|]; try done. by destruct (Hr b).
Qed.

End WriteRuns.

Section StatusClaims.

Context `{Env}.

(** C8, as the code has it.  The success statuses are 200 for the two
    reads, 201 for create and 204 for delete and patch.  On any other
    status the reads and the delete consult the classifier and return its
    error (the delete behind its own prefix), or their generic error when
    the classifier has none; create and patch return at once an error
    that carries the status code and the body, and the classifier is not
    consulted. *)
Theorem C8_status_handling (r : Response.t) :
  (∀ name w id w1,
     getGroupId name w = (Ok id, w1) ->
     Clientx.Get client (world.net w1) (url_Parse (groupURL id))
       GetGroup_headers = (Some r, None) ->
     (GetGroup name w).1 =
       if decide (Response.StatusCode r = 200%Z) then
         match json_Unmarshal_Group (Response.Body r) with
         | Some g => Ok (g, URL.String_ (url_Parse (groupURL id)))
         | None => Err "unable to get the Group"
         end
       else
         match HandleCommonErrors r "unable to get Group" with
         | Some e => Err e
         | None => Err "unable to get the Group"
         end)
  ∧ (∀ sort count w,
       Clientx.Get client (world.net w) (GetGroups_URL sort count)
         GetGroups_headers = (Some r, None) ->
       (GetGroups sort count w).1 =
         if decide (Response.StatusCode r = 200%Z) then
           match json_Unmarshal_GroupListResponse (Response.Body r) with
           | Some l => Ok (l, URL.String_ (GetGroups_URL sort count))
           | None => Err "unable to get the Groups"
           end
         else
           match HandleCommonErrors r "unable to get Groups" with
           | Some e => Err e
           | None => Err "unable to get the Groups"
           end)
  ∧ (∀ name w id w1,
       getGroupId name w = (Ok id, w1) ->
       Clientx.Delete client (world.net w1) (url_Parse (groupURL id))
         DeleteGroup_headers = (Some r, None) ->
       (DeleteGroup name w).1 =
         if decide (Response.StatusCode r = 204%Z) then Ok tt
         else
           match HandleCommonErrors r "unable to delete Group" with
           | Some e => Err ("unable to delete the Group; err=" +:+ e)
           | None => Err "unable to delete the Group"
           end)
  ∧ (∀ g w g1 w1 b,
       range_loop (length (Group.Members g)) 0 CreateGroup_member (g, w)
         = (Ok tt, (g1, w1)) ->
       json_Marshal_Group g1 = Ok b ->
       Clientx.Post client (world.net w1) (url_Parse groupsURL)
         CreateGroup_headers b = (Some r, None) ->
       (CreateGroup (g, w)).1 =
         if decide (Response.StatusCode r = 201%Z) then CreateGroup_decode r
         else Err ("Failed to create group; code="
                   +:+ itoa (Response.StatusCode r)
                   +:+ ", body=" +:+ Response.Body r))
  ∧ (∀ name ops w id w1 ops2 w2 b,
       getGroupId name w = (Ok id, w1) ->
       range_loop (length ops) 0 UpdateGroup_op (ops, w1)
         = (Ok tt, (ops2, w2)) ->
       json_Marshal_PatchRequest (world.heap w2)
         (GroupSCIMPatchRequest.mk patchSchemas ops2) = Ok b ->
       Clientx.Patch client (world.net w2) (url_Parse (groupURL id))
         UpdateGroup_headers b = (Some r, None) ->
       (UpdateGroup name (ops, w)).1 =
         if decide (Response.StatusCode r = 204%Z) then Ok tt
         else Err ("failed to update group ; code="
                   +:+ itoa (Response.StatusCode r)
                   +:+ ", body=" +:+ Response.Body r)).
Proof.
  repeat split.
  - intros name w id w1 Hl Hget. rewrite (GetGroup_run _ _ _ _ _ _ Hl Hget).
    simpl. destruct (decide (Response.StatusCode r = 200%Z)) as [Heq|Hne].
    + rewrite decide_False by (by intros ?).
      by destruct (json_Unmarshal_Group _).
    + rewrite decide_True by done.
      by destruct (HandleCommonErrors r "unable to get Group").
  - intros sort count w Hget. rewrite (GetGroups_run _ _ _ _ _ Hget).
    simpl. destruct (decide (Response.StatusCode r = 200%Z)) as [Heq|Hne].
    + rewrite decide_False by (by intros ?).
      by destruct (json_Unmarshal_GroupListResponse _).
    + rewrite decide_True by done.
      by destruct (HandleCommonErrors r "unable to get Groups").
  - intros name w id w1 Hl Hdel. rewrite (DeleteGroup_run _ _ _ _ _ _ Hl Hdel).
    simpl. repeat case_decide; done.
  - intros g w g1 w1 b Hloop Hb Hpost.
    rewrite (CreateGroup_run _ _ _ _ _ _ _ Hloop Hb Hpost). simpl.
    unfold CreateGroup_decode. repeat case_decide; done.
  - intros name ops w id w1 ops2 w2 b Hl Hloop Hb Hpatch.
    rewrite (UpdateGroup_run _ _ _ _ _ _ _ _ _ _ Hl Hloop Hb Hpatch). simpl.
    unfold UpdateGroup_decode. repeat case_decide; done.
Qed.

End StatusClaims.

Lemma last_byte_app (pre e : string) :
  e ≠ EmptyString -> last_byte (pre +:+ e) = last_byte e.
Proof.
  intros He. induction pre as [|c pre IH]; [done|].
  simpl. fold last_byte. rewrite IH.
  destruct (pre +:+ e) eqn:Happ; [|done].
  destruct pre; [by destruct e|done].
Qed.

Lemma C8_status_handling_witness :
  (DeleteGroup (H := Double.env_patch_404) "Engineers" Double.w0).1
    = Err "unable to delete the Group; err=NotFound"
  ∧ (UpdateGroup (H := Double.env_patch_404) "Engineers" ([], Double.w0)).1
    = Err "failed to update group ; code=404, body=gone"
  ∧ (CreateGroup (H := Double.env_post_404) (Double.group [], Double.w0)).1
    = Err "Failed to create group; code=404, body=gone".
Proof.
  destruct (C8_status_handling (H := Double.env_patch_404)
              (Response.mk 404 "gone")) as (_ & _ & Hdelete & _ & Hpatch).
  destruct (C8_status_handling (H := Double.env_post_404)
              (Response.mk 404 "gone")) as (_ & _ & _ & Hcreate & _).
  split; [|split].
  - erewrite Hdelete; [reflexivity| |].
    + vm_compute. reflexivity.
    + vm_compute. reflexivity.
  - erewrite Hpatch; [reflexivity| | | |].
    + vm_compute. reflexivity.
    + vm_compute. reflexivity.
    + vm_compute. reflexivity.
    + vm_compute. reflexivity.
  - erewrite Hcreate; [reflexivity| | |].
    + vm_compute. reflexivity.
    + vm_compute. reflexivity.
    + vm_compute. reflexivity.
Defined.

(** C8 as stated fails for the patch: the classifier recognises the 404
    answered to the PATCH, and [UpdateGroup] does not surface its error. *)
Lemma C8_patch_not_classified :
  ¬ (∀ defaultError e,
       @HandleCommonErrors Double.env_patch_404
         (Response.mk 404 "gone") defaultError = Some e ->
       surfaces e
         (UpdateGroup (H := Double.env_patch_404) "Engineers" ([], Double.w0)).1).
Proof.
  intros Hclaim.
  destruct (Hclaim "unable to update Group" "NotFound" eq_refl)
    as [pre Hpre].
  assert (Hrun :
    (UpdateGroup (H := Double.env_patch_404) "Engineers" ([], Double.w0)).1
    = Err "failed to update group ; code=404, body=gone")
    by (vm_compute; reflexivity).
  rewrite Hrun in Hpre. injection Hpre as Hpre.
  apply (f_equal last_byte) in Hpre. rewrite last_byte_app in Hpre by done.
  discriminate.
Qed.

(** C5 on the code: the lookup drops the transport error.  With no
    response the status read panics, and so does each caller; with a
    response the lookup goes on and answers from it.  [GetGroups], which
    checks the error, returns it. *)
Theorem C5_lookup_drops_transport_error :
  getGroupId (H := Double.env_timeout) "Engineers" Double.w0
    = (Panic, world.log (lookupCall (H := Double.env_timeout) "Engineers")
                        Double.w0)
  ∧ (GetGroup (H := Double.env_timeout) "Engineers" Double.w0).1 = Panic
  ∧ (DeleteGroup (H := Double.env_timeout) "Engineers" Double.w0).1 = Panic
  ∧ (UpdateGroup (H := Double.env_timeout) "Engineers" ([], Double.w0)).1
    = Panic
  ∧ (getGroupId (H := Double.env_error_with_response) "Engineers" Double.w0).1
    = Ok "g-1"
  ∧ (GetGroups (H := Double.env_timeout) "" "" Double.w0).1
    = Err "dial tcp: i/o timeout".
Proof. repeat split; vm_compute; reflexivity. Qed.

(** C4 on the code: a 201 whose body has no string [id] makes
    [CreateGroup] panic at the unchecked type assertion; no error is
    returned.  With a string [id] the URL of the new group is returned. *)
Theorem C4_CreateGroup_id_unchecked :
  (CreateGroup (H := Double.env_created_no_id)
     (Double.group ["alice"], Double.w0)).1 = Panic
  ∧ (CreateGroup (H := Double.env_created_numeric_id)
       (Double.group ["alice"], Double.w0)).1 = Panic
  ∧ (CreateGroup (H := Double.env_created)
       (Double.group ["alice"], Double.w0)).1
    = Ok "https://tenant/v2.0/Groups/g-9".
Proof. repeat split; vm_compute; reflexivity. Qed.

Section Discipline.

Context `{Env}.

Lemma calls_app us vs : calls (us ++ vs) = calls us ++ calls vs.
Proof. unfold calls. apply fmap_app. Qed.

Lemma answers_ok_nil t0 : answers_ok t0 [].
Proof. intros j u Hj. by rewrite lookup_nil in Hj. Qed.

Lemma answers_ok_app t0 us vs :
  answers_ok t0 us -> answers_ok (t0 ++ calls us) vs ->
  answers_ok t0 (us ++ vs).
Proof.
  intros Hus Hvs j u Hj.
  destruct (decide (j < length us)) as [Hlt|Hge].
  - rewrite lookup_app_l in Hj by done.
    rewrite take_app_le by lia. by apply Hus.
  - rewrite lookup_app_r in Hj by lia.
    destruct (Hvs _ _ Hj) as [id Hid]. exists id.
    rewrite take_app_ge by lia. by rewrite calls_app, (assoc_L (++)).
Qed.

Lemma answers_ok_one t0 u id :
  getUserId t0 u = Ok id -> answers_ok t0 [u].
Proof.
  intros Hid [|j] u' Hj; simpl in Hj; [|by rewrite lookup_nil in Hj].
  injection Hj as <-. exists id. simpl. by rewrite (right_id_L [] (++)).
Qed.

Lemma disciplined_ret {X A} (a : A) : disciplined (X := X) (ret a).
Proof.
  intros s. exists []. simpl. split; [by rewrite (right_id_L [] (++))|].
  apply answers_ok_nil.
Qed.

Lemma disciplined_panic {X A} : disciplined (X := X) (A := A) panic.
Proof.
  intros s. exists []. simpl. split; [by rewrite (right_id_L [] (++))|].
  left. apply answers_ok_nil.
Qed.

Lemma disciplined_get {X} : disciplined (X := X) get.
Proof.
  intros s. exists []. simpl. split; [by rewrite (right_id_L [] (++))|].
  apply answers_ok_nil.
Qed.

Lemma disciplined_modify {X} (f : X * world.t -> X * world.t) :
  (∀ s, world.net (f s).2 = world.net s.2) -> disciplined (modify f).
Proof.
  intros Hf s. exists []. simpl. rewrite Hf.
  split; [by rewrite (right_id_L [] (++))|]. apply answers_ok_nil.
Qed.

Lemma disciplined_deref {X A} (p : option A) : disciplined (X := X) (deref p).
Proof. destruct p; [apply disciplined_ret|apply disciplined_panic]. Qed.

Lemma disciplined_bind {X A B} (m : M (X * world.t) A)
    (k : A -> M (X * world.t) B) :
  disciplined m -> (∀ a, disciplined (k a)) -> disciplined (bind m k).
Proof.
  intros Hm Hk s. unfold bind.
  destruct (Hm s) as (us & Hnet & Hshape).
  destruct (m s) as [[a|e|] s1] eqn:Hms; simpl in *.
  - destruct (Hk a s1) as (vs & Hnet' & Hshape').
    exists (us ++ vs). rewrite Hnet', Hnet, calls_app, (assoc_L (++)).
    split; [done|]. rewrite Hnet in Hshape'.
    destruct (k a s1) as [[b|e|] s2]; simpl in *.
    + by apply answers_ok_app.
    + destruct Hshape' as (us0 & u & x & -> & Hok & Hx & ->).
      exists (us ++ us0), u, x. rewrite (assoc_L (++)).
      split; [done|]. split; [by apply answers_ok_app|].
      by rewrite calls_app, (assoc_L (++)).
    + destruct Hshape' as [Hok|(us0 & u & -> & Hok & Hx)].
      * left. by apply answers_ok_app.
      * right. exists (us ++ us0), u. rewrite (assoc_L (++)).
        split; [done|]. split; [by apply answers_ok_app|].
        by rewrite calls_app, (assoc_L (++)).
  - by exists us.
  - by exists us.
Qed.

(** One resolution, as both loops make it. *)
Lemma disciplined_resolve {X} (username : string) :
  disciplined (X := X)
    (wrap_err (resolveError username) (lift (client_getUserId username))).
Proof.
  intros s. exists [username]. run.
  destruct (getUserId (world.net s.2) username) as [id|x|] eqn:Hid; simpl;
    (split; [done|]).
  - by apply (answers_ok_one _ _ id).
  - exists [], username, x. simpl. rewrite (right_id_L [] (++)).
    split; [done|]. split; [apply answers_ok_nil|done].
  - right. exists [], username. simpl. rewrite (right_id_L [] (++)).
    split; [done|]. split; [apply answers_ok_nil|done].
Qed.

Lemma disciplined_range_loop {X} (body : nat -> M (X * world.t) unit) n i :
  (∀ i, disciplined (body i)) -> disciplined (range_loop n i body).
Proof.
  intros Hbody. revert i. induction n as [|n IH]; intros i; simpl.
  - apply disciplined_ret.
  - apply disciplined_bind; [apply Hbody|]. intros _. apply IH.
Qed.

Lemma disciplined_range_values {X A} (body : nat -> A -> M (X * world.t) unit)
    values j :
  (∀ j v, disciplined (body j v)) -> disciplined (range_values values j body).
Proof.
  intros Hbody. revert j. induction values as [|v values IH]; intros j; simpl.
  - apply disciplined_ret.
  - apply disciplined_bind; [apply Hbody|]. intros _. apply IH.
Qed.

Lemma disciplined_CreateGroup_member i : disciplined (CreateGroup_member i).
Proof.
  unfold CreateGroup_member.
  apply disciplined_bind; [apply disciplined_get|]. intros s.
  apply disciplined_bind; [apply disciplined_deref|]. intros m.
  apply disciplined_bind; [apply disciplined_resolve|]. intros userID.
  by apply disciplined_modify.
Qed.

Lemma disciplined_UpdateGroup_member j v : disciplined (UpdateGroup_member j v).
Proof.
  unfold UpdateGroup_member.
  destruct v; try apply disciplined_ret.
  apply disciplined_bind; [apply disciplined_get|]. intros s.
  destruct (world.load m s.2 !! "value") as [[]|]; try apply disciplined_ret.
  apply disciplined_bind; [apply disciplined_resolve|]. intros userID.
  by apply disciplined_modify.
Qed.

Lemma disciplined_UpdateGroup_op i : disciplined (UpdateGroup_op i).
Proof.
  unfold UpdateGroup_op.
  apply disciplined_bind; [apply disciplined_get|]. intros s.
  apply disciplined_bind; [apply disciplined_deref|]. intros op.
  destruct (decide _).
  - destruct (GroupSCIMOpEntry.Value op); try apply disciplined_ret.
    apply disciplined_range_values. apply disciplined_UpdateGroup_member.
  - destruct (decide _); [|apply disciplined_ret].
    destruct (decide _); [|apply disciplined_ret].
    apply disciplined_bind; [apply disciplined_resolve|]. intros userID.
    by apply disciplined_modify.
Qed.

(** A resolver call answered with an error is the last thing a
    disciplined run does, and its error is the result. *)
Lemma run_shape_failure {A} t0 us (r : outcome A) t1 u rest x :
  run_shape t0 us r ->
  calls us = t1 ++ CallGetUserId u :: rest ->
  getUserId (t0 ++ t1) u = Err x ->
  r = Err (resolveError u x) ∧ rest = [].
Proof.
  intros Hshape Hsplit Hx.
  assert (Hj : us !! length t1 = Some u ∧ calls (take (length t1) us) = t1).
  { split.
    - assert (Hl : calls us !! length t1 = Some (CallGetUserId u)).
      { rewrite Hsplit. by rewrite list_lookup_middle. }
      unfold calls in Hl. rewrite list_lookup_fmap in Hl.
      destruct (us !! length t1) as [u'|]; simpl in Hl; [|done].
      by injection Hl as ->.
    - unfold calls. rewrite fmap_take. fold (calls us). rewrite Hsplit.
      by rewrite take_app_length. }
  destruct Hj as [Hu Ht1].
  assert (Hbad : ∀ vs, answers_ok t0 vs -> vs !! length t1 = Some u ->
                       take (length t1) vs = take (length t1) us -> False).
  { intros vs Hok Hvs Htake. destruct (Hok _ _ Hvs) as [id Hid].
    rewrite Htake, Ht1 in Hid. congruence. }
  destruct r as [a|e|]; simpl in Hshape.
  - destruct (Hbad us Hshape Hu eq_refl).
  - destruct Hshape as (us0 & u' & x' & -> & Hok & Hx' & ->).
    destruct (decide (length t1 < length us0)) as [Hlt|Hge].
    { destruct (Hbad us0 Hok).
      - by rewrite lookup_app_l in Hu.
      - by rewrite take_app_le by lia. }
    assert (Hlen : length t1 = length us0).
    { apply lookup_lt_Some in Hu. rewrite length_app in Hu. simpl in Hu. lia. }
    rewrite Hlen, list_lookup_middle in Hu by done. injection Hu as ->.
    rewrite <- Ht1, Hlen, take_app_length in Hx.
    rewrite Hx' in Hx. injection Hx as ->. split; [done|].
    apply (f_equal length) in Hsplit. unfold calls in Hsplit.
    rewrite length_fmap, !length_app in Hsplit. simpl in Hsplit.
    destruct rest; [done|simpl in Hsplit; lia].
  - destruct Hshape as [Hok|(us0 & u' & -> & Hok & Hx')].
    { destruct (Hbad us Hok Hu eq_refl). }
    destruct (decide (length t1 < length us0)) as [Hlt|Hge].
    { destruct (Hbad us0 Hok).
      - by rewrite lookup_app_l in Hu.
      - by rewrite take_app_le by lia. }
    assert (Hlen : length t1 = length us0).
    { apply lookup_lt_Some in Hu. rewrite length_app in Hu. simpl in Hu. lia. }
    rewrite Hlen, list_lookup_middle in Hu by done. injection Hu as ->.
    rewrite <- Ht1, Hlen, take_app_length in Hx. congruence.
Qed.

End Discipline.

Section Abort.

Context `{Env}.

Lemma split_middle {A} (pre mid post t1 rest : list A) (c : A) :
  pre ++ mid ++ post = t1 ++ c :: rest ->
  c ∉ pre -> c ∉ post ->
  ∃ t1' rest', t1 = pre ++ t1' ∧ mid = t1' ++ c :: rest' ∧ rest = rest' ++ post.
Proof.
  intros Heq Hpre Hpost. revert t1 Heq.
  induction pre as [|a pre IH]; intros t1 Heq; simpl in *.
  - clear Hpre. revert t1 Heq.
    induction mid as [|a mid IH]; intros t1 Heq; simpl in *.
    + destruct Hpost. rewrite Heq. apply elem_of_app. right. by left.
    + destruct t1 as [|b t1]; simpl in *.
      * injection Heq as -> <-. by exists [], mid.
      * injection Heq as -> Heq. destruct (IH _ Heq) as (t1' & rest' & -> & -> & ->).
        by exists (b :: t1'), rest'.
  - destruct t1 as [|b t1]; simpl in *.
    + injection Heq as -> _. destruct Hpre. by left.
    + injection Heq as -> Heq.
      assert (Hpre' : c ∉ pre) by (intros Hc; apply Hpre; by right).
      destruct (IH Hpre' _ Heq) as (t1' & rest' & -> & -> & ->).
      by exists t1', rest'.
Qed.

Lemma calls_no_write us t1 c rest :
  calls us = t1 ++ c :: rest -> Forall (λ c, is_write c = false) t1.
Proof.
  intros Heq. apply Forall_forall. intros d Hd.
  assert (Hin : d ∈ calls us)
    by (rewrite Heq; apply elem_of_app; by left).
  unfold calls in Hin. apply list_elem_of_fmap in Hin as (v & -> & _). done.
Qed.

(** The interactions of a whole [UpdateGroup]: the lookup, the resolver
    calls of the loop, and the PATCH when the loop and the serialization
    succeed. *)
Lemma UpdateGroup_trace name ops w :
  ∃ us post (r1 : outcome unit),
    world.net (UpdateGroup name (ops, w)).2.2
      = world.net w ++ [lookupCall name] ++ calls us ++ post
    ∧ run_shape (world.net w ++ [lookupCall name]) us r1
    ∧ (∀ e, r1 = Err e -> (UpdateGroup name (ops, w)).1 = Err e ∧ post = [])
    ∧ Forall (λ c, is_http c = true) post.
Proof.
  destruct (getGroupId name w) as [r0 w1] eqn:Hl.
  assert (Hw1 : w1 = world.log (lookupCall name) w).
  { by rewrite <- (getGroupId_world name w), Hl. }
  destruct r0 as [id|e0|].
  2,3: exists [], [], (Ok tt); unfold UpdateGroup; run; rewrite Hl; simpl;
       rewrite Hw1; simpl; repeat split; try done; apply answers_ok_nil.
  destruct (range_loop (length ops) 0 UpdateGroup_op (ops, w1))
    as [r1 [ops2 w2]] eqn:Hloop.
  destruct (disciplined_range_loop UpdateGroup_op (length ops) 0
              disciplined_UpdateGroup_op (ops, w1)) as (us & Hnet & Hshape).
  rewrite Hloop in Hnet, Hshape. simpl in Hnet, Hshape.
  rewrite Hw1 in Hnet, Hshape. simpl in Hnet, Hshape.
  destruct r1 as [[]|e|].
  - destruct (json_Marshal_PatchRequest (world.heap w2)
                (GroupSCIMPatchRequest.mk patchSchemas ops2)) as [b|e|] eqn:Hb.
    + destruct (Clientx.Patch client (world.net w2) (url_Parse (groupURL id))
                  UpdateGroup_headers b) as [resp err] eqn:Hpatch.
      exists us, [CallPatch (url_Parse (groupURL id)) UpdateGroup_headers b],
             (Ok tt).
      rewrite (UpdateGroup_run _ _ _ _ _ _ _ _ _ _ Hl Hloop Hb Hpatch). simpl.
      rewrite Hnet, <- !(assoc_L (++)).
      repeat split; try done; by repeat constructor.
    + exists us, [], (Ok tt).
      rewrite (UpdateGroup_marshal_fails _ _ _ _ _ _ _ _ Hl Hloop Hb) by done.
      simpl. rewrite Hnet, (right_id_L [] (++)), <- !(assoc_L (++)).
      repeat split; done.
    + exists us, [], (Ok tt).
      rewrite (UpdateGroup_marshal_fails _ _ _ _ _ _ _ _ Hl Hloop Hb) by done.
      simpl. rewrite Hnet, (right_id_L [] (++)), <- !(assoc_L (++)).
      repeat split; done.
  - exists us, [], (Err e).
    rewrite (UpdateGroup_loop_fails _ _ _ _ _ _ _ Hl Hloop) by done.
    simpl. rewrite Hnet, (right_id_L [] (++)), <- !(assoc_L (++)).
    repeat split; try done; congruence.
  - exists us, [], Panic.
    rewrite (UpdateGroup_loop_fails _ _ _ _ _ _ _ Hl Hloop) by done.
    simpl. rewrite Hnet, (right_id_L [] (++)), <- !(assoc_L (++)).
    repeat split; done.
Qed.

Lemma CreateGroup_trace g w :
  ∃ us post (r1 : outcome unit),
    world.net (CreateGroup (g, w)).2.2 = world.net w ++ calls us ++ post
    ∧ run_shape (world.net w) us r1
    ∧ (∀ e, r1 = Err e -> (CreateGroup (g, w)).1 = Err e ∧ post = [])
    ∧ Forall (λ c, is_http c = true) post.
Proof.
  destruct (range_loop (length (Group.Members g)) 0 CreateGroup_member (g, w))
    as [r1 [g1 w1]] eqn:Hloop.
  destruct (disciplined_range_loop CreateGroup_member (length (Group.Members g))
              0 disciplined_CreateGroup_member (g, w)) as (us & Hnet & Hshape).
  rewrite Hloop in Hnet, Hshape. simpl in Hnet, Hshape.
  destruct r1 as [[]|e|].
  - destruct (json_Marshal_Group g1) as [b|e|] eqn:Hb.
    + destruct (Clientx.Post client (world.net w1) (url_Parse groupsURL)
                  CreateGroup_headers b) as [resp err] eqn:Hpost.
      exists us, [CallPost (url_Parse groupsURL) CreateGroup_headers b], (Ok tt).
      rewrite (CreateGroup_run _ _ _ _ _ _ _ Hloop Hb Hpost). simpl.
      rewrite Hnet, <- !(assoc_L (++)).
      repeat split; try done; by repeat constructor.
    + exists us, [], (Ok tt).
      rewrite (CreateGroup_marshal_fails _ _ _ _ _ Hloop Hb) by done.
      simpl. rewrite Hnet, (right_id_L [] (++)). repeat split; done.
    + exists us, [], (Ok tt).
      rewrite (CreateGroup_marshal_fails _ _ _ _ _ Hloop Hb) by done.
      simpl. rewrite Hnet, (right_id_L [] (++)). repeat split; done.
  - exists us, [], (Err e).
    rewrite (CreateGroup_loop_fails _ _ _ _ Hloop) by done.
    simpl. rewrite Hnet, (right_id_L [] (++)).
    repeat split; try done; congruence.
  - exists us, [], Panic.
    rewrite (CreateGroup_loop_fails _ _ _ _ Hloop) by done.
    simpl. rewrite Hnet, (right_id_L [] (++)). repeat split; done.
Qed.

Lemma not_http_elem u (l : list call) :
  Forall (λ c, is_http c = true) l -> CallGetUserId u ∉ l.
Proof.
  intros Hl Hin. rewrite Forall_forall in Hl. by specialize (Hl _ Hin).
Qed.

End Abort.

Section Retention.

Context `{Env}.

Lemma range_loop_split {St} (body : nat -> M St unit) k m i s :
  range_loop (k + m) i body s
  = bind (range_loop k i body) (fun _ => range_loop m (i + k) body) s.
Proof.
  revert i s. induction k as [|k IH]; intros i s; simpl.
  - unfold bind, ret. by rewrite Nat.add_0_r.
  - unfold bind at 1 2 3. destruct (body i s) as [[[]|e|] s1]; try done.
    rewrite IH. unfold bind. by rewrite Nat.add_succ_r.
Qed.

(** The loop stops at the first iteration that fails, in the state that
    iteration leaves. *)
Lemma range_loop_stops {St} (body : nat -> M St unit) n k s s_k e s' :
  k < n ->
  range_loop k 0 body s = (Ok tt, s_k) ->
  body k s_k = (Err e, s') ->
  range_loop n 0 body s = (Err e, s').
Proof.
  intros Hk Hpre Hbody.
  replace n with (k + S (n - S k)) by lia.
  rewrite range_loop_split. unfold bind at 1. rewrite Hpre. simpl.
  unfold bind. by rewrite Hbody.
Qed.

Lemma range_values_member_ops values j s :
  (range_values values j UpdateGroup_member s).2.1 = s.1.
Proof.
  revert j s. induction values as [|v values IH]; intros j s; simpl; [done|].
  unfold bind.
  assert (Hv : (UpdateGroup_member j v s).2.1 = s.1).
  { unfold UpdateGroup_member. destruct v; try done. run.
    destruct (world.load m s.2 !! "value") as [[]|]; try done. simpl.
    by destruct (getUserId (world.net s.2) s0). }
  destruct (UpdateGroup_member j v s) as [[[]|e|] s1]; simpl in *; try done.
  by rewrite IH.
Qed.

(** A failing iteration leaves the operations as it found them. *)
Lemma UpdateGroup_op_failure_ops i s e s' :
  UpdateGroup_op i s = (Err e, s') -> s'.1 = s.1.
Proof.
  unfold UpdateGroup_op. run. destruct (s.1 !! i) as [op|]; simpl; [|done].
  destruct (decide _).
  - destruct (GroupSCIMOpEntry.Value op); try done.
    intros Hrun. by rewrite <- (range_values_member_ops elems 0 s), Hrun.
  - destruct (decide _); [|done]. destruct (decide _); [|done]. simpl.
    destruct (getUserId _ _); simpl; try done. by intros [= _ <-].
Qed.

Lemma CreateGroup_member_failure_group i s e s' :
  CreateGroup_member i s = (Err e, s') -> s'.1 = s.1.
Proof.
  unfold CreateGroup_member. run.
  destruct (Group.Members s.1 !! i) as [m|]; simpl; [|done].
  destruct (getUserId _ _); simpl; try done. by intros [= _ <-].
Qed.

(** C3, as the code has it.  A resolver call that is answered with an
    error ends [UpdateGroup] and [CreateGroup] there: the result is the
    error naming that username, the failing call is the last interaction
    and no PATCH or POST precedes it.  The rewrites of the iterations
    before the failing one are not sent, and they are not undone either:
    the caller's operations, or group, stay as those iterations left
    them. *)
Theorem C3_resolution_failure_aborts :
  (∀ name ops w r ops' w' t1 u rest x,
     UpdateGroup name (ops, w) = (r, (ops', w')) ->
     world.net w' = world.net w ++ t1 ++ CallGetUserId u :: rest ->
     getUserId (world.net w ++ t1) u = Err x ->
     r = Err (resolveError u x) ∧ rest = []
     ∧ Forall (λ c, is_write c = false) t1)
  ∧ (∀ g w r g' w' t1 u rest x,
       CreateGroup (g, w) = (r, (g', w')) ->
       world.net w' = world.net w ++ t1 ++ CallGetUserId u :: rest ->
       getUserId (world.net w ++ t1) u = Err x ->
       r = Err (resolveError u x) ∧ rest = []
       ∧ Forall (λ c, is_write c = false) t1)
  ∧ (∀ name ops w id w1 k s_k e s',
       getGroupId name w = (Ok id, w1) ->
       k < length ops ->
       range_loop k 0 UpdateGroup_op (ops, w1) = (Ok tt, s_k) ->
       UpdateGroup_op k s_k = (Err e, s') ->
       UpdateGroup name (ops, w) = (Err e, s') ∧ s'.1 = s_k.1)
  ∧ (∀ g w k s_k e s',
       k < length (Group.Members g) ->
       range_loop k 0 CreateGroup_member (g, w) = (Ok tt, s_k) ->
       CreateGroup_member k s_k = (Err e, s') ->
       CreateGroup (g, w) = (Err e, s') ∧ s'.1 = s_k.1).
Proof.
  split; [|split; [|split]].
  - intros name ops w r ops' w' t1 u rest x Hrun Hnet Hx.
    destruct (UpdateGroup_trace name ops w) as (us & post & r1 & Htr & Hshape & Herr & Hpost).
    rewrite Hrun in Htr, Herr. simpl in Htr, Herr.
    rewrite Hnet in Htr. apply (inj (app (world.net w))) in Htr.
    symmetry in Htr.
    apply (split_middle [lookupCall name]) in Htr
      as (t1' & rest' & -> & Hus & ->).
    + rewrite (assoc_L (++)) in Hx.
      destruct (run_shape_failure _ _ _ _ _ _ _ Hshape Hus Hx) as [-> ->].
      destruct (Herr _ eq_refl) as [-> ->]. repeat split; try done.
      apply Forall_app. split; [by repeat constructor|].
      by apply (calls_no_write _ _ _ _ Hus).
    + intros Hin. apply list_elem_of_singleton in Hin. discriminate.
    + by apply not_http_elem.
  - intros g w r g' w' t1 u rest x Hrun Hnet Hx.
    destruct (CreateGroup_trace g w) as (us & post & r1 & Htr & Hshape & Herr & Hpost).
    rewrite Hrun in Htr, Herr. simpl in Htr, Herr.
    rewrite Hnet in Htr. apply (inj (app (world.net w))) in Htr.
    symmetry in Htr.
    apply (split_middle []) in Htr as (t1' & rest' & -> & Hus & ->).
    + simpl in *.
      destruct (run_shape_failure _ _ _ _ _ _ _ Hshape Hus Hx) as [-> ->].
      destruct (Herr _ eq_refl) as [-> ->]. repeat split; try done.
      by apply (calls_no_write _ _ _ _ Hus).
    + apply not_elem_of_nil.
    + by apply not_http_elem.
  - intros name ops w id w1 k s_k e s' Hl Hk Hpre Hbody.
    split; [|by apply (UpdateGroup_op_failure_ops k _ e)].
    pose proof (range_loop_stops _ _ _ _ _ _ _ Hk Hpre Hbody) as Hloop.
    by rewrite (UpdateGroup_loop_fails _ _ _ _ _ _ _ Hl Hloop).
  - intros g w k s_k e s' Hk Hpre Hbody.
    split; [|by apply (CreateGroup_member_failure_group k _ e)].
    pose proof (range_loop_stops _ _ _ _ _ _ _ Hk Hpre Hbody) as Hloop.
    by rewrite (CreateGroup_loop_fails _ _ _ _ Hloop).
Qed.

End Retention.

Lemma C3_resolution_failure_aborts_witness :
  (UpdateGroup (H := Double.env_patch) "Engineers"
     (Double.remove_bob_then_eve, Double.w0)).1
    = Err (resolveError "eve" "user not found")
  ∧ (CreateGroup (H := Double.env_created)
       (Double.group ["alice"; "eve"], Double.w0)).1
    = Err (resolveError "eve" "user not found").
Proof.
  destruct (C3_resolution_failure_aborts (H := Double.env_patch))
    as (Hupdate & _).
  destruct (C3_resolution_failure_aborts (H := Double.env_created))
    as (_ & Hcreate & _).
  split.
  - set (res := UpdateGroup (H := Double.env_patch) "Engineers"
                  (Double.remove_bob_then_eve, Double.w0)).
    assert (Hrun : res = (res.1, (res.2.1, res.2.2)))
      by (by destruct res as [? [? ?]]).
    apply (Hupdate _ _ _ _ _ _
             [lookupCall (H := Double.env_patch) "Engineers";
              CallGetUserId "bob"] "eve" [] "user not found" Hrun).
    + vm_compute. reflexivity.
    + vm_compute. reflexivity.
  - set (res := CreateGroup (H := Double.env_created)
                  (Double.group ["alice"; "eve"], Double.w0)).
    assert (Hrun : res = (res.1, (res.2.1, res.2.2)))
      by (by destruct res as [? [? ?]]).
    apply (Hcreate _ _ _ _ _ [CallGetUserId "alice"] "eve" []
             "user not found" Hrun).
    + vm_compute. reflexivity.
    + vm_compute. reflexivity.
Defined.

(** C3 as stated fails in its last part: after the failure on [eve], the
    caller's slice still holds the path rewritten for [bob]. *)
Lemma C3_rewrites_retained :
  (UpdateGroup (H := Double.env_patch) "Engineers"
     (Double.remove_bob_then_eve, Double.w0)).1
    = Err "unable to get user ID for username eve; err=user not found"
  ∧ (UpdateGroup (H := Double.env_patch) "Engineers"
       (Double.remove_bob_then_eve, Double.w0)).2.1
    = [Double.remove (removePath "u-2"); Double.remove "value eq eve"]
  ∧ (UpdateGroup (H := Double.env_patch) "Engineers"
       (Double.remove_bob_then_eve, Double.w0)).2.1
    ≠ Double.remove_bob_then_eve.
Proof.
  split; [by vm_compute|]. split; [by vm_compute|].
  vm_compute. discriminate.
Qed.

Section CreateClaims.

Context `{Env}.

Lemma with_Members_same g : Group.with_Members (Group.Members g) g = g.
Proof. by destruct g. Qed.

Lemma with_Members_twice ms ms' g :
  Group.with_Members ms (Group.with_Members ms' g) = Group.with_Members ms g.
Proof. done. Qed.

(** The loop of [CreateGroup] over the members still to visit, when each
    of them resolves. *)
Lemma CreateGroup_loop_ok todo : ∀ pre g w ids,
  Group.Members g = pre ++ todo ->
  length ids = length todo ->
  (∀ j m id, todo !! j = Some m -> ids !! j = Some id ->
     getUserId (world.net w ++ calls (Member.Value <$> take j todo))
               (Member.Value m) = Ok id) ->
  range_loop (length todo) (length pre) CreateGroup_member (g, w)
  = (Ok tt,
     (Group.with_Members (pre ++ zip_with Member.with_Value ids todo) g,
      world.mk (world.net w ++ calls (Member.Value <$> todo)) (world.heap w))).
Proof.
  induction todo as [|m todo IH]; intros pre g w ids Hms Hlen Hids.
  - destruct ids; [|done]. simpl. unfold ret.
    rewrite (right_id_L [] (++)) in Hms.
    rewrite !(right_id_L [] (++)), <- Hms, with_Members_same. by destruct w.
  - destruct ids as [|id ids]; [done|]. simpl in Hlen.
    simpl. unfold bind at 1.
    assert (Hm : Group.Members g !! length pre = Some m)
      by (by rewrite Hms, list_lookup_middle).
    assert (Hid : getUserId (world.net w) (Member.Value m) = Ok id).
    { specialize (Hids 0 m id eq_refl eq_refl). simpl in Hids.
      by rewrite (right_id_L [] (++)) in Hids. }
    unfold CreateGroup_member at 1. run. rewrite Hm. simpl. rewrite Hid. simpl.
    replace (S (length pre)) with (length (pre ++ [Member.with_Value id m]))
      by (rewrite length_app; simpl; lia).
    rewrite Hms, alter_app_r_alt by lia. rewrite Nat.sub_diag. simpl.
    rewrite (IH (pre ++ [Member.with_Value id m]) _ _ ids).
    + rewrite with_Members_twice. simpl.
      by rewrite <- !(assoc_L (++)).
    + simpl. by rewrite <- (assoc_L (++)).
    + lia.
    + intros j m' id' Hj Hid'. simpl. rewrite <- (assoc_L (++)). simpl.
      apply (Hids (S j) m' id' Hj Hid').
Qed.

(** C7.  When every member's [Value] resolves (member [j] to [ids !! j],
    asked after the members before it), [CreateGroup] hands the transport
    exactly one POST, whose body is the serialization of the group with
    each [Value] replaced by the resolver's answer for it, and that group
    is what the caller's object holds afterwards. *)
Theorem C7_CreateGroup_resolves_members (g : Group.t) (w : world.t)
    (ids : list string) (b : string) :
  length ids = length (Group.Members g) ->
  (∀ j m id, Group.Members g !! j = Some m -> ids !! j = Some id ->
     getUserId
       (world.net w ++ calls (Member.Value <$> take j (Group.Members g)))
       (Member.Value m) = Ok id) ->
  json_Marshal_Group
    (Group.with_Members (zip_with Member.with_Value ids (Group.Members g)) g)
    = Ok b ->
  (CreateGroup (g, w)).2.1
    = Group.with_Members (zip_with Member.with_Value ids (Group.Members g)) g
  ∧ world.net (CreateGroup (g, w)).2.2
    = world.net w ++ calls (Member.Value <$> Group.Members g)
      ++ [CallPost (url_Parse groupsURL) CreateGroup_headers b]
  ∧ (∀ j m id, Group.Members g !! j = Some m -> ids !! j = Some id ->
       Group.Members (CreateGroup (g, w)).2.1 !! j
       = Some (Member.mk (Member.Type_ m) id (Member.Display m) (Member.Ref m))).
Proof.
  intros Hlen Hids Hb.
  pose proof (CreateGroup_loop_ok (Group.Members g) [] g w ids eq_refl Hlen Hids)
    as Hloop. simpl in Hloop.
  destruct (Clientx.Post client
              (world.net w ++ calls (Member.Value <$> Group.Members g))
              (url_Parse groupsURL) CreateGroup_headers b)
    as [resp err] eqn:Hpost.
  rewrite (CreateGroup_run _ _ _ _ _ _ _ Hloop Hb Hpost). simpl.
  split; [done|]. split; [by rewrite <- (assoc_L (++))|].
  intros j m id Hm Hid. rewrite lookup_zip_with, Hid, Hm. done.
Qed.

End CreateClaims.

Lemma C7_CreateGroup_resolves_members_witness :
  (CreateGroup (H := Double.env_created)
     (Double.group ["alice"; "bob"], Double.w0)).2.1
    = Double.group ["u-1"; "u-2"]
  ∧ world.net (CreateGroup (H := Double.env_created)
                 (Double.group ["alice"; "bob"], Double.w0)).2.2
    = [CallGetUserId "alice"; CallGetUserId "bob";
       CallPost (url_Parse (groupsURL (H := Double.env_created)))
                (CreateGroup_headers (H := Double.env_created)) "u-1,u-2"].
Proof.
  destruct (C7_CreateGroup_resolves_members (H := Double.env_created)
              (Double.group ["alice"; "bob"]) Double.w0 ["u-1"; "u-2"]
              "u-1,u-2") as (Hgroup & Hnet & _).
  - reflexivity.
  - intros [|[|j]] m id Hm Hid; simpl in Hm, Hid; try done.
    + injection Hm as <-. by injection Hid as <-.
    + injection Hm as <-. by injection Hid as <-.
  - reflexivity.
  - split; [exact Hgroup|exact Hnet].
Defined.

(** ** The pattern of [extractUsernameFromPath] *)

Example extract_quoted :
  extractUsernameFromPath
    ("members[value eq " +:+ dquote +:+ "alice" +:+ dquote +:+ "]")
  = "alice".
Proof. reflexivity. Qed.

Example extract_unquoted : extractUsernameFromPath "value eq bob" = "bob".
Proof. reflexivity. Qed.

Example extract_to_end_of_path :
  extractUsernameFromPath "members[value eq bob]" = "bob]".
Proof. reflexivity. Qed.

Example extract_nothing : extractUsernameFromPath "members" = EmptyString.
Proof. reflexivity. Qed.

#[local] Arguments Ascii.eqb : simpl never.

Lemma strip_prefix_straddle lit : ∀ p rest,
  has_byte "v" lit = false ->
  strip_prefix lit p = None ->
  strip_prefix lit (p +:+ String "v" rest) = None.
Proof.
  induction lit as [|a lit IH]; intros p rest Hlit Hp; [done|].
  simpl in Hlit. fold (has_byte "v") in Hlit.
  apply orb_false_iff in Hlit as [Ha Hlit].
  destruct p as [|c p]; simpl in *.
  - by rewrite Ha.
  - destruct (Ascii.eqb a c); [by apply IH|done].
Qed.

Lemma FindStringSubmatch_here s g :
  match_here s = Some g -> FindStringSubmatch s = Some g.
Proof. intros Hh. destruct s; cbn [FindStringSubmatch]; by rewrite Hh. Qed.

(** No match starts inside a prefix in which the literal does not occur:
    the search goes on to the text after it. *)
Lemma FindStringSubmatch_skip pre : ∀ rest,
  occurs "value eq " pre = false ->
  FindStringSubmatch (pre +:+ "value eq " +:+ rest)
  = FindStringSubmatch ("value eq " +:+ rest).
Proof.
  induction pre as [|c pre IH]; intros rest Hpre; [done|].
  change (occurs "value eq " (String c pre))
    with (match strip_prefix "value eq " (String c pre) with
          | Some _ => true
          | None => occurs "value eq " pre
          end) in Hpre.
  destruct (strip_prefix "value eq " (String c pre)) eqn:Hstrip; [done|].
  change (String c pre +:+ "value eq " +:+ rest)
    with (String c (pre +:+ "value eq " +:+ rest)).
  change (FindStringSubmatch (String c (pre +:+ "value eq " +:+ rest)))
    with (match match_here (String c (pre +:+ "value eq " +:+ rest)) with
          | Some g => Some g
          | None => FindStringSubmatch (pre +:+ "value eq " +:+ rest)
          end).
  assert (Hhere : match_here (String c (pre +:+ "value eq " +:+ rest)) = None).
  { unfold match_here.
    assert (Hs : strip_prefix "value eq " (String c (pre +:+ "value eq " +:+ rest))
                 = None); [|by rewrite Hs].
    simpl in Hstrip |- *.
    destruct (Ascii.eqb "v" c); [|done].
    by apply (strip_prefix_straddle "alue eq " pre ("alue eq " +:+ rest)). }
  rewrite Hhere. by apply IH.
Qed.

Lemma non_quotes_run name rest :
  has_byte (Ascii.ascii_of_nat 34) name = false ->
  rest = EmptyString ∨ (∃ rest', rest = dquote +:+ rest') ->
  non_quotes (name +:+ rest) = name.
Proof.
  intros Hname Hrest. induction name as [|c name IH]; simpl in *.
  - by destruct Hrest as [->|[rest' ->]].
  - fold (has_byte (Ascii.ascii_of_nat 34)) in Hname.
    apply orb_false_iff in Hname as [Hc Hname].
    unfold is_quote. rewrite Hc. by rewrite IH.
Qed.

(** The capture is the username of the leftmost comparator, with or
    without quotes around it: the bytes after [value eq ] and an optional
    quote, up to the next quote or the end of the path. *)
Lemma extract_comparator pre q name rest :
  occurs "value eq " pre = false ->
  q = EmptyString ∨ q = dquote ->
  name ≠ EmptyString ->
  has_byte (Ascii.ascii_of_nat 34) name = false ->
  rest = EmptyString ∨ (∃ rest', rest = dquote +:+ rest') ->
  extractUsernameFromPath (pre +:+ "value eq " +:+ q +:+ name +:+ rest) = name.
Proof.
  intros Hpre Hq Hne Hname Hrest. unfold extractUsernameFromPath.
  rewrite FindStringSubmatch_skip by done.
  assert (Hcap : capture (name +:+ rest) = Some name).
  { unfold capture. rewrite non_quotes_run by done. by destruct name. }
  assert (Hhere : match_here ("value eq " +:+ q +:+ name +:+ rest) = Some name).
  { unfold match_here.
    change (strip_prefix "value eq " ("value eq " +:+ q +:+ name +:+ rest))
      with (Some (q +:+ name +:+ rest)).
    destruct Hq as [->| ->].
    - simpl. destruct name as [|c name]; [done|]. simpl in Hname |- *.
      fold (has_byte (Ascii.ascii_of_nat 34)) in Hname.
      apply orb_false_iff in Hname as [Hc Hname].
      unfold is_quote at 1. rewrite Hc. exact Hcap.
    - simpl. change (EmptyString +:+ name +:+ rest) with (name +:+ rest).
      by rewrite Hcap. }
  by rewrite (FindStringSubmatch_here _ _ Hhere).
Qed.

Section PatchOps.

Context `{Env}.

Lemma UpdateGroup_op_remove i op ops w :
  ops !! i = Some op ->
  GroupSCIMOpEntry.Op op = "remove" ->
  UpdateGroup_op i (ops, w) =
    let username := extractUsernameFromPath (GroupSCIMOpEntry.Path op) in
    if decide (username ≠ EmptyString) then
      match getUserId (world.net w) username with
      | Ok userID =>
          (Ok tt,
           (<[i := GroupSCIMOpEntry.mk "remove" (removePath userID)
                     (GroupSCIMOpEntry.Value op)]> ops,
            world.log (CallGetUserId username) w))
      | Err x =>
          (Err (resolveError username x),
           (ops, world.log (CallGetUserId username) w))
      | Panic => (Panic, (ops, world.log (CallGetUserId username) w))
      end
    else (Ok tt, (ops, w)).
Proof.
  intros Hop Hremove. unfold UpdateGroup_op. run. rewrite Hop. simpl.
  rewrite decide_False by (rewrite Hremove; by intros [? _]).
  rewrite decide_True by done.
  destruct (decide _); [|done]. simpl.
  destruct (getUserId _ _); simpl; try done.
  do 2 f_equal. apply list_eq. intros j.
  destruct (decide (j = i)) as [->|Hne].
  - rewrite list_lookup_alter_eq, Hop, list_lookup_insert_eq
      by (by apply lookup_lt_Some in Hop).
    simpl. unfold GroupSCIMOpEntry.with_Path. by rewrite Hremove.
  - by rewrite list_lookup_alter_ne, list_lookup_insert_ne.
Qed.

Lemma UpdateGroup_op_add i op ops w :
  ops !! i = Some op ->
  GroupSCIMOpEntry.Op op = "add" ->
  GroupSCIMOpEntry.Path op = "members" ->
  UpdateGroup_op i (ops, w) =
    match GroupSCIMOpEntry.Value op with
    | VSlice values => range_values values 0 UpdateGroup_member (ops, w)
    | _ => (Ok tt, (ops, w))
    end.
Proof.
  intros Hop Hadd Hpath. unfold UpdateGroup_op. run. rewrite Hop. simpl.
  rewrite decide_True by done. by destruct (GroupSCIMOpEntry.Value op).
Qed.

Lemma UpdateGroup_op_other i op ops w :
  ops !! i = Some op ->
  ¬ (GroupSCIMOpEntry.Op op = "add" ∧ GroupSCIMOpEntry.Path op = "members") ->
  GroupSCIMOpEntry.Op op ≠ "remove" ->
  UpdateGroup_op i (ops, w) = (Ok tt, (ops, w)).
Proof.
  intros Hop Hadd Hremove. unfold UpdateGroup_op. run. rewrite Hop. simpl.
  rewrite decide_False by done. by rewrite decide_False by done.
Qed.

(** One iteration writes the operation at its own index only. *)
Lemma UpdateGroup_op_patched i s s1 :
  UpdateGroup_op i s = (Ok tt, s1) ->
  (∀ j, j ≠ i -> s1.1 !! j = s.1 !! j)
  ∧ (∀ op, s.1 !! i = Some op -> ∃ op', s1.1 !! i = Some op' ∧ patched op op').
Proof.
  destruct s as [ops w]. simpl.
  destruct (ops !! i) as [op|] eqn:Hop;
    [|unfold UpdateGroup_op; run; rewrite Hop; done].
  destruct (decide (GroupSCIMOpEntry.Op op = "remove")) as [Hremove|Hremove].
  - rewrite (UpdateGroup_op_remove _ _ _ _ Hop Hremove). simpl.
    destruct (decide _) as [Hu|Hu].
    + destruct (getUserId _ _) as [id| |] eqn:Hid; try done.
      intros [= <-]. simpl. split.
      * intros j Hj. by rewrite list_lookup_insert_ne.
      * intros op0 [= <-]. eexists. split.
        { apply list_lookup_insert_eq. by apply lookup_lt_Some in Hop. }
        unfold patched. rewrite decide_True by done. by exists (world.net w), id.
    + intros [= <-]. simpl. split; [done|]. intros op0 [= <-].
      exists op. split; [done|]. unfold patched.
      rewrite decide_False; [done|]. by intros [_ ?].
  - assert (Hsame : patched op op).
    { unfold patched. rewrite decide_False; [done|]. by intros [? _]. }
    destruct (decide (GroupSCIMOpEntry.Op op = "add"
                      ∧ GroupSCIMOpEntry.Path op = "members")) as [[Hadd Hp]|Hadd].
    + rewrite (UpdateGroup_op_add _ _ _ _ Hop Hadd Hp).
      intros Hrun.
      assert (Hops : s1.1 = ops).
      { destruct (GroupSCIMOpEntry.Value op); try (by injection Hrun as <-).
        pose proof (range_values_member_ops elems 0 (ops, w)) as Hv.
        by rewrite Hrun in Hv. }
      rewrite Hops. split; [done|]. intros op0 [= <-]. by exists op.
    + rewrite (UpdateGroup_op_other _ _ _ _ Hop Hadd Hremove).
      intros [= <-]. simpl. split; [done|]. intros op0 [= <-]. by exists op.
Qed.

(** The operations after the loop. *)
Lemma UpdateGroup_loop_patched n : ∀ i0 s s',
  range_loop n i0 UpdateGroup_op s = (Ok tt, s') ->
  ∀ i op, s.1 !! i = Some op ->
    if decide (i0 ≤ i < i0 + n)
    then ∃ op', s'.1 !! i = Some op' ∧ patched op op'
    else s'.1 !! i = Some op.
Proof.
  induction n as [|n IH]; intros i0 s s' Hrun i op Hop.
  - injection Hrun as <-. rewrite decide_False by lia. done.
  - simpl in Hrun. unfold bind in Hrun.
    destruct (UpdateGroup_op i0 s) as [[[]|e|] s1] eqn:Hbody; try done.
    destruct (UpdateGroup_op_patched _ _ _ Hbody) as [Hother Hself].
    destruct (decide (i = i0)) as [->|Hne].
    + destruct (Hself _ Hop) as (op' & Hop' & Hpatched).
      specialize (IH _ _ _ Hrun _ _ Hop').
      rewrite decide_False in IH by lia. rewrite decide_True by lia.
      by exists op'.
    + rewrite <- (Hother _ Hne) in Hop.
      specialize (IH _ _ _ Hrun _ _ Hop).
      destruct (decide (S i0 ≤ i < S i0 + n)).
      * rewrite decide_True by lia. done.
      * rewrite decide_False by lia. done.
Qed.

(** When [UpdateGroup] ends on a PATCH, the body of that request is the
    serialization of the operations as the loop left them. *)
Lemma UpdateGroup_sent name ops w r ops' w' t1 u h b :
  UpdateGroup name (ops, w) = (r, (ops', w')) ->
  world.net w' = world.net w ++ t1 ++ [CallPatch u h b] ->
  json_Marshal_PatchRequest (world.heap w')
    (GroupSCIMPatchRequest.mk patchSchemas ops') = Ok b
  ∧ ∀ i op, ops !! i = Some op -> ∃ op', ops' !! i = Some op' ∧ patched op op'.
Proof.
  intros Hrun Hnet.
  assert (Hlast : last (world.net w') = Some (CallPatch u h b)).
  { by rewrite Hnet, !(assoc_L (++)), last_snoc. }
  assert (Hcalls : ∀ us pre, last (pre ++ lookupCall name :: calls us)
                             ≠ Some (CallPatch u h b)).
  { intros us pre. destruct us as [|u0 us] using rev_ind.
    - simpl. by rewrite last_snoc.
    - rewrite calls_app. simpl.
      change (pre ++ lookupCall name :: calls us ++ [CallGetUserId u0])
        with (pre ++ (lookupCall name :: calls us) ++ [CallGetUserId u0]).
      by rewrite (assoc_L (++)), last_snoc. }
  destruct (getGroupId name w) as [r0 w1] eqn:Hl.
  assert (Hw1 : w1 = world.log (lookupCall name) w).
  { by rewrite <- (getGroupId_world name w), Hl. }
  destruct r0 as [id|e0|].
  2,3: exfalso; revert Hrun; unfold UpdateGroup; run; rewrite Hl; simpl;
       intros [= <- <- <-]; rewrite Hw1 in Hlast; simpl in Hlast;
       by rewrite last_snoc in Hlast.
  destruct (range_loop (length ops) 0 UpdateGroup_op (ops, w1))
    as [r1 [ops2 w2]] eqn:Hloop.
  destruct (disciplined_range_loop UpdateGroup_op (length ops) 0
              disciplined_UpdateGroup_op (ops, w1)) as (us & Hnet2 & _).
  rewrite Hloop in Hnet2. simpl in Hnet2. rewrite Hw1 in Hnet2.
  simpl in Hnet2. rewrite <- (assoc_L (++)) in Hnet2. simpl in Hnet2.
  destruct r1 as [[]|e|].
  - destruct (json_Marshal_PatchRequest (world.heap w2)
                (GroupSCIMPatchRequest.mk patchSchemas ops2)) as [b'|e|] eqn:Hb.
    + destruct (Clientx.Patch client (world.net w2) (url_Parse (groupURL id))
                  UpdateGroup_headers b') as [resp err] eqn:Hpatch.
      rewrite (UpdateGroup_run _ _ _ _ _ _ _ _ _ _ Hl Hloop Hb Hpatch) in Hrun.
      injection Hrun as _ <- <-. simpl in Hlast |- *.
      rewrite last_snoc in Hlast. injection Hlast as _ _ <-.
      split; [done|]. intros i op Hop.
      pose proof (UpdateGroup_loop_patched _ _ _ _ Hloop i op Hop) as Hp.
      simpl in Hp. apply lookup_lt_Some in Hop as Hlt.
      by rewrite decide_True in Hp by lia.
    + rewrite (UpdateGroup_marshal_fails _ _ _ _ _ _ _ _ Hl Hloop Hb) in Hrun
        by done.
      injection Hrun as _ <- <-. rewrite Hnet2 in Hlast. by destruct (Hcalls us (world.net w)).
    + rewrite (UpdateGroup_marshal_fails _ _ _ _ _ _ _ _ Hl Hloop Hb) in Hrun
        by done.
      injection Hrun as _ <- <-. rewrite Hnet2 in Hlast. by destruct (Hcalls us (world.net w)).
  - rewrite (UpdateGroup_loop_fails _ _ _ _ _ _ _ Hl Hloop) in Hrun by done.
    injection Hrun as _ <- <-. rewrite Hnet2 in Hlast. by destruct (Hcalls us (world.net w)).
  - rewrite (UpdateGroup_loop_fails _ _ _ _ _ _ _ Hl Hloop) in Hrun by done.
    injection Hrun as _ <- <-. rewrite Hnet2 in Hlast. by destruct (Hcalls us (world.net w)).
Qed.

End PatchOps.
Section RemoveClaim.

Context `{Env}.


End RemoveClaim.



Section AddClaim.

Context `{Env}.

Lemma load_store_eq a k v w :
  world.load a (world.store a k v w) = <[k := v]> (world.load a w).
Proof. unfold world.load, world.store. simpl. by rewrite lookup_insert_eq. Qed.

Lemma load_store_ne a a' k v w :
  a ≠ a' -> world.load a' (world.store a k v w) = world.load a' w.
Proof.
  intros Hne. unfold world.load, world.store. simpl.
  by rewrite lookup_insert_ne.
Qed.

Lemma load_log a c w : world.load a (world.log c w) = world.load a w.
Proof. done. Qed.

Lemma member_usernames_elem w values a u :
  (a, u) ∈ member_usernames w values ->
  VMap a ∈ values ∧ world.load a w !! "value" = Some (VString u).
Proof.
  induction values as [|v values IH]; simpl; [by intros ?%elem_of_nil|].
  assert (Hrest : (a, u) ∈ member_usernames w values ->
                  VMap a ∈ v :: values
                  ∧ world.load a w !! "value" = Some (VString u)).
  { intros [??]%IH. split; [by right|done]. }
  destruct v; try done.
  destruct (world.load m w !! "value") as [[]|] eqn:Hv; try done.
  intros [[= -> ->]|?]%elem_of_cons; [|by apply Hrest].
  split; [by left|done].
Qed.

Lemma member_usernames_complete w values a u :
  VMap a ∈ values ->
  world.load a w !! "value" = Some (VString u) ->
  (a, u) ∈ member_usernames w values.
Proof.
  intros Hin Hv. induction values as [|v values IH]; [by apply elem_of_nil in Hin|].
  apply elem_of_cons in Hin as [<-|Hin]; simpl.
  - rewrite Hv. by left.
  - specialize (IH Hin). destruct v; try done.
    destruct (world.load m w !! "value") as [[]|]; try done. by right.
Qed.

(** Writing the key of one resolved map does not change which of the
    other maps are to resolve. *)
Lemma member_usernames_store w values a u v c :
  world.load a w !! "value" = Some (VString u) ->
  a ∉ (member_usernames w values).*1 ->
  member_usernames (world.store a "value" v (world.log c w)) values
  = member_usernames w values.
Proof.
  intros Ha. induction values as [|x values IH]; intros Hnot; simpl; [done|].
  destruct x; try (by apply IH).
  destruct (decide (m = a)) as [->|Hne].
  - simpl in Hnot. rewrite Ha in Hnot. simpl in Hnot.
    destruct Hnot. by left.
  - rewrite load_store_ne, load_log by done. simpl in Hnot.
    destruct (world.load m w !! "value") as [[]|]; try (by apply IH).
    simpl in Hnot. apply not_elem_of_cons in Hnot as [_ Hnot].
    by rewrite IH.
Qed.

(** The loop over the elements of an add payload, when the maps to
    resolve are distinct objects and each username resolves. *)
Lemma range_values_resolved values : ∀ j ops w ids,
  NoDup (member_usernames w values).*1 ->
  length ids = length (member_usernames w values) ->
  (∀ k a u id,
     member_usernames w values !! k = Some (a, u) -> ids !! k = Some id ->
     getUserId (world.net w ++ calls (take k (member_usernames w values).*2)) u
     = Ok id) ->
  range_values values j UpdateGroup_member (ops, w)
  = (Ok tt, (ops, resolve_into w (member_usernames w values) ids)).
Proof.
  induction values as [|v values IH]; intros j ops w ids Hnodup Hlen Hids.
  - simpl. by destruct ids.
  - simpl. unfold bind at 1.
    destruct v; try (simpl in *; unfold ret; by apply IH).
    simpl in Hnodup, Hlen, Hids |- *. run.
    destruct (world.load m w !! "value") as [[| | |u| | |]|] eqn:Hv;
      try (simpl in *; by apply IH).
    destruct ids as [|id ids]; [done|]. simpl in Hlen.
    assert (Hid : getUserId (world.net w) u = Ok id).
    { specialize (Hids 0 m u id eq_refl eq_refl). simpl in Hids.
      by rewrite (right_id_L [] (++)) in Hids. }
    simpl. rewrite Hid. simpl.
    apply NoDup_cons in Hnodup as [Hnot Hnodup].
    pose proof (member_usernames_store w values m u (VString id)
                  (CallGetUserId u) Hv Hnot) as Hsame.
    rewrite (IH _ _ _ ids); rewrite Hsame; try done; [lia|].
    intros k a u' id' Hk Hid'. simpl. rewrite <- (assoc_L (++)). simpl.
    apply (Hids (S k) a u' id' Hk Hid').
Qed.

Lemma resolve_into_net mus : ∀ w ids,
  length ids = length mus ->
  world.net (resolve_into w mus ids) = world.net w ++ calls mus.*2.
Proof.
  induction mus as [|[a u] mus IH]; intros w ids Hlen; simpl.
  - by rewrite (right_id_L [] (++)).
  - destruct ids as [|id ids]; [done|]. rewrite IH by (simpl in Hlen; lia).
    simpl. by rewrite <- (assoc_L (++)).
Qed.

Lemma resolve_into_other mus : ∀ w ids a,
  a ∉ mus.*1 -> world.load a (resolve_into w mus ids) = world.load a w.
Proof.
  induction mus as [|[a0 u] mus IH]; intros w ids a Hnot; simpl; [done|].
  destruct ids as [|id ids]; [done|]. simpl in Hnot.
  apply not_elem_of_cons in Hnot as [Hne Hnot].
  rewrite IH by done. by rewrite load_store_ne, load_log.
Qed.

Lemma resolve_into_member mus : ∀ w ids k a u id,
  NoDup mus.*1 ->
  mus !! k = Some (a, u) -> ids !! k = Some id ->
  world.load a (resolve_into w mus ids)
  = <["value" := VString id]> (world.load a w).
Proof.
  induction mus as [|[a0 u0] mus IH]; intros w ids k a u id Hnodup Hk Hid;
    [done|].
  simpl in Hnodup. apply NoDup_cons in Hnodup as [Hnot Hnodup].
  destruct ids as [|id0 ids]; [by destruct k|].
  destruct k as [|k]; simpl in Hk, Hid |- *.
  - injection Hk as -> ->. injection Hid as ->.
    rewrite resolve_into_other by done. by rewrite load_store_eq, load_log.
  - assert (Hne : a0 ≠ a).
    { intros ->. apply Hnot. apply list_elem_of_fmap. exists (a, u).
      split; [done|]. by apply list_elem_of_lookup_2 in Hk. }
    rewrite (IH _ _ k a u id) by done. by rewrite load_store_ne, load_log.
Qed.

(** The maps to which an ID was written are among the members. *)
Lemma written_ids_elem mus : ∀ cur ids a id,
  written_ids cur mus ids !! a = Some id ->
  cur !! a = Some id ∨ a ∈ mus.*1.
Proof.
  induction mus as [|[a0 u0] mus IH]; intros cur ids a id Hw; simpl in *;
    [by left|].
  destruct ids as [|id0 ids]; [by left|].
  destruct (IH _ _ _ _ Hw) as [Hcur|Hin]; [|right; by right].
  destruct (decide (a0 = a)) as [->|Hne]; [right; by left|].
  left. by rewrite lookup_insert_ne in Hcur.
Qed.

(** The loop over the elements of an add payload, whatever maps occur
    in it and however often, when each username asked resolves.  The
    world [wk] of the loop differs from the world [w0], in which the
    members are read off, by the IDs [cur] written so far. *)
Lemma range_values_rewritten values : ∀ j ops w0 wk cur ids,
  (∀ a, world.load a wk = rewritten w0 cur a) ->
  (∀ a id, cur !! a = Some id ->
           ∃ u, world.load a w0 !! "value" = Some (VString u)) ->
  length ids = length (member_usernames w0 values) ->
  (∀ k u id,
     asked_usernames cur (member_usernames w0 values) ids !! k = Some u ->
     ids !! k = Some id ->
     getUserId
       (world.net wk
        ++ calls (take k (asked_usernames cur (member_usernames w0 values) ids)))
       u = Ok id) ->
  ∃ w',
    range_values values j UpdateGroup_member (ops, wk) = (Ok tt, (ops, w'))
    ∧ world.net w'
      = world.net wk
        ++ calls (asked_usernames cur (member_usernames w0 values) ids)
    ∧ ∀ a, world.load a w'
           = rewritten w0 (written_ids cur (member_usernames w0 values) ids) a.
Proof.
  induction values as [|v values IH]; intros j ops w0 wk cur ids Hview Hcur
    Hlen Hids.
  - exists wk. simpl. unfold ret. split; [done|].
    split; [by rewrite (right_id_L [] (++))|done].
  - assert (Hskip :
      member_usernames w0 (v :: values) = member_usernames w0 values ->
      UpdateGroup_member j v (ops, wk) = (Ok tt, (ops, wk)) ->
      ∃ w',
        range_values (v :: values) j UpdateGroup_member (ops, wk)
        = (Ok tt, (ops, w'))
        ∧ world.net w'
          = world.net wk
            ++ calls (asked_usernames cur (member_usernames w0 (v :: values))
                        ids)
        ∧ ∀ a, world.load a w'
               = rewritten w0
                   (written_ids cur (member_usernames w0 (v :: values)) ids) a).
    { intros Hmus Hv. rewrite Hmus in Hlen, Hids |- *.
      destruct (IH (S j) ops w0 wk cur ids Hview Hcur Hlen Hids)
        as (w' & Hrun & Hnet & Hload).
      exists w'. split; [|done].
      change (range_values (v :: values) j UpdateGroup_member (ops, wk))
        with (bind (UpdateGroup_member j v)
                (fun _ => range_values values (S j) UpdateGroup_member)
                (ops, wk)).
      unfold bind. by rewrite Hv. }
    destruct v as [| | | | |a|]; try (by apply Hskip).
    destruct (world.load a w0 !! "value") as [[| | |u| | |]|] eqn:Hv0.
    4: {
      (* a map that holds a string *)
      assert (Hvk : world.load a wk !! "value"
                    = Some (VString (default u (cur !! a)))).
      { rewrite Hview. unfold rewritten.
        destruct (cur !! a) as [id0|]; simpl; [|done].
        by rewrite lookup_insert_eq. }
      simpl in Hlen, Hids. rewrite Hv0 in Hlen, Hids.
      destruct ids as [|id ids]; [done|]. simpl in Hlen.
      assert (Hid : getUserId (world.net wk) (default u (cur !! a)) = Ok id).
      { specialize (Hids 0 (default u (cur !! a)) id eq_refl eq_refl).
        simpl in Hids. by rewrite (right_id_L [] (++)) in Hids. }
      destruct (IH (S j) ops w0
                  (world.store a "value" (VString id)
                     (world.log (CallGetUserId (default u (cur !! a))) wk))
                  (<[a := id]> cur) ids)
        as (w' & Hrun & Hnet & Hload).
      - intros a'. unfold rewritten.
        destruct (decide (a = a')) as [<-|Hne].
        + rewrite load_store_eq, load_log, lookup_insert_eq, Hview.
          unfold rewritten. destruct (cur !! a); [|done].
          by rewrite insert_insert_eq.
        + rewrite load_store_ne, load_log, lookup_insert_ne, Hview by done.
          done.
      - intros a' id'. destruct (decide (a = a')) as [<-|Hne].
        + intros _. by exists u.
        + rewrite lookup_insert_ne by done. apply Hcur.
      - lia.
      - intros k u' id' Hk Hid'. simpl. rewrite <- (assoc_L (++)). simpl.
        apply (Hids (S k) u' id' Hk Hid').
      - exists w'. simpl. rewrite Hv0. simpl. split; [|split; [|done]].
        + unfold bind at 1. unfold UpdateGroup_member. run.
          rewrite Hvk. simpl. rewrite Hid. simpl. exact Hrun.
        + rewrite Hnet. simpl. by rewrite <- (assoc_L (++)). }
    all: apply Hskip; [by (simpl; rewrite Hv0)|];
      unfold UpdateGroup_member; run;
      (assert (Hnone : cur !! a = None);
       [destruct (cur !! a) as [id0|] eqn:Hc; [|done];
        destruct (Hcur _ _ Hc) as [u0 Hu0]; by rewrite Hv0 in Hu0|]);
      rewrite Hview; unfold rewritten; rewrite Hnone, Hv0; done.
Qed.

End AddClaim.

Section AddClaimStatement.

Context `{Env}.

(** C2, as the code has it.  For an add operation on [members] at index
    [i]:
    - a payload that is not a list leaves everything as it is, and
      nothing is asked;
    - for a list whose maps with a string [value] are distinct objects
      and resolve (the [k]-th of them to [ids !! k], asked in turn), the
      iteration succeeds, asks the resolver for exactly those usernames,
      writes the ID over the key [value] of each such map, in place, and
      changes no other map: a map with no string [value] is read as
      before, an element that is not a map is skipped, and the list and
      the operation stay the same;
    - for any list, whatever maps occur in it and however often: each
      element that is a map with a string [value] is resolved at its
      turn, a map that occurred before being asked for the ID written at
      its previous occurrence and not for the string it held at first;
      each such map ends with the ID answered at its last occurrence,
      and a map with no string [value] is never asked for nor written;
    - the PATCH that [UpdateGroup] sends carries the operation at [i]
      unchanged, serialized through the store so written. *)
Theorem C2_add_members_resolved (i : nat) (op : GroupSCIMOpEntry.t)
    (ops : list GroupSCIMOpEntry.t) (w : world.t) :
  ops !! i = Some op ->
  GroupSCIMOpEntry.Op op = "add" ->
  GroupSCIMOpEntry.Path op = "members" ->
  ((∀ values, GroupSCIMOpEntry.Value op ≠ VSlice values) ->
   UpdateGroup_op i (ops, w) = (Ok tt, (ops, w)))
  ∧ (∀ values ids,
       GroupSCIMOpEntry.Value op = VSlice values ->
       NoDup (member_usernames w values).*1 ->
       length ids = length (member_usernames w values) ->
       (∀ k a u id,
          member_usernames w values !! k = Some (a, u) -> ids !! k = Some id ->
          getUserId
            (world.net w ++ calls (take k (member_usernames w values).*2)) u
          = Ok id) ->
       ∃ w',
         UpdateGroup_op i (ops, w) = (Ok tt, (ops, w'))
         ∧ world.net w' = world.net w ++ calls (member_usernames w values).*2
         ∧ (∀ a u,
              VMap a ∈ values ->
              world.load a w !! "value" = Some (VString u) ->
              ∃ k id,
                member_usernames w values !! k = Some (a, u)
                ∧ ids !! k = Some id
                ∧ world.load a w' = <["value" := VString id]> (world.load a w))
         ∧ (∀ a,
              (∀ u, world.load a w !! "value" ≠ Some (VString u)) ->
              world.load a w' = world.load a w))
  ∧ (∀ values ids,
       GroupSCIMOpEntry.Value op = VSlice values ->
       let mus := member_usernames w values in
       length ids = length mus ->
       (∀ k u id,
          asked_usernames ∅ mus ids !! k = Some u -> ids !! k = Some id ->
          getUserId
            (world.net w ++ calls (take k (asked_usernames ∅ mus ids))) u
          = Ok id) ->
       ∃ w',
         UpdateGroup_op i (ops, w) = (Ok tt, (ops, w'))
         ∧ world.net w' = world.net w ++ calls (asked_usernames ∅ mus ids)
         ∧ (∀ a, world.load a w' = rewritten w (written_ids ∅ mus ids) a)
         ∧ (∀ a,
              (∀ u, world.load a w !! "value" ≠ Some (VString u)) ->
              world.load a w' = world.load a w))
  ∧ (∀ name r ops' w' t1 u h b,
       UpdateGroup name (ops, w) = (r, (ops', w')) ->
       world.net w' = world.net w ++ t1 ++ [CallPatch u h b] ->
       json_Marshal_PatchRequest (world.heap w')
         (GroupSCIMPatchRequest.mk patchSchemas ops') = Ok b
       ∧ ops' !! i = Some op).
Proof.
  intros Hop Hadd Hpath. split; [|split; [|split]].
  - intros Hvalue. rewrite (UpdateGroup_op_add _ _ _ _ Hop Hadd Hpath).
    destruct (GroupSCIMOpEntry.Value op); try done. by destruct (Hvalue elems).
  - intros values ids Hvalue Hnodup Hlen Hids.
    exists (resolve_into w (member_usernames w values) ids).
    split; [|split; [|split]].
    + rewrite (UpdateGroup_op_add _ _ _ _ Hop Hadd Hpath), Hvalue.
      by apply range_values_resolved.
    + by apply resolve_into_net.
    + intros a u Hin Hv.
      pose proof (member_usernames_complete _ _ _ _ Hin Hv) as Hmem.
      apply list_elem_of_lookup in Hmem as [k Hk].
      destruct (ids !! k) as [id|] eqn:Hid.
      * exists k, id. split; [done|]. split; [done|].
        by apply (resolve_into_member _ _ _ k a u id).
      * apply lookup_ge_None in Hid. apply lookup_lt_Some in Hk. lia.
    + intros a Hnone. apply resolve_into_other. intros Hin.
      apply list_elem_of_fmap in Hin as ([a' u] & -> & Hin).
      apply member_usernames_elem in Hin as [_ Hv]. by destruct (Hnone u).
  - intros values ids Hvalue mus Hlen Hids.
    destruct (range_values_rewritten values 0 ops w w ∅ ids)
      as (w' & Hrun & Hnet & Hload).
    { intros a. unfold rewritten. by rewrite lookup_empty. }
    { intros a id Ha. by rewrite lookup_empty in Ha. }
    { exact Hlen. }
    { exact Hids. }
    exists w'. split; [|split; [done|split; [done|]]].
    + by rewrite (UpdateGroup_op_add _ _ _ _ Hop Hadd Hpath), Hvalue.
    + intros a Hnone. rewrite Hload. unfold rewritten.
      destruct (written_ids ∅ (member_usernames w values) ids !! a)
        as [id|] eqn:Hw; [|done].
      apply written_ids_elem in Hw as [Hw|Hin];
        [by rewrite lookup_empty in Hw|].
      apply list_elem_of_fmap in Hin as ([a' u] & -> & Hin).
      apply member_usernames_elem in Hin as [_ Hv]. by destruct (Hnone u).
  - intros name r ops' w' t1 u h b Hrun Hnet.
    destruct (UpdateGroup_sent _ _ _ _ _ _ _ _ _ _ Hrun Hnet) as [Hb Hops].
    split; [done|]. destruct (Hops _ _ Hop) as (op' & Hop' & Hpatched).
    unfold patched in Hpatched.
    rewrite decide_False in Hpatched; [by subst|].
    rewrite Hadd. by intros [? _].
Qed.

End AddClaimStatement.

Lemma C2_add_members_resolved_witness :
  (∃ w',
     UpdateGroup_op (H := Double.env_patch) 0
       ([Double.add_members
           (VSlice [VMap 1%positive; VString "carol"; VMap 2%positive])],
        Double.w_members)
     = (Ok tt,
        ([Double.add_members
            (VSlice [VMap 1%positive; VString "carol"; VMap 2%positive])], w'))
     ∧ world.net w' = [CallGetUserId "alice"]
     ∧ world.load 1%positive w' = {[ "value" := VString "u-1" ]}
     ∧ world.load 2%positive w' = Double.display_map)
  ∧ (∃ w',
       UpdateGroup_op (H := Double.env_patch_chained) 0
         ([Double.add_members
             (VSlice [VMap 1%positive; VMap 2%positive; VMap 1%positive])],
          Double.w_members)
       = (Ok tt,
          ([Double.add_members
              (VSlice [VMap 1%positive; VMap 2%positive; VMap 1%positive])],
           w'))
       ∧ world.net w' = [CallGetUserId "alice"; CallGetUserId "u-1"]
       ∧ world.load 1%positive w' = {[ "value" := VString "x-9" ]}
       ∧ world.load 2%positive w' = Double.display_map).
Proof.
  destruct (C2_add_members_resolved (H := Double.env_patch) 0
              (Double.add_members
                 (VSlice [VMap 1%positive; VString "carol"; VMap 2%positive]))
              [Double.add_members
                 (VSlice [VMap 1%positive; VString "carol"; VMap 2%positive])]
              Double.w_members eq_refl eq_refl eq_refl) as (_ & Hlist & _).
  destruct (C2_add_members_resolved (H := Double.env_patch_chained) 0
              (Double.add_members
                 (VSlice [VMap 1%positive; VMap 2%positive; VMap 1%positive]))
              [Double.add_members
                 (VSlice [VMap 1%positive; VMap 2%positive; VMap 1%positive])]
              Double.w_members eq_refl eq_refl eq_refl) as (_ & _ & Hany & _).
  split.
  - destruct (Hlist [VMap 1%positive; VString "carol"; VMap 2%positive] ["u-1"]
                eq_refl) as (w' & Hrun & Hnet & Hres & Hskip).
    + vm_compute. apply NoDup_singleton.
    + vm_compute. reflexivity.
    + intros [|k] a u id Hk Hid; [|vm_compute in Hk; discriminate].
      vm_compute in Hk. injection Hk as <- <-. injection Hid as <-.
      reflexivity.
    + exists w'. split; [exact Hrun|]. split; [exact Hnet|]. split.
      * destruct (Hres 1%positive "alice") as (k & id & Hk & Hid & Hload).
        -- by left.
        -- vm_compute. reflexivity.
        -- destruct k as [|k]; [|vm_compute in Hk; discriminate].
           injection Hid as <-. rewrite Hload. vm_compute. reflexivity.
      * rewrite Hskip; [reflexivity|]. intros u. vm_compute. discriminate.
  - destruct (Hany [VMap 1%positive; VMap 2%positive; VMap 1%positive]
                ["u-1"; "x-9"] eq_refl)
      as (w' & Hrun & Hnet & Hload & Hskip).
    + vm_compute. reflexivity.
    + intros [|[|k]] u id Hk Hid; vm_compute in Hk; try discriminate;
        injection Hk as <-; injection Hid as <-; reflexivity.
    + exists w'. split; [exact Hrun|]. split; [exact Hnet|]. split.
      * rewrite Hload. vm_compute. reflexivity.
      * rewrite Hskip; [reflexivity|]. intros u. vm_compute. discriminate.
Defined.

(** C2 as stated fails when one map object occurs twice in the list: it
    is resolved twice, the second time on the ID written the first time,
    and the request goes out with neither element holding the resolver's
    answer for [alice]. *)
Lemma C2_shared_map_resolved_twice :
  @getUserId Double.env_patch_chained [] "alice" = Ok "u-1"
  ∧ (UpdateGroup (H := Double.env_patch_chained) "Engineers"
       ([Double.add_members (VSlice [VMap 1%positive; VMap 1%positive])],
        Double.w_members)).1 = Ok tt
  ∧ world.load 1%positive
      (UpdateGroup (H := Double.env_patch_chained) "Engineers"
         ([Double.add_members (VSlice [VMap 1%positive; VMap 1%positive])],
          Double.w_members)).2.2 !! "value"
    = Some (VString "x-9")
  ∧ world.load 1%positive
      (UpdateGroup (H := Double.env_patch_chained) "Engineers"
         ([Double.add_members (VSlice [VMap 1%positive; VMap 1%positive])],
          Double.w_members)).2.2 !! "value"
    ≠ Some (VString "u-1")
  ∧ is_http <$>
      world.net
        (UpdateGroup (H := Double.env_patch_chained) "Engineers"
           ([Double.add_members (VSlice [VMap 1%positive; VMap 1%positive])],
            Double.w_members)).2.2
    = [true; false; false; true].
Proof.
  split; [by vm_compute|]. split; [by vm_compute|]. split; [by vm_compute|].
  split; [vm_compute; discriminate|]. by vm_compute.
Qed.
(** ** The capture of [extractUsernameFromPath], for every path *)

Section Extraction.

Lemma append_nil_r (s : string) : s +:+ EmptyString = s.
Proof.
  induction s as [|c s IH]; [done|].
  change (String c s +:+ EmptyString) with (String c (s +:+ EmptyString)).
  by rewrite IH.
Qed.

Lemma append_assoc (s t u : string) : (s +:+ t) +:+ u = s +:+ t +:+ u.
Proof.
  induction s as [|c s IH]; [done|].
  change (String c (s +:+ t) +:+ u = String c (s +:+ t +:+ u)).
  change (String c ((s +:+ t) +:+ u) = String c (s +:+ t +:+ u)).
  by rewrite IH.
Qed.

Lemma strip_prefix_Some lit : ∀ s rest,
  strip_prefix lit s = Some rest -> s = lit +:+ rest.
Proof.
  induction lit as [|a lit IH]; intros s rest Hs; simpl in Hs.
  - by injection Hs as ->.
  - destruct s as [|b s]; [done|].
    destruct (Ascii.eqb a b) eqn:Hab; [|done].
    apply Ascii.eqb_eq in Hab as ->.
    change (String b s = String b (lit +:+ rest)). f_equal. by apply IH.
Qed.

Lemma strip_prefix_app lit rest : strip_prefix lit (lit +:+ rest) = Some rest.
Proof.
  induction lit as [|a lit IH]; [done|].
  change (strip_prefix (String a lit) (String a (lit +:+ rest)) = Some rest).
  simpl. by rewrite Ascii.eqb_refl.
Qed.

(** The run of bytes before the first quote, and what follows it. *)
Lemma non_quotes_split (s : string) :
  has_byte (Ascii.ascii_of_nat 34) (non_quotes s) = false
  ∧ ∃ rest, s = non_quotes s +:+ rest
            ∧ (rest = EmptyString ∨ ∃ rest', rest = dquote +:+ rest').
Proof.
  induction s as [|c s [IHq (rest & IHs & IHr)]]; simpl.
  - split; [done|]. exists EmptyString. split; [done|]. by left.
  - unfold is_quote. destruct (Ascii.eqb c (Ascii.ascii_of_nat 34)) eqn:Hc.
    + split; [done|]. exists (String c s). split; [done|]. right.
      apply Ascii.eqb_eq in Hc as ->. by exists s.
    + split.
      * simpl. fold (has_byte (Ascii.ascii_of_nat 34)). by rewrite Hc, IHq.
      * exists rest. split; [|done].
        change (String c s = String c (non_quotes s +:+ rest)). by f_equal.
Qed.

Lemma capture_Some s g :
  capture s = Some g -> g = non_quotes s ∧ g ≠ EmptyString.
Proof.
  unfold capture. destruct (non_quotes s) eqn:Hs; [done|].
  by intros [= <-].
Qed.

(** The pattern at the start of [s] reads its capture after the literal
    and one optional quote. *)
Lemma match_here_after_quote s :
  match_here s
  = match strip_prefix "value eq " s with
    | Some rest => capture (after_quote rest)
    | None => None
    end.
Proof.
  unfold match_here. destruct (strip_prefix "value eq " s) as [rest|]; [|done].
  destruct rest as [|c rest]; [done|]. unfold after_quote.
  destruct (is_quote c) eqn:Hc.
  - destruct (capture rest) eqn:Hcap; [done|].
    unfold capture. simpl. by rewrite Hc.
  - done.
Qed.

(** A match found is a match of the pattern at some position. *)
Lemma FindStringSubmatch_Some s : ∀ g,
  FindStringSubmatch s = Some g ->
  ∃ pre s', s = pre +:+ s' ∧ match_here s' = Some g.
Proof.
  induction s as [|c s IH]; intros g Hg.
  - cbn [FindStringSubmatch] in Hg.
    destruct (match_here EmptyString) eqn:Hh; [|done].
    exists EmptyString, EmptyString. split; [done|]. by rewrite Hh.
  - cbn [FindStringSubmatch] in Hg.
    destruct (match_here (String c s)) as [g'|] eqn:Hh.
    + exists EmptyString, (String c s). split; [done|]. by rewrite Hh.
    + destruct (IH _ Hg) as (pre & s' & -> & Hs').
      by exists (String c pre), s'.
Qed.

(** A position at which the pattern matches makes the search succeed,
    there or before. *)
Lemma FindStringSubmatch_found pre : ∀ s g,
  match_here s = Some g -> ∃ g', FindStringSubmatch (pre +:+ s) = Some g'.
Proof.
  induction pre as [|c pre IH]; intros s g Hs.
  - exists g. by apply FindStringSubmatch_here.
  - change (String c pre +:+ s) with (String c (pre +:+ s)).
    cbn [FindStringSubmatch].
    destruct (match_here (String c (pre +:+ s))) as [g'|]; [by exists g'|].
    by apply (IH s g).
Qed.

Lemma extract_empty_None path :
  extractUsernameFromPath path = EmptyString <-> FindStringSubmatch path = None.
Proof.
  unfold extractUsernameFromPath.
  destruct (FindStringSubmatch path) as [g|] eqn:Hg; [|done].
  split; [|done]. intros ->.
  destruct (FindStringSubmatch_Some _ _ Hg) as (pre & s' & _ & Hs').
  rewrite match_here_after_quote in Hs'.
  destruct (strip_prefix _ s'); [|done].
  by apply capture_Some in Hs' as [_ ?].
Qed.

(** X1.  Whatever the path, the username that [extractUsernameFromPath]
    returns holds no double quote; when it is not empty, the path reads
    [value eq ], then at most one quote, then the username, and the
    username runs to the next quote or to the end of the path. *)
Theorem X1_extract_shape (path : string) :
  let name := extractUsernameFromPath path in
  has_byte (Ascii.ascii_of_nat 34) name = false
  ∧ (name = EmptyString
     ∨ ∃ pre q rest,
         path = pre +:+ "value eq " +:+ q +:+ name +:+ rest
         ∧ (q = EmptyString ∨ q = dquote)
         ∧ (rest = EmptyString ∨ ∃ rest', rest = dquote +:+ rest')).
Proof.
  simpl. unfold extractUsernameFromPath.
  destruct (FindStringSubmatch path) as [g|] eqn:Hg; [|by split; [|left]].
  destruct (FindStringSubmatch_Some _ _ Hg) as (pre & s' & -> & Hs').
  rewrite match_here_after_quote in Hs'.
  destruct (strip_prefix "value eq " s') as [rest0|] eqn:Hstrip; [|done].
  apply strip_prefix_Some in Hstrip as ->.
  apply capture_Some in Hs' as [-> Hne].
  destruct (non_quotes_split (after_quote rest0)) as [Hq (rest & Hsplit & Hrest)].
  split; [done|]. right.
  destruct rest0 as [|c rest0]; [done|]. unfold after_quote in *.
  unfold is_quote in *.
  destruct (Ascii.eqb c (Ascii.ascii_of_nat 34)) eqn:Hc.
  - apply Ascii.eqb_eq in Hc as ->.
    exists pre, dquote, rest. split; [|split; [by right|done]].
    rewrite Hsplit at 1. done.
  - exists pre, EmptyString, rest. split; [|split; [by left|done]].
    rewrite Hsplit at 1. done.
Qed.

(** X2.  [extractUsernameFromPath] returns the empty string exactly when
    the pattern matches nowhere: wherever the path reads [value eq ], what
    follows is nothing, a lone quote that ends the path, or two quotes. *)
Theorem X2_extract_empty (path : string) :
  extractUsernameFromPath path = EmptyString
  <-> ∀ pre rest,
        path = pre +:+ "value eq " +:+ rest ->
        rest = EmptyString ∨ rest = dquote
        ∨ ∃ rest', rest = dquote +:+ dquote +:+ rest'.
Proof.
  rewrite extract_empty_None. split.
  - intros Hnone pre rest ->.
    destruct (match_here ("value eq " +:+ rest)) as [g|] eqn:Hh.
    { destruct (FindStringSubmatch_found pre _ _ Hh) as [g' Hg'].
      by rewrite Hnone in Hg'. }
    rewrite match_here_after_quote, strip_prefix_app in Hh.
    destruct rest as [|c rest]; [by left|]. right.
    unfold after_quote, capture, is_quote in Hh.
    destruct (Ascii.eqb c (Ascii.ascii_of_nat 34)) eqn:Hc.
    + apply Ascii.eqb_eq in Hc as ->.
      destruct rest as [|c' rest]; [by left|]. right.
      simpl in Hh. unfold is_quote in Hh.
      destruct (Ascii.eqb c' (Ascii.ascii_of_nat 34)) eqn:Hc'; [|done].
      apply Ascii.eqb_eq in Hc' as ->. by exists rest.
    + simpl in Hh. unfold is_quote in Hh. by rewrite Hc in Hh.
  - intros Hall. destruct (FindStringSubmatch path) as [g|] eqn:Hg; [|done].
    destruct (FindStringSubmatch_Some _ _ Hg) as (pre & s' & -> & Hs').
    rewrite match_here_after_quote in Hs'.
    destruct (strip_prefix "value eq " s') as [rest|] eqn:Hstrip; [|done].
    apply strip_prefix_Some in Hstrip as ->.
    destruct (Hall pre rest eq_refl) as [->|[->|[rest' ->]]]; done.
Qed.

End Extraction.
(** ** The canonical path, read again *)

Section Reread.

Context `{Env}.

(** X3.  The path that [UpdateGroup] writes for an ID (not empty, no
    quote in it) is read back by [extractUsernameFromPath] as that ID.
    So a remove operation that was rewritten already, met by the loop
    again, has its ID handed to the resolver as a username, and its path
    rewritten for what the resolver answers. *)
Theorem X3_canonical_path_read_back (id : string) :
  id ≠ EmptyString ->
  has_byte (Ascii.ascii_of_nat 34) id = false ->
  extractUsernameFromPath (removePath id) = id
  ∧ ∀ i op ops w,
      ops !! i = Some op ->
      GroupSCIMOpEntry.Op op = "remove" ->
      GroupSCIMOpEntry.Path op = removePath id ->
      UpdateGroup_op i (ops, w) =
        match getUserId (world.net w) id with
        | Ok id' =>
            (Ok tt,
             (<[i := GroupSCIMOpEntry.mk "remove" (removePath id')
                       (GroupSCIMOpEntry.Value op)]> ops,
              world.log (CallGetUserId id) w))
        | Err x =>
            (Err (resolveError id x), (ops, world.log (CallGetUserId id) w))
        | Panic => (Panic, (ops, world.log (CallGetUserId id) w))
        end.
Proof.
  intros Hne Hq.
  assert (Hback : extractUsernameFromPath (removePath id) = id).
  { unfold removePath.
    apply (extract_comparator "members[" dquote id (dquote +:+ "]"));
      try done; [by right|]. right. by exists "]". }
  split; [done|]. intros i op ops w Hop Hremove Hpath.
  rewrite (UpdateGroup_op_remove _ _ _ _ Hop Hremove). simpl.
  rewrite Hpath, Hback. by rewrite decide_True by done.
Qed.

End Reread.

Lemma X3_canonical_path_read_back_witness :
  extractUsernameFromPath (removePath "u-1") = "u-1"
  ∧ UpdateGroup_op (H := Double.env_patch_chained) 0
      ([Double.remove (removePath "u-1")], Double.w0)
    = (Ok tt, ([Double.remove (removePath "x-9")],
               world.log (CallGetUserId "u-1") Double.w0)).
Proof.
  destruct (X3_canonical_path_read_back (H := Double.env_patch_chained) "u-1")
    as [Hback Hop]; [done|reflexivity|].
  split; [exact Hback|].
  rewrite (Hop 0 (Double.remove (removePath "u-1"))
             [Double.remove (removePath "u-1")] Double.w0
             eq_refl eq_refl eq_refl).
  vm_compute. reflexivity.
Defined.

(** ** Failures of the transport and of the lookup *)

Section Failures.

Context `{Env}.

(** X4.  When the transport returns an error for the request that
    follows the lookup or the resolver loop, the call ends with that
    error, whatever response came with it, and that request is its last
    interaction: [GetGroup], [GetGroups] and [CreateGroup] return the
    error as it is, [DeleteGroup] and [UpdateGroup] behind their own
    prefix. *)
Theorem X4_transport_error_returned (resp : option Response.t) (e : error) :
  (∀ name w id w1,
     getGroupId name w = (Ok id, w1) ->
     Clientx.Get client (world.net w1) (url_Parse (groupURL id))
       GetGroup_headers = (resp, Some e) ->
     GetGroup name w
     = (Err e, world.log (CallGet (url_Parse (groupURL id)) GetGroup_headers) w1))
  ∧ (∀ sort count w,
       Clientx.Get client (world.net w) (GetGroups_URL sort count)
         GetGroups_headers = (resp, Some e) ->
       GetGroups sort count w
       = (Err e,
          world.log (CallGet (GetGroups_URL sort count) GetGroups_headers) w))
  ∧ (∀ g w g1 w1 b,
       range_loop (length (Group.Members g)) 0 CreateGroup_member (g, w)
         = (Ok tt, (g1, w1)) ->
       json_Marshal_Group g1 = Ok b ->
       Clientx.Post client (world.net w1) (url_Parse groupsURL)
         CreateGroup_headers b = (resp, Some e) ->
       CreateGroup (g, w)
       = (Err e,
          (g1, world.log (CallPost (url_Parse groupsURL) CreateGroup_headers b)
                 w1)))
  ∧ (∀ name w id w1,
       getGroupId name w = (Ok id, w1) ->
       Clientx.Delete client (world.net w1) (url_Parse (groupURL id))
         DeleteGroup_headers = (resp, Some e) ->
       DeleteGroup name w
       = (Err ("unable to delete the Group; err=" +:+ e),
          world.log (CallDelete (url_Parse (groupURL id)) DeleteGroup_headers)
            w1))
  ∧ (∀ name ops w id w1 ops2 w2 b,
       getGroupId name w = (Ok id, w1) ->
       range_loop (length ops) 0 UpdateGroup_op (ops, w1)
         = (Ok tt, (ops2, w2)) ->
       json_Marshal_PatchRequest (world.heap w2)
         (GroupSCIMPatchRequest.mk patchSchemas ops2) = Ok b ->
       Clientx.Patch client (world.net w2) (url_Parse (groupURL id))
         UpdateGroup_headers b = (resp, Some e) ->
       UpdateGroup name (ops, w)
       = (Err ("unable to update group; err=" +:+ e),
          (ops2,
           world.log (CallPatch (url_Parse (groupURL id)) UpdateGroup_headers b)
             w2))).
Proof.
  repeat split.
  - intros name w id w1 Hl Hget. by rewrite (GetGroup_run _ _ _ _ _ _ Hl Hget).
  - intros sort count w Hget. by rewrite (GetGroups_run _ _ _ _ _ Hget).
  - intros g w g1 w1 b Hloop Hb Hpost.
    by rewrite (CreateGroup_run _ _ _ _ _ _ _ Hloop Hb Hpost).
  - intros name w id w1 Hl Hdel.
    by rewrite (DeleteGroup_run _ _ _ _ _ _ Hl Hdel).
  - intros name ops w id w1 ops2 w2 b Hl Hloop Hb Hpatch.
    by rewrite (UpdateGroup_run _ _ _ _ _ _ _ _ _ _ Hl Hloop Hb Hpatch).
Qed.

(** X5.  When the lookup is answered with a status other than 200 that
    the classifier recognises, the body is not decoded: the lookup fails
    with the classifier's error behind its own prefix, whatever the body
    holds.  [GetGroup] returns that error as it is, [DeleteGroup] and
    [UpdateGroup] behind a second prefix; the lookup request is the only
    interaction and the operations are not touched. *)
Theorem X5_lookup_classified_error (name : string) (w : world.t)
    (r : Response.t) (e0 : option error) (err : error) :
  Clientx.Get client (world.net w) (getGroupId_URL name) getGroupId_headers
    = (Some r, e0) ->
  Response.StatusCode r ≠ 200%Z ->
  HandleCommonErrors r "unable to get Group" = Some err ->
  let w1 := world.log (lookupCall name) w in
  let msg := "unable to get the Group with groupName " +:+ name
             +:+ "; err=" +:+ err in
  getGroupId name w = (Err msg, w1)
  ∧ GetGroup name w = (Err msg, w1)
  ∧ DeleteGroup name w = (Err ("unable to get the group ID; err=" +:+ msg), w1)
  ∧ ∀ ops, UpdateGroup name (ops, w)
           = (Err ("unable to get the group ID; err=" +:+ msg), (ops, w1)).
Proof.
  intros Hget Hstatus Hcls w1 msg.
  assert (Hl : getGroupId name w = (Err msg, w1)).
  { rewrite (getGroupId_run _ _ _ _ Hget).
    rewrite decide_True by done. by rewrite Hcls. }
  split; [done|]. split; [by apply GetGroup_lookup_fails|].
  split; [by apply DeleteGroup_lookup_fails|].
  intros ops. by apply UpdateGroup_lookup_fails.
Qed.

End Failures.

Lemma X4_transport_error_returned_witness :
  (DeleteGroup (H := Cases.env_reset) "Engineers" Double.w0).1
    = Err "unable to delete the Group; err=connection reset"
  ∧ (UpdateGroup (H := Cases.env_reset) "Engineers" ([], Double.w0)).1
    = Err "unable to update group; err=connection reset"
  ∧ (GetGroup (H := Cases.env_reset) "Engineers" Double.w0).1
    = Err "connection reset"
  ∧ (CreateGroup (H := Cases.env_reset_at_once)
       (Double.group ["alice"], Double.w0)).1
    = Err "connection reset".
Proof.
  destruct (X4_transport_error_returned (H := Cases.env_reset)
              (Some (Response.mk 204 EmptyString)) "connection reset")
    as (Hget & _ & _ & Hdelete & Hpatch).
  destruct (X4_transport_error_returned (H := Cases.env_reset_at_once)
              (Some (Response.mk 201 Double.body_created)) "connection reset")
    as (_ & _ & Hcreate & _).
  split; [|split; [|split]].
  - erewrite Hdelete; [reflexivity| |]; vm_compute; reflexivity.
  - erewrite Hpatch; [reflexivity| | | |]; vm_compute; reflexivity.
  - erewrite Hget; [reflexivity| |]; vm_compute; reflexivity.
  - erewrite Hcreate; [reflexivity| | |]; vm_compute; reflexivity.
Defined.

Lemma X5_lookup_classified_error_witness :
  DeleteGroup (H := Cases.env_lookup_404) "Engineers" Double.w0
  = (Err ("unable to get the group ID; err="
          +:+ "unable to get the Group with groupName Engineers; err=NotFound"),
     world.log (lookupCall (H := Cases.env_lookup_404) "Engineers") Double.w0).
Proof.
  destruct (X5_lookup_classified_error (H := Cases.env_lookup_404)
              "Engineers" Double.w0 (Response.mk 404 Double.body_one_group)
              None "NotFound") as (_ & _ & Hdelete & _).
  - vm_compute. reflexivity.
  - vm_compute. discriminate.
  - reflexivity.
  - exact Hdelete.
Defined.
(** ** The requests of the lookup, of [GetGroup] and of [DeleteGroup] *)

Section Requests.

Context `{Env}.

(** X6.  For a tenant host name (no ['?'] and no ['#'] in it), the
    lookup asks the collection URL with one query parameter, [filter],
    whose value is [displayName eq Q<name>Q] ([Q] the double quote) with
    the name as given, escaped for the query only; this one GET is all
    that the lookup exchanges, however it ends. *)
Theorem X6_lookup_request (name : string) (w : world.t) :
  has_byte "?" (AuthConfig.Tenant auth) = false ->
  has_byte "#" (AuthConfig.Tenant auth) = false ->
  let query :=
    url_QueryEscape "filter" +:+ "="
    +:+ url_QueryEscape ("displayName eq " +:+ dquote +:+ name +:+ dquote) in
  getGroupId_URL name = URL.mk groupsURL false query EmptyString
  ∧ URL.String_ (getGroupId_URL name) = groupsURL +:+ "?" +:+ query
  ∧ world.net (getGroupId name w).2
    = world.net w ++ [CallGet (getGroupId_URL name) getGroupId_headers]
  ∧ world.heap (getGroupId name w).2 = world.heap w.
Proof.
  intros Hq Hf query.
  assert (Hu : getGroupId_URL name = URL.mk groupsURL false query EmptyString).
  { unfold getGroupId_URL. rewrite (url_Parse_groupsURL Hq Hf).
    unfold URL_Query, query, getGroupId_filter. simpl.
    vm_compute. reflexivity. }
  split; [exact Hu|]. split; [|by rewrite getGroupId_world].
  rewrite Hu. unfold URL.String_. simpl.
  rewrite bool_decide_eq_false_2.
  - simpl. by rewrite append_nil_r.
  - unfold query. destruct (url_QueryEscape "filter"); discriminate.
Qed.

Lemma DeleteGroup_lookup_panics name w w1 :
  getGroupId name w = (Panic, w1) -> DeleteGroup name w = (Panic, w1).
Proof. intros Hl. unfold DeleteGroup. run. by rewrite Hl. Qed.

Lemma GetGroup_lookup_panics name w w1 :
  getGroupId name w = (Panic, w1) -> GetGroup name w = (Panic, w1).
Proof. intros Hl. unfold GetGroup. run. by rewrite Hl. Qed.

(** X7.  [DeleteGroup] sends its DELETE exactly when the lookup returned
    an ID, once, to the URL of that ID, and after the lookup request;
    it exchanges nothing else.  It returns no error only when that DELETE
    was answered, without a transport error, with status 204. *)
Theorem X7_DeleteGroup_requests (name : string) (w : world.t) :
  world.net (DeleteGroup name w).2
  = world.net w ++ lookupCall name ::
      match (getGroupId name w).1 with
      | Ok id => [CallDelete (url_Parse (groupURL id)) DeleteGroup_headers]
      | _ => []
      end
  ∧ ((DeleteGroup name w).1 = Ok tt ->
     ∃ id r,
       (getGroupId name w).1 = Ok id
       ∧ Clientx.Delete client (world.net w ++ [lookupCall name])
           (url_Parse (groupURL id)) DeleteGroup_headers = (Some r, None)
       ∧ Response.StatusCode r = 204%Z).
Proof.
  destruct (getGroupId name w) as [r0 w1] eqn:Hl.
  assert (Hw1 : w1 = world.log (lookupCall name) w).
  { by rewrite <- (getGroupId_world name w), Hl. }
  destruct r0 as [id|e0|]; simpl.
  - destruct (Clientx.Delete client (world.net w1) (url_Parse (groupURL id))
                DeleteGroup_headers) as [resp err] eqn:Hdel.
    rewrite (DeleteGroup_run _ _ _ _ _ _ Hl Hdel). simpl.
    split; [rewrite Hw1; simpl; by rewrite <- (assoc_L (++))|].
    intros Hok. destruct err as [e|]; [done|].
    destruct resp as [r|]; [|done].
    exists id, r. split; [done|]. rewrite Hw1 in Hdel. simpl in Hdel.
    split; [done|].
    destruct (decide (Response.StatusCode r ≠ 204%Z)) as [Hne|Heq].
    + by destruct (HandleCommonErrors r _).
    + by apply dec_stable.
  - rewrite (DeleteGroup_lookup_fails _ _ _ _ Hl). simpl.
    split; [by rewrite Hw1|done].
  - rewrite (DeleteGroup_lookup_panics _ _ _ Hl). simpl.
    split; [by rewrite Hw1|done].
Qed.

(** X8.  [GetGroup] sends GET requests only: the lookup and, exactly
    when the lookup returned an ID, one GET of the URL of that ID.  A
    group is returned only for a 200 answer to that GET, decoded from its
    body, together with the text of the URL that was asked. *)
Theorem X8_GetGroup_requests (name : string) (w : world.t) :
  world.net (GetGroup name w).2
  = world.net w ++ lookupCall name ::
      match (getGroupId name w).1 with
      | Ok id => [CallGet (url_Parse (groupURL id)) GetGroup_headers]
      | _ => []
      end
  ∧ (∀ g s,
       (GetGroup name w).1 = Ok (g, s) ->
       ∃ id r,
         (getGroupId name w).1 = Ok id
         ∧ Clientx.Get client (world.net w ++ [lookupCall name])
             (url_Parse (groupURL id)) GetGroup_headers = (Some r, None)
         ∧ Response.StatusCode r = 200%Z
         ∧ json_Unmarshal_Group (Response.Body r) = Some g
         ∧ s = URL.String_ (url_Parse (groupURL id))).
Proof.
  destruct (getGroupId name w) as [r0 w1] eqn:Hl.
  assert (Hw1 : w1 = world.log (lookupCall name) w).
  { by rewrite <- (getGroupId_world name w), Hl. }
  destruct r0 as [id|e0|]; simpl.
  - destruct (Clientx.Get client (world.net w1) (url_Parse (groupURL id))
                GetGroup_headers) as [resp err] eqn:Hget.
    rewrite (GetGroup_run _ _ _ _ _ _ Hl Hget). simpl.
    split; [rewrite Hw1; simpl; by rewrite <- (assoc_L (++))|].
    intros g s Hok. destruct err as [e|]; [done|].
    destruct resp as [r|]; [|done].
    exists id, r. split; [done|]. rewrite Hw1 in Hget. simpl in Hget.
    split; [done|].
    destruct (decide (Response.StatusCode r ≠ 200%Z)) as [Hne|Heq]; [done|].
    split; [by apply dec_stable|].
    destruct (json_Unmarshal_Group (Response.Body r)) as [g'|]; [|done].
    by injection Hok as -> ->.
  - rewrite (GetGroup_lookup_fails _ _ _ _ Hl). simpl.
    split; [by rewrite Hw1|done].
  - rewrite (GetGroup_lookup_panics _ _ _ Hl). simpl.
    split; [by rewrite Hw1|done].
Qed.

End Requests.

Lemma X6_lookup_request_witness :
  URL.String_ (getGroupId_URL (H := Cases.env_found_204) "Engineers")
  = "https://tenant/v2.0/Groups?filter=displayName eq "
    +:+ dquote +:+ "Engineers" +:+ dquote.
Proof.
  destruct (X6_lookup_request (H := Cases.env_found_204) "Engineers" Double.w0)
    as (_ & Hs & _); [reflexivity|reflexivity|].
  rewrite Hs. vm_compute. reflexivity.
Defined.
(** ** What a run keeps, however it ends *)

Section Keeps.

Context {St : Type} (R : St -> St -> Prop) `{!PreOrder R}.

Lemma keeps_ret {A} (a : A) : keeps R (ret a).
Proof. intros s. reflexivity. Qed.

Lemma keeps_fail {A} (e : error) : keeps R (fail (A := A) e).
Proof. intros s. reflexivity. Qed.

Lemma keeps_panic {A} : keeps R (panic (A := A)).
Proof. intros s. reflexivity. Qed.

Lemma keeps_lib {A} (r : outcome A) : keeps R (lib r).
Proof. intros s. reflexivity. Qed.

Lemma keeps_deref {A} (p : option A) : keeps R (deref p).
Proof. destruct p; [apply keeps_ret|apply keeps_panic]. Qed.

Lemma keeps_get : keeps R get.
Proof. intros s. reflexivity. Qed.

Lemma keeps_bind {A B} (m : M St A) (k : A -> M St B) :
  keeps R m -> (∀ a, keeps R (k a)) -> keeps R (bind m k).
Proof.
  intros Hm Hk s. unfold bind. specialize (Hm s).
  destruct (m s) as [[a|e|] s1]; simpl in *; try done.
  transitivity s1; [done|apply Hk].
Qed.

Lemma keeps_wrap_err {A} (f : error -> error) (m : M St A) :
  keeps R m -> keeps R (wrap_err f m).
Proof.
  intros Hm s. unfold wrap_err. specialize (Hm s).
  by destruct (m s) as [[a|e|] s1].
Qed.

Lemma keeps_range_loop (body : nat -> M St unit) n : ∀ i,
  (∀ i, keeps R (body i)) -> keeps R (range_loop n i body).
Proof.
  induction n as [|n IH]; intros i Hbody; simpl; [apply keeps_ret|].
  apply keeps_bind; [done|]. intros _. by apply IH.
Qed.

Lemma keeps_range_values {A} (body : nat -> A -> M St unit) values : ∀ j,
  (∀ j v, keeps R (body j v)) -> keeps R (range_values values j body).
Proof.
  induction values as [|v values IH]; intros j Hbody; simpl; [apply keeps_ret|].
  apply keeps_bind; [done|]. intros _. by apply IH.
Qed.

End Keeps.

Lemma keeps_lift {X St A} (R : X * St -> X * St -> Prop) (Rw : St -> St -> Prop)
    (m : M St A) :
  (∀ x w w', Rw w w' -> R (x, w) (x, w')) ->
  keeps Rw m -> keeps R (lift m).
Proof.
  intros Hlift Hm [x w]. unfold lift. simpl. specialize (Hm w).
  destruct (m w) as [r w']. simpl in *. by apply Hlift.
Qed.
(** ** The frame of the two writes *)

Section Frames.

Context `{Env}.

#[local] Instance same_member_po : PreOrder same_member.
Proof.
  split.
  - by intros [].
  - intros [] [] [] Hxy Hyz. unfold same_member, Member.with_Value in *.
    simpl in *. congruence.
Qed.

#[local] Instance same_op_po : PreOrder same_op.
Proof.
  split.
  - intros op. repeat split. by left.
  - intros op1 op2 op3 (Hop & Hv & Hp) (Hop' & Hv' & Hp').
    split; [congruence|]. split; [congruence|].
    destruct Hp' as [Hp'|(Hr & Hu & id & Hid)].
    + destruct Hp as [Hp|(Hr & Hu & id & Hid)]; [left; congruence|].
      right. repeat split; try done. exists id. congruence.
    + right. split; [congruence|]. split; [|by exists id].
      destruct Hp as [Hp|(_ & Hu' & _)]; [by rewrite <- Hp|done].
Qed.

#[local] Instance same_maps_po : PreOrder same_maps.
Proof.
  split.
  - intros w. repeat split; try done. intros a u Hu. by exists u.
  - intros w1 w2 w3 (Hk & Hn & Hs) (Hk' & Hn' & Hs'). repeat split.
    + intros a k Hne. by rewrite Hk', Hk.
    + intros a Hnone. rewrite Hn'; [by apply Hn|].
      intros u. rewrite (Hn a Hnone). apply Hnone.
    + intros a u Hu. destruct (Hs a u Hu) as [u' Hu']. by apply (Hs' a u').
Qed.

#[local] Instance CreateGroup_frame_po : PreOrder CreateGroup_frame.
Proof.
  split.
  - intros [g w]. split; [by destruct g|]. split; reflexivity.
  - intros [g1 w1] [g2 w2] [g3 w3] (Hg & Hm & Hh) (Hg' & Hm' & Hh').
    simpl in *. split; [|split]; simpl.
    + rewrite Hg', Hg. done.
    + by transitivity (Group.Members g2).
    + by rewrite Hh', Hh.
Qed.

#[local] Instance UpdateGroup_frame_po : PreOrder UpdateGroup_frame.
Proof.
  split.
  - intros [ops w]. split; reflexivity.
  - intros [o1 w1] [o2 w2] [o3 w3] [Ho Hw] [Ho' Hw']. simpl in *.
    split; [by transitivity o2|by transitivity w2].
Qed.

Lemma Forall2_alter_self {A} (R : A -> A -> Prop) `{!Reflexive R}
    (f : A -> A) (l : list A) : ∀ i,
  (∀ x, l !! i = Some x -> R x (f x)) -> Forall2 R l (alter f i l).
Proof.
  induction l as [|y l IH]; intros i Hf; [constructor|].
  destruct i as [|i]; simpl.
  - constructor; [by apply Hf|reflexivity].
  - constructor; [reflexivity|]. apply IH. intros x Hx. by apply Hf.
Qed.

Lemma same_maps_log c w : same_maps w (world.log c w).
Proof. repeat split; try done. intros a u Hu. by exists u. Qed.

Lemma same_maps_store a u id w :
  world.load a w !! "value" = Some (VString u) ->
  same_maps w (world.store a "value" (VString id) w).
Proof.
  intros Ha. repeat split.
  - intros a' k Hk. destruct (decide (a = a')) as [<-|Hne].
    + by rewrite load_store_eq, lookup_insert_ne.
    + by rewrite load_store_ne.
  - intros a' Hnone. destruct (decide (a = a')) as [<-|Hne].
    + by destruct (Hnone u).
    + by rewrite load_store_ne.
  - intros a' u' Hu'. destruct (decide (a = a')) as [<-|Hne].
    + exists id. by rewrite load_store_eq, lookup_insert_eq.
    + exists u'. by rewrite load_store_ne.
Qed.

Lemma keeps_CreateGroup_member i : keeps CreateGroup_frame (CreateGroup_member i).
Proof.
  intros [g w]. unfold CreateGroup_member. run.
  destruct (Group.Members g !! i) as [m|] eqn:Hm; simpl; [|reflexivity].
  destruct (getUserId (world.net w) (Member.Value m)) as [id|e|]; simpl;
    try (split; [by destruct g|split; reflexivity]).
  split; [done|]. split; [|done].
  apply Forall2_alter_self; [apply _|]. by intros [].
Qed.

Lemma CreateGroup_frame_log x c w : CreateGroup_frame (x, w) (x, world.log c w).
Proof. split; [by destruct x|]. split; reflexivity. Qed.

Lemma keeps_UpdateGroup_member j v :
  keeps UpdateGroup_frame (UpdateGroup_member j v).
Proof.
  intros [ops w]. unfold UpdateGroup_member.
  destruct v; try reflexivity. run.
  destruct (world.load m w !! "value") as [[| | |u| | |]|] eqn:Hv;
    try reflexivity.
  simpl.
  destruct (getUserId (world.net w) u) as [id|e|]; simpl;
    try (split; [reflexivity|apply same_maps_log]).
  split; [reflexivity|]. simpl.
  transitivity (world.log (CallGetUserId u) w); [apply same_maps_log|].
  by apply (same_maps_store m u).
Qed.

Lemma keeps_UpdateGroup_op i : keeps UpdateGroup_frame (UpdateGroup_op i).
Proof.
  intros [ops w]. unfold UpdateGroup_op.
  unfold bind at 1. unfold get at 1. unfold bind at 1. simpl.
  destruct (ops !! i) as [op|] eqn:Hop; simpl; [|reflexivity].
  destruct (decide _) as [Hadd|Hadd].
  - destruct (GroupSCIMOpEntry.Value op); try reflexivity.
    apply (keeps_range_values UpdateGroup_frame). apply keeps_UpdateGroup_member.
  - destruct (decide _) as [Hremove|Hremove]; [|reflexivity].
    destruct (decide _) as [Hu|Hu]; [|reflexivity]. run.
    destruct (getUserId _ _) as [id|e|]; simpl;
      try (split; [reflexivity|apply same_maps_log]).
    split; [|apply same_maps_log]. simpl.
    apply Forall2_alter_self; [apply _|]. intros x Hx.
    assert (x = op) as -> by congruence.
    split; [done|]. split; [done|]. right. split; [done|]. split; [done|].
    by exists id.
Qed.

Lemma UpdateGroup_frame_log x c w : UpdateGroup_frame (x, w) (x, world.log c w).
Proof. split; [reflexivity|apply same_maps_log]. Qed.

(** X9.  However [UpdateGroup] ends (with success, an error or a panic),
    the caller's slice holds the same number of operations in the same
    order; each keeps its [op] and its payload; a path is either as it
    was or, for a remove operation from which a username was extracted,
    a canonical path.  In the map objects of the payloads only the entry
    [value] of a map that held a string there is ever written, with a
    string; every other entry and every other map reads as before. *)
Theorem X9_UpdateGroup_frame (name : string)
    (ops : list GroupSCIMOpEntry.t) (w : world.t) :
  Forall2 same_op ops (UpdateGroup name (ops, w)).2.1
  ∧ same_maps w (UpdateGroup name (ops, w)).2.2.
Proof.
  change (UpdateGroup_frame (ops, w) (UpdateGroup name (ops, w)).2).
  generalize (ops, w). clear ops w.
  change (keeps UpdateGroup_frame (UpdateGroup name)).
  unfold UpdateGroup.
  apply keeps_bind; [apply _| |intros groupID].
  { apply keeps_wrap_err. intros [ops w]. unfold lift. simpl.
    pose proof (getGroupId_world name w) as Hw.
    destruct (getGroupId name w) as [r w1]. simpl in *. subst w1.
    apply UpdateGroup_frame_log. }
  apply keeps_bind; [apply _|apply keeps_get; apply _|intros s0].
  apply keeps_bind;
    [apply _|apply keeps_range_loop; [apply _|apply keeps_UpdateGroup_op]|
     intros _].
  apply keeps_bind; [apply _|apply keeps_get; apply _|intros s].
  apply keeps_bind;
    [apply _|apply keeps_wrap_err; apply keeps_lib; apply _|intros b].
  apply keeps_bind; [apply _| |intros xy].
  { intros [ops w]. apply UpdateGroup_frame_log. }
  destruct xy.2; [apply keeps_fail; apply _|].
  apply keeps_bind; [apply _|apply keeps_deref; apply _|intros response].
  destruct (decide _); [apply keeps_fail; apply _|apply keeps_ret; apply _].
Qed.

(** X10.  However [CreateGroup] ends, the caller's group differs from
    what it was in the [Value] of its members at most: the members are
    as many, in the same order, each with its type, display name and
    reference, and every other field of the group is as it was.  No map
    object is written. *)
Theorem X10_CreateGroup_frame (g : Group.t) (w : world.t) :
  (CreateGroup (g, w)).2.1
    = Group.with_Members (Group.Members (CreateGroup (g, w)).2.1) g
  ∧ Forall2 same_member (Group.Members g)
      (Group.Members (CreateGroup (g, w)).2.1)
  ∧ world.heap (CreateGroup (g, w)).2.2 = world.heap w.
Proof.
  change (CreateGroup_frame (g, w) (CreateGroup (g, w)).2).
  generalize (g, w). clear g w.
  change (keeps CreateGroup_frame CreateGroup).
  unfold CreateGroup.
  apply keeps_bind; [apply _|apply keeps_get; apply _|intros s0].
  apply keeps_bind;
    [apply _|apply keeps_range_loop; [apply _|apply keeps_CreateGroup_member]|
     intros _].
  apply keeps_bind; [apply _|apply keeps_get; apply _|intros s].
  apply keeps_bind; [apply _|apply keeps_lib; apply _|intros b].
  apply keeps_bind; [apply _| |intros xy].
  { intros [g w]. apply CreateGroup_frame_log. }
  destruct xy.2; [apply keeps_fail; apply _|].
  apply keeps_bind; [apply _|apply keeps_deref; apply _|intros response].
  destruct (decide _); [apply keeps_fail; apply _|].
  apply keeps_bind;
    [apply _|apply keeps_wrap_err; apply keeps_lib; apply _|intros m].
  destruct (m !! "id") as [[]|];
    first [apply keeps_ret; apply _|apply keeps_panic; apply _].
Qed.

End Frames.
(** ** The requests of the two writes *)

Section Writes.

Context `{Env}.

(** X11.  [UpdateGroup] exchanges, in this order: the lookup request,
    resolver calls, and at most one PATCH, which goes to the URL of the
    ID that the lookup returned; nothing follows a lookup that fails,
    and success is returned only after a PATCH.  [CreateGroup] exchanges
    resolver calls and then at most one POST, to the collection URL; it
    returns a URL only after a POST. *)
Theorem X11_write_requests :
  (∀ name ops w, ∃ us post,
     world.net (UpdateGroup name (ops, w)).2.2
       = world.net w ++ lookupCall name :: calls us ++ post
     ∧ match (getGroupId name w).1 with
       | Ok id =>
           post = []
           ∨ ∃ b, post = [CallPatch (url_Parse (groupURL id))
                            UpdateGroup_headers b]
       | _ => us = [] ∧ post = []
       end
     ∧ ((UpdateGroup name (ops, w)).1 = Ok tt -> post ≠ []))
  ∧ (∀ g w, ∃ us post,
       world.net (CreateGroup (g, w)).2.2 = world.net w ++ calls us ++ post
       ∧ (post = []
          ∨ ∃ b, post = [CallPost (url_Parse groupsURL) CreateGroup_headers b])
       ∧ (∀ url, (CreateGroup (g, w)).1 = Ok url -> post ≠ [])).
Proof.
  split.
  - intros name ops w.
    destruct (getGroupId name w) as [r0 w1] eqn:Hl.
    assert (Hw1 : w1 = world.log (lookupCall name) w).
    { by rewrite <- (getGroupId_world name w), Hl. }
    destruct r0 as [id|e0|]; simpl.
    2,3: exists [], []; unfold UpdateGroup; run; rewrite Hl; simpl;
         rewrite Hw1; simpl; done.
    destruct (range_loop (length ops) 0 UpdateGroup_op (ops, w1))
      as [r1 [ops2 w2]] eqn:Hloop.
    destruct (disciplined_range_loop UpdateGroup_op (length ops) 0
                disciplined_UpdateGroup_op (ops, w1)) as (us & Hnet & _).
    rewrite Hloop in Hnet. simpl in Hnet. rewrite Hw1 in Hnet. simpl in Hnet.
    rewrite <- (assoc_L (++)) in Hnet. simpl in Hnet.
    destruct r1 as [[]|e|].
    + destruct (json_Marshal_PatchRequest (world.heap w2)
                  (GroupSCIMPatchRequest.mk patchSchemas ops2))
        as [b|e|] eqn:Hb.
      * destruct (Clientx.Patch client (world.net w2) (url_Parse (groupURL id))
                    UpdateGroup_headers b) as [resp err] eqn:Hpatch.
        exists us, [CallPatch (url_Parse (groupURL id)) UpdateGroup_headers b].
        rewrite (UpdateGroup_run _ _ _ _ _ _ _ _ _ _ Hl Hloop Hb Hpatch).
        simpl. rewrite Hnet, <- (assoc_L (++)). simpl.
        split; [done|]. split; [right; by exists b|done].
      * exists us, [].
        rewrite (UpdateGroup_marshal_fails _ _ _ _ _ _ _ _ Hl Hloop Hb) by done.
        simpl. rewrite Hnet, (right_id_L [] (++)).
        split; [done|]. split; [by left|done].
      * exists us, [].
        rewrite (UpdateGroup_marshal_fails _ _ _ _ _ _ _ _ Hl Hloop Hb) by done.
        simpl. rewrite Hnet, (right_id_L [] (++)).
        split; [done|]. split; [by left|done].
    + exists us, [].
      rewrite (UpdateGroup_loop_fails _ _ _ _ _ _ _ Hl Hloop) by done.
      simpl. rewrite Hnet, (right_id_L [] (++)).
      split; [done|]. split; [by left|done].
    + exists us, [].
      rewrite (UpdateGroup_loop_fails _ _ _ _ _ _ _ Hl Hloop) by done.
      simpl. rewrite Hnet, (right_id_L [] (++)).
      split; [done|]. split; [by left|done].
  - intros g w.
    destruct (range_loop (length (Group.Members g)) 0 CreateGroup_member (g, w))
      as [r1 [g1 w1]] eqn:Hloop.
    destruct (disciplined_range_loop CreateGroup_member
                (length (Group.Members g)) 0 disciplined_CreateGroup_member
                (g, w)) as (us & Hnet & _).
    rewrite Hloop in Hnet. simpl in Hnet.
    destruct r1 as [[]|e|].
    + destruct (json_Marshal_Group g1) as [b|e|] eqn:Hb.
      * destruct (Clientx.Post client (world.net w1) (url_Parse groupsURL)
                    CreateGroup_headers b) as [resp err] eqn:Hpost.
        exists us, [CallPost (url_Parse groupsURL) CreateGroup_headers b].
        rewrite (CreateGroup_run _ _ _ _ _ _ _ Hloop Hb Hpost). simpl.
        rewrite Hnet, <- (assoc_L (++)).
        split; [done|]. split; [right; by exists b|done].
      * exists us, [].
        rewrite (CreateGroup_marshal_fails _ _ _ _ _ Hloop Hb) by done.
        simpl. rewrite Hnet, (right_id_L [] (++)).
        split; [done|]. split; [by left|done].
      * exists us, [].
        rewrite (CreateGroup_marshal_fails _ _ _ _ _ Hloop Hb) by done.
        simpl. rewrite Hnet, (right_id_L [] (++)).
        split; [done|]. split; [by left|done].
    + exists us, [].
      rewrite (CreateGroup_loop_fails _ _ _ _ Hloop) by done.
      simpl. rewrite Hnet, (right_id_L [] (++)).
      split; [done|]. split; [by left|done].
    + exists us, [].
      rewrite (CreateGroup_loop_fails _ _ _ _ Hloop) by done.
      simpl. rewrite Hnet, (right_id_L [] (++)).
      split; [done|]. split; [by left|done].
Qed.

End Writes.
(** ** The bearer token on every request *)

Section Authorization.

Context `{Env}.

#[local] Instance emits_po (P : call -> Prop) : PreOrder (emits P).
Proof.
  split.
  - intros w. exists []. by rewrite (right_id_L [] (++)).
  - intros w1 w2 w3 (t & Ht & HP) (t' & Ht' & HP'). exists (t ++ t').
    split; [by rewrite Ht', Ht, (assoc_L (++))|]. by apply Forall_app.
Qed.

#[local] Instance emits_in_po {X} (P : call -> Prop)
  : PreOrder (emits_in (X := X) P).
Proof.
  split.
  - intros s. unfold emits_in. reflexivity.
  - intros s1 s2 s3 H12 H23. unfold emits_in in *. by transitivity s2.2.
Qed.

Lemma emits_log (P : call -> Prop) c w : P c -> emits P w (world.log c w).
Proof. intros Hc. exists [c]. split; [done|]. by constructor. Qed.

Lemma keeps_emits_lift {X A} (P : call -> Prop) (m : M world.t A) :
  keeps (emits P) m -> keeps (emits_in (X := X) P) (lift m).
Proof. apply keeps_lift. by intros x w w'. Qed.

(** A resolver loop adds resolver calls only. *)
Lemma keeps_emits_disciplined {X A} (P : call -> Prop)
    (m : M (X * world.t) A) :
  (∀ u, P (CallGetUserId u)) -> disciplined m -> keeps (emits_in P) m.
Proof.
  intros HP Hm s. destruct (Hm s) as (us & Hnet & _).
  exists (calls us). split; [done|].
  apply Forall_forall. intros c Hc.
  apply list_elem_of_fmap in Hc as (u & -> & _). apply HP.
Qed.

Lemma authorized_resolver u : authorized (CallGetUserId u).
Proof. done. Qed.

Lemma keeps_getGroupId name : keeps (emits authorized) (getGroupId name).
Proof.
  intros w. rewrite getGroupId_world. by apply emits_log.
Qed.

Lemma keeps_GetGroup name : keeps (emits authorized) (GetGroup name).
Proof.
  unfold GetGroup.
  apply keeps_bind; [apply _|apply keeps_getGroupId|intros id].
  apply keeps_bind; [apply _| |intros xy].
  { intros w. by apply emits_log. }
  destruct xy.2; [apply keeps_fail; apply _|].
  apply keeps_bind; [apply _|apply keeps_deref; apply _|intros response].
  destruct (decide _).
  - destruct (HandleCommonErrors _ _); apply keeps_fail; apply _.
  - destruct (json_Unmarshal_Group _);
      [apply keeps_ret; apply _|apply keeps_fail; apply _].
Qed.

Lemma keeps_GetGroups sort count :
  keeps (emits authorized) (GetGroups sort count).
Proof.
  unfold GetGroups.
  apply keeps_bind; [apply _| |intros xy].
  { intros w. by apply emits_log. }
  destruct xy.2; [apply keeps_fail; apply _|].
  apply keeps_bind; [apply _|apply keeps_deref; apply _|intros response].
  destruct (decide _).
  - destruct (HandleCommonErrors _ _); apply keeps_fail; apply _.
  - destruct (json_Unmarshal_GroupListResponse _);
      [apply keeps_ret; apply _|apply keeps_fail; apply _].
Qed.

Lemma keeps_DeleteGroup name : keeps (emits authorized) (DeleteGroup name).
Proof.
  unfold DeleteGroup.
  apply keeps_bind;
    [apply _|apply keeps_wrap_err; apply keeps_getGroupId|intros id].
  apply keeps_bind; [apply _| |intros xy].
  { intros w. by apply emits_log. }
  destruct xy.2; [apply keeps_fail; apply _|].
  apply keeps_bind; [apply _|apply keeps_deref; apply _|intros response].
  destruct (decide _); [|apply keeps_ret; apply _].
  destruct (HandleCommonErrors _ _); apply keeps_fail; apply _.
Qed.

Lemma keeps_emits_CreateGroup : keeps (emits_in authorized) CreateGroup.
Proof.
  unfold CreateGroup.
  apply keeps_bind; [apply _|apply keeps_get; apply _|intros s0].
  apply keeps_bind; [apply _| |intros _].
  { apply keeps_emits_disciplined; [apply authorized_resolver|].
    apply disciplined_range_loop, disciplined_CreateGroup_member. }
  apply keeps_bind; [apply _|apply keeps_get; apply _|intros s].
  apply keeps_bind; [apply _|apply keeps_lib; apply _|intros b].
  apply keeps_bind; [apply _| |intros xy].
  { apply keeps_emits_lift. intros w. by apply emits_log. }
  destruct xy.2; [apply keeps_fail; apply _|].
  apply keeps_bind; [apply _|apply keeps_deref; apply _|intros response].
  destruct (decide _); [apply keeps_fail; apply _|].
  apply keeps_bind;
    [apply _|apply keeps_wrap_err; apply keeps_lib; apply _|intros m].
  destruct (m !! "id") as [[]|];
    first [apply keeps_ret; apply _|apply keeps_panic; apply _].
Qed.

Lemma keeps_emits_UpdateGroup name :
  keeps (emits_in authorized) (UpdateGroup name).
Proof.
  unfold UpdateGroup.
  apply keeps_bind; [apply _| |intros groupID].
  { apply keeps_wrap_err, keeps_emits_lift, keeps_getGroupId. }
  apply keeps_bind; [apply _|apply keeps_get; apply _|intros s0].
  apply keeps_bind; [apply _| |intros _].
  { apply keeps_emits_disciplined; [apply authorized_resolver|].
    apply disciplined_range_loop, disciplined_UpdateGroup_op. }
  apply keeps_bind; [apply _|apply keeps_get; apply _|intros s].
  apply keeps_bind;
    [apply _|apply keeps_wrap_err; apply keeps_lib; apply _|intros b].
  apply keeps_bind; [apply _| |intros xy].
  { apply keeps_emits_lift. intros w. by apply emits_log. }
  destruct xy.2; [apply keeps_fail; apply _|].
  apply keeps_bind; [apply _|apply keeps_deref; apply _|intros response].
  destruct (decide _); [apply keeps_fail; apply _|apply keeps_ret; apply _].
Qed.

(** X12.  Every request that [GetGroup], [GetGroups], [CreateGroup],
    [DeleteGroup] or [UpdateGroup] hands to the transport, in any run,
    the lookup request included, carries the header [Authorization] with
    the one value [Bearer <token>] of the caller's configuration. *)
Theorem X12_requests_authorized :
  (∀ name w, emits authorized w (GetGroup name w).2)
  ∧ (∀ sort count w, emits authorized w (GetGroups sort count w).2)
  ∧ (∀ g w, emits authorized w (CreateGroup (g, w)).2.2)
  ∧ (∀ name w, emits authorized w (DeleteGroup name w).2)
  ∧ (∀ name ops w, emits authorized w (UpdateGroup name (ops, w)).2.2).
Proof.
  split; [intros name w; apply keeps_GetGroup|].
  split; [intros sort count w; apply keeps_GetGroups|].
  split; [intros g w; apply (keeps_emits_CreateGroup (g, w))|].
  split; [intros name w; apply keeps_DeleteGroup|].
  intros name ops w. apply (keeps_emits_UpdateGroup name (ops, w)).
Qed.

End Authorization.
(** ** Whole runs of the loop of [UpdateGroup] *)

Section Loops.

Context `{Env}.

Lemma member_usernames_log c w values :
  member_usernames (world.log c w) values = member_usernames w values.
Proof.
  induction values as [|v values IH]; [done|]. simpl.
  destruct v; try done. rewrite load_log.
  destruct (world.load m w !! "value") as [[]|]; try done. by rewrite IH.
Qed.

Lemma names_no_user_log c w op :
  names_no_user w op -> names_no_user (world.log c w) op.
Proof.
  unfold names_no_user. destruct (decide _); [|done].
  destruct (GroupSCIMOpEntry.Value op); try done.
  by rewrite member_usernames_log.
Qed.

Lemma UpdateGroup_op_no_user i op ops w :
  ops !! i = Some op -> names_no_user w op ->
  UpdateGroup_op i (ops, w) = (Ok tt, (ops, w)).
Proof.
  intros Hop Hno. unfold names_no_user in Hno.
  destruct (decide (GroupSCIMOpEntry.Op op = "add"
                    ∧ GroupSCIMOpEntry.Path op = "members")) as [[Hadd Hp]|Hadd].
  - rewrite (UpdateGroup_op_add _ _ _ _ Hop Hadd Hp).
    destruct (GroupSCIMOpEntry.Value op) as [| | | |values| |]; try done.
    pose proof (range_values_resolved values 0 ops w []) as Hr.
    rewrite Hno in Hr. apply Hr; [constructor|done|].
    intros k a u uid Hk. by rewrite lookup_nil in Hk.
  - destruct (decide (GroupSCIMOpEntry.Op op = "remove")) as [Hremove|Hremove].
    + rewrite (UpdateGroup_op_remove _ _ _ _ Hop Hremove). simpl.
      by rewrite decide_False by (by intros ?).
    + by apply (UpdateGroup_op_other i op).
Qed.

Lemma UpdateGroup_loop_no_user n : ∀ i ops w,
  Forall (names_no_user w) ops ->
  (i + n ≤ length ops)%nat ->
  range_loop n i UpdateGroup_op (ops, w) = (Ok tt, (ops, w)).
Proof.
  induction n as [|n IH]; intros i ops w Hall Hlen; [done|].
  simpl. unfold bind.
  destruct (lookup_lt_is_Some_2 ops i ltac:(lia)) as [op Hop].
  rewrite (UpdateGroup_op_no_user _ _ _ _ Hop);
    [|by apply (Forall_lookup_1 _ _ _ _ Hall Hop)].
  apply IH; [done|lia].
Qed.

(** X13.  When no operation names a user (each is an add on [members]
    whose payload holds no map with a string [value], a remove whose path
    gives no username, or an operation of any other kind, the names
    compared as written), [UpdateGroup] asks the resolver nothing and
    leaves the caller's slice and the maps as they are: after the lookup
    it sends one PATCH, whose body is the serialization of the operations
    as they were passed in. *)
Theorem X13_operations_passed_through (name : string)
    (ops : list GroupSCIMOpEntry.t) (w w1 : world.t) (id b : string) :
  Forall (names_no_user w) ops ->
  getGroupId name w = (Ok id, w1) ->
  json_Marshal_PatchRequest (world.heap w)
    (GroupSCIMPatchRequest.mk patchSchemas ops) = Ok b ->
  (UpdateGroup name (ops, w)).2
  = (ops,
     world.mk
       (world.net w
        ++ [lookupCall name;
            CallPatch (url_Parse (groupURL id)) UpdateGroup_headers b])
       (world.heap w)).
Proof.
  intros Hall Hl Hb.
  assert (Hw1 : w1 = world.log (lookupCall name) w).
  { by rewrite <- (getGroupId_world name w), Hl. }
  assert (Hloop : range_loop (length ops) 0 UpdateGroup_op (ops, w1)
                  = (Ok tt, (ops, w1))).
  { apply UpdateGroup_loop_no_user; [|simpl; lia].
    rewrite Hw1. eapply Forall_impl; [exact Hall|].
    intros op. apply names_no_user_log. }
  assert (Hb1 : json_Marshal_PatchRequest (world.heap w1)
                  (GroupSCIMPatchRequest.mk patchSchemas ops) = Ok b)
    by (by rewrite Hw1).
  destruct (Clientx.Patch client (world.net w1) (url_Parse (groupURL id))
              UpdateGroup_headers b) as [resp err] eqn:Hpatch.
  rewrite (UpdateGroup_run _ _ _ _ _ _ _ _ _ _ Hl Hloop Hb1 Hpatch). simpl.
  rewrite Hw1. unfold world.log. simpl. by rewrite <- (assoc_L (++)).
Qed.

(** The loop over remove operations that each name a user who
    resolves. *)
Lemma UpdateGroup_loop_removals todo : ∀ pre w ids,
  Forall (λ op, GroupSCIMOpEntry.Op op = "remove"
                ∧ removal_username op ≠ EmptyString) todo ->
  length ids = length todo ->
  (∀ j op id, todo !! j = Some op -> ids !! j = Some id ->
     getUserId (world.net w ++ calls (removal_username <$> take j todo))
               (removal_username op) = Ok id) ->
  range_loop (length todo) (length pre) UpdateGroup_op (pre ++ todo, w)
  = (Ok tt,
     (pre ++ zip_with removal_for ids todo,
      world.mk (world.net w ++ calls (removal_username <$> todo))
               (world.heap w))).
Proof.
  induction todo as [|op todo IH]; intros pre w ids Hall Hlen Hids.
  - destruct ids; [|done]. simpl. unfold ret.
    rewrite !(right_id_L [] (++)). by destruct w.
  - destruct ids as [|id ids]; [done|]. simpl in Hlen.
    apply Forall_cons in Hall as [[Hremove Hu] Hall].
    simpl. unfold bind at 1.
    assert (Hop : (pre ++ op :: todo) !! length pre = Some op)
      by (by rewrite list_lookup_middle).
    assert (Hid : getUserId (world.net w) (removal_username op) = Ok id).
    { specialize (Hids 0 op id eq_refl eq_refl). simpl in Hids.
      by rewrite (right_id_L [] (++)) in Hids. }
    rewrite (UpdateGroup_op_remove _ _ _ _ Hop Hremove). simpl.
    fold (removal_username op). rewrite decide_True by done. rewrite Hid.
    fold (removal_for id op).
    rewrite insert_app_r_alt by lia. rewrite Nat.sub_diag. simpl.
    replace (S (length pre)) with (length (pre ++ [removal_for id op]))
      by (rewrite length_app; simpl; lia).
    replace (pre ++ removal_for id op :: todo)
      with ((pre ++ [removal_for id op]) ++ todo)
      by (by rewrite <- (assoc_L (++))).
    rewrite (IH (pre ++ [removal_for id op]) _ ids).
    + simpl. by rewrite <- !(assoc_L (++)).
    + done.
    + lia.
    + intros j op' id' Hj Hid'. simpl. rewrite <- (assoc_L (++)). simpl.
      apply (Hids (S j) op' id' Hj Hid').
Qed.

(** X14.  When every operation is a remove that names a user and each
    user resolves, [UpdateGroup] asks the resolver once for each
    operation, in the order of the slice and without remembering an
    answer, rewrites every operation in the caller's slice for the ID
    answered to it, and then sends one PATCH, whose body is the
    serialization of the rewritten operations. *)
Theorem X14_removals_resolved (name : string)
    (ops : list GroupSCIMOpEntry.t) (w w1 : world.t) (id b : string)
    (ids : list string) :
  getGroupId name w = (Ok id, w1) ->
  Forall (λ op, GroupSCIMOpEntry.Op op = "remove"
                ∧ removal_username op ≠ EmptyString) ops ->
  length ids = length ops ->
  (∀ j op uid, ops !! j = Some op -> ids !! j = Some uid ->
     getUserId
       (world.net w ++ lookupCall name
          :: calls (removal_username <$> take j ops))
       (removal_username op) = Ok uid) ->
  json_Marshal_PatchRequest (world.heap w)
    (GroupSCIMPatchRequest.mk patchSchemas (zip_with removal_for ids ops))
    = Ok b ->
  (UpdateGroup name (ops, w)).2
  = (zip_with removal_for ids ops,
     world.mk
       (world.net w ++ lookupCall name :: calls (removal_username <$> ops)
        ++ [CallPatch (url_Parse (groupURL id)) UpdateGroup_headers b])
       (world.heap w)).
Proof.
  intros Hl Hall Hlen Hids Hb.
  assert (Hw1 : w1 = world.log (lookupCall name) w).
  { by rewrite <- (getGroupId_world name w), Hl. }
  assert (Hloop :
    range_loop (length ops) 0 UpdateGroup_op (ops, w1)
    = (Ok tt,
       (zip_with removal_for ids ops,
        world.mk (world.net w1 ++ calls (removal_username <$> ops))
                 (world.heap w1)))).
  { apply (UpdateGroup_loop_removals ops [] w1 ids Hall Hlen).
    intros j op uid Hj Huid. rewrite Hw1. simpl.
    rewrite <- (assoc_L (++)). simpl. by apply Hids. }
  assert (Hb1 :
    json_Marshal_PatchRequest
      (world.heap (world.mk (world.net w1 ++ calls (removal_username <$> ops))
                            (world.heap w1)))
      (GroupSCIMPatchRequest.mk patchSchemas (zip_with removal_for ids ops))
    = Ok b) by (by rewrite Hw1).
  destruct (Clientx.Patch client
              (world.net (world.mk
                 (world.net w1 ++ calls (removal_username <$> ops))
                 (world.heap w1)))
              (url_Parse (groupURL id)) UpdateGroup_headers b)
    as [resp err] eqn:Hpatch.
  rewrite (UpdateGroup_run _ _ _ _ _ _ _ _ _ _ Hl Hloop Hb1 Hpatch). simpl.
  rewrite Hw1. unfold world.log. simpl. by rewrite <- !(assoc_L (++)).
Qed.

End Loops.
Lemma X13_operations_passed_through_witness :
  (UpdateGroup (H := Cases.env_found_204) "Engineers"
     (Cases.ops_no_user, Double.w_members)).2
  = (Cases.ops_no_user,
     world.mk
       [lookupCall (H := Cases.env_found_204) "Engineers";
        CallPatch (url_Parse (groupURL (H := Cases.env_found_204) "g-1"))
          (UpdateGroup_headers (H := Cases.env_found_204))
          "displayName,members,members"]
       (world.heap Double.w_members)).
Proof.
  apply (X13_operations_passed_through (H := Cases.env_found_204) "Engineers"
           Cases.ops_no_user Double.w_members
           (world.log (lookupCall (H := Cases.env_found_204) "Engineers")
              Double.w_members)
           "g-1" "displayName,members,members").
  - repeat constructor; vm_compute; done.
  - vm_compute. reflexivity.
  - vm_compute. reflexivity.
Defined.

Lemma X14_removals_resolved_witness :
  (UpdateGroup (H := Cases.env_found_204) "Engineers"
     (Cases.ops_removals, Double.w0)).2
  = ([Double.remove (removePath "u-2"); Double.remove (removePath "u-1");
      Double.remove (removePath "u-2")],
     world.mk
       [lookupCall (H := Cases.env_found_204) "Engineers";
        CallGetUserId "bob"; CallGetUserId "alice"; CallGetUserId "bob";
        CallPatch (url_Parse (groupURL (H := Cases.env_found_204) "g-1"))
          (UpdateGroup_headers (H := Cases.env_found_204))
          (join "," [removePath "u-2"; removePath "u-1"; removePath "u-2"])]
       ∅).
Proof.
  apply (X14_removals_resolved (H := Cases.env_found_204) "Engineers"
           Cases.ops_removals Double.w0
           (world.log (lookupCall (H := Cases.env_found_204) "Engineers")
              Double.w0)
           "g-1"
           (join "," [removePath "u-2"; removePath "u-1"; removePath "u-2"])
           ["u-2"; "u-1"; "u-2"]).
  - vm_compute. reflexivity.
  - repeat constructor; vm_compute; done.
  - reflexivity.
  - intros [|[|[|j]]] op uid Hj Huid; simpl in Hj, Huid; try done;
      injection Hj as <-; injection Huid as <-; vm_compute; reflexivity.
  - vm_compute. reflexivity.
Defined.
(** ** The loop of [UpdateGroup] over a slice in two parts *)

Section Composition.

Context `{Env}.

(** The loop over a payload does not read the operations. *)
Lemma range_values_member_any values : ∀ j w,
  ∃ r w', ∀ x : list GroupSCIMOpEntry.t,
    range_values values j UpdateGroup_member (x, w) = (r, (x, w')).
Proof.
  induction values as [|v values IH]; intros j w.
  - by exists (Ok tt), w.
  - assert (Hv : ∃ r w', ∀ x : list GroupSCIMOpEntry.t,
                   UpdateGroup_member j v (x, w) = (r, (x, w'))).
    { unfold UpdateGroup_member.
      destruct v; try (by exists (Ok tt), w). run.
      destruct (world.load m w !! "value") as [[| | |u| | |]|];
        try (by exists (Ok tt), w).
      simpl. destruct (getUserId (world.net w) u) as [id|e|]; simpl.
      - by eexists (Ok tt), _.
      - by eexists (Err _), _.
      - by eexists Panic, _. }
    destruct Hv as (r & w' & Hv). simpl. unfold bind.
    destruct r as [[]|e|].
    + destruct (IH (S j) w') as (r2 & w2 & Hrest). exists r2, w2.
      intros x. by rewrite Hv, Hrest.
    + exists (Err e), w'. intros x. by rewrite Hv.
    + exists Panic, w'. intros x. by rewrite Hv.
Qed.

(** One iteration reads and writes the operation at its own index
    only. *)
Lemma UpdateGroup_op_local pre post ops i w :
  i < length ops ->
  ∃ r ops' w',
    UpdateGroup_op i (ops, w) = (r, (ops', w'))
    ∧ length ops' = length ops
    ∧ UpdateGroup_op (length pre + i) (pre ++ ops ++ post, w)
      = (r, (pre ++ ops' ++ post, w')).
Proof.
  intros Hi. destruct (lookup_lt_is_Some_2 ops i Hi) as [op Hop].
  assert (Hop' : (pre ++ ops ++ post) !! (length pre + i) = Some op).
  { rewrite lookup_app_r by lia.
    replace (length pre + i - length pre) with i by lia.
    by rewrite lookup_app_l. }
  unfold UpdateGroup_op. run. rewrite Hop, Hop'. simpl.
  destruct (decide _) as [Hadd|Hadd].
  - destruct (GroupSCIMOpEntry.Value op) as [| | | |values| |];
      try (by exists (Ok tt), ops, w).
    destruct (range_values_member_any values 0 w) as (r & w' & Hv).
    exists r, ops, w'. by rewrite !Hv.
  - destruct (decide _) as [Hremove|Hremove]; [|by exists (Ok tt), ops, w].
    destruct (decide _) as [Hu|Hu]; [|by exists (Ok tt), ops, w].
    simpl. destruct (getUserId _ _) as [id|e|]; simpl.
    + eexists (Ok tt), _, _. split; [done|].
      split; [by rewrite length_alter|].
      do 2 f_equal. rewrite alter_app_r_alt by lia.
      replace (length pre + i - length pre) with i by lia.
      by rewrite alter_app_l.
    + by eexists (Err _), ops, _.
    + by eexists Panic, ops, _.
Qed.

Lemma UpdateGroup_loop_local pre post n : ∀ i ops w,
  (i + n ≤ length ops)%nat ->
  ∃ r ops' w',
    range_loop n i UpdateGroup_op (ops, w) = (r, (ops', w'))
    ∧ length ops' = length ops
    ∧ range_loop n (length pre + i) UpdateGroup_op (pre ++ ops ++ post, w)
      = (r, (pre ++ ops' ++ post, w')).
Proof.
  induction n as [|n IH]; intros i ops w Hlen.
  - by exists (Ok tt), ops, w.
  - destruct (UpdateGroup_op_local pre post ops i w ltac:(lia))
      as (r & ops1 & w1 & Hbody & Hl1 & Hbody').
    simpl. unfold bind. rewrite Hbody, Hbody'.
    destruct r as [[]|e|].
    + destruct (IH (S i) ops1 w1 ltac:(lia)) as (r2 & ops2 & w2 & Hr & Hl2 & Hr').
      exists r2, ops2, w2. split; [done|]. split; [congruence|].
      by rewrite <- Nat.add_succ_r.
    + by exists (Err e), ops1, w1.
    + by exists Panic, ops1, w1.
Qed.

(** X15.  The loop of [UpdateGroup] treats the operations one after the
    other and each on its own: over a slice in two parts it does what it
    does over the first part and then, when that succeeded, what it does
    over the second part in the world that the first part left; when the
    first part fails, the second part is left as it was. *)
Theorem X15_loop_composes (ops1 ops2 : list GroupSCIMOpEntry.t) (w : world.t) :
  let run ops w := range_loop (length ops) 0 UpdateGroup_op (ops, w) in
  run (ops1 ++ ops2) w =
    match (run ops1 w).1 with
    | Ok _ =>
        ((run ops2 (run ops1 w).2.2).1,
         ((run ops1 w).2.1 ++ (run ops2 (run ops1 w).2.2).2.1,
          (run ops2 (run ops1 w).2.2).2.2))
    | r => (r, ((run ops1 w).2.1 ++ ops2, (run ops1 w).2.2))
    end.
Proof.
  simpl.
  destruct (UpdateGroup_loop_local [] ops2 (length ops1) 0 ops1 w ltac:(lia))
    as (r1 & ops1' & w1 & Hr1 & Hl1 & Hr1').
  rewrite Hr1. simpl in Hr1' |- *.
  rewrite length_app, range_loop_split. unfold bind. rewrite Hr1'.
  destruct r1 as [[]|e|]; try done.
  destruct (UpdateGroup_loop_local ops1' [] (length ops2) 0 ops2 w1 ltac:(lia))
    as (r2 & ops2' & w2 & Hr2 & Hl2 & Hr2').
  rewrite Hr2. simpl.
  rewrite (right_id_L [] (++)) in Hr2'.
  rewrite Nat.add_0_r, Hl1 in Hr2'. simpl. rewrite Hr2'.
  by rewrite (right_id_L [] (++)).
Qed.

End Composition.
